(** * utils.py: PathMatcher and find_unique_paths

    A shallow embedding of [src/utils.py].  The two utilities talk to the
    operating system through [os.listdir], [os.stat], [os.path.isdir],
    [glob.glob] and a few [os.path] string functions; these are gathered in
    the record [OS].  The functions of the module are written over an
    arbitrary [OS]; the module [TreeFS] then provides a concrete file system
    (a finite tree of directories) on which the traversal is run. *)

From Stdlib Require Import ZArith String Ascii.
From stdpp Require Import base tactics option list strings gmap sorting.

Set Warnings "-register-all".

Local Open Scope string_scope.
Local Open Scope Z_scope.

(** ** Python values used by the module *)

Module Py.

(** The exceptions [os] functions raise ([OSError] and its subclasses). *)
Inductive exn : Type :=
| FileNotFoundError
| PermissionError
| NotADirectoryError
| OSError (errno : Z).

(** The result of a call: a value or a raised exception. *)
Inductive res (A : Type) : Type :=
| Ok (a : A)
| Raise (e : exn).
Arguments Ok {A} a.
Arguments Raise {A} e.

Global Instance res_ret : MRet res := @Ok.
Global Instance res_bind : MBind res := fun A B k r =>
  match r with
  | Ok a => k a
  | Raise e => Raise e
  end.

(** [s.startswith(prefix)] *)
Definition startswith (s prefix : string) : bool := String.prefix prefix s.

(** [c in s] for a one-character string [c]. *)
Fixpoint contains_char (c : ascii) (s : string) : bool :=
  match s with
  | EmptyString => false
  | String a s' => if Ascii.eqb a c then true else contains_char c s'
  end.

(** [sorted(l)] on a list of [str]: ascending code-point order. *)
Definition sorted (l : list string) : list string := merge_sort String.le l.

(** [x in l] for a list [l]. *)
Definition in_list (x : string) (l : list string) : bool := bool_decide (x ∈ l).

End Py.
Export Py.

(** ** The [stat] module: file-type bits of [st_mode] *)

Module stat.
Definition S_IFMT (mode : Z) : Z := Z.land mode 0xF000.
Definition S_IFDIR : Z := 0x4000.
Definition S_IFCHR : Z := 0x2000.
Definition S_IFBLK : Z := 0x6000.
Definition S_IFREG : Z := 0x8000.
Definition S_IFIFO : Z := 0x1000.
Definition S_IFLNK : Z := 0xA000.
Definition S_IFSOCK : Z := 0xC000.
Definition S_ISDIR (mode : Z) : bool := S_IFMT mode =? S_IFDIR.
Definition S_ISCHR (mode : Z) : bool := S_IFMT mode =? S_IFCHR.
Definition S_ISBLK (mode : Z) : bool := S_IFMT mode =? S_IFBLK.
Definition S_ISREG (mode : Z) : bool := S_IFMT mode =? S_IFREG.
Definition S_ISLNK (mode : Z) : bool := S_IFMT mode =? S_IFLNK.
End stat.
Export stat.

(** ** The operating-system interface *)

Record OS : Type := {
  (** [os.listdir(path)]: the names in a directory, in arbitrary order. *)
  listdir : string -> res (list string);
  (** [os.stat(path, follow_symlinks=False).st_mode] *)
  lstat : string -> res Z;
  (** [os.path.isdir(path)] *)
  isdir : string -> bool;
  (** [glob.glob(pattern, recursive=True)] *)
  glob : string -> list string;
  (** [os.path.realpath(path)], [os.path.abspath(path)] *)
  realpath : string -> string;
  abspath : string -> string;
  (** [os.path.relpath(path, start)] *)
  relpath : string -> string -> string
}.

Definition DefaultExcludeFileNames : list string := [".git"].

(** A call that only appends to the list it is given. *)
Definition appends (rec : string -> list string -> option (res (list string)))
  : Prop :=
  forall p paths,
    rec p paths = match rec p [] with
                  | Some (Ok l) => Some (Ok (paths ++ l)%list)
                  | o => o
                  end.

(** ** find_unique_paths *)

Section find_unique_paths.
Context (os : OS).

(** The tuple [make_info] returns:
    [file_name, file_path, full_path, st.st_mode]. *)
Definition file_info : Type := string * string * string * Z.
Definition info_name (i : file_info) : string := i.1.1.1.
Definition info_path (i : file_info) : string := i.1.1.2.
Definition info_mode (i : file_info) : Z := i.2.

(** The test of the second loop of [scan_path] on [st_mode]. *)
Definition qualifies (st_mode : Z) : bool :=
  negb (S_ISDIR st_mode)
  && (negb (S_ISLNK st_mode) && negb (S_ISCHR st_mode)
      && negb (S_ISBLK st_mode) && S_ISREG st_mode).

Section scan.
Context (real_dir : string) (exclude_file_names : list string).

Definition make_info (dir_path file_name : string) : res file_info :=
  let file_path :=
    if String.eqb dir_path "." then file_name
    else dir_path +:+ "/" +:+ file_name in
  let full_path := real_dir +:+ "/" +:+ file_path in
  st_mode ← lstat os full_path;
  Ok (file_name, file_path, full_path, st_mode).

(** [file_name in exclude_file_names], for a list of names, as the
    default value is. *)
Definition is_excluded (file_name : string) : bool :=
  in_list file_name exclude_file_names.

(** [[make_info(f) for f in file_names if not is_excluded(f)]] *)
Fixpoint make_infos (dir_path : string) (file_names : list string)
  : res (list file_info) :=
  match file_names with
  | [] => Ok []
  | f :: rest =>
      if is_excluded f then make_infos dir_path rest
      else
        info ← make_info dir_path f;
        infos ← make_infos dir_path rest;
        Ok (info :: infos)
  end.

(** The first loop of [scan_path]: recurse into every directory.
    [rec] is the recursive call; [paths] is the list being built. *)
Fixpoint scan_dirs (rec : string -> list string -> option (res (list string)))
    (file_infos : list file_info) (paths : list string)
  : option (res (list string)) :=
  match file_infos with
  | [] => Some (Ok paths)
  | (file_name, file_path, full_path, st_mode) :: rest =>
      if S_ISDIR st_mode then
        match rec file_path paths with
        | Some (Ok paths') => scan_dirs rec rest paths'
        | Some (Raise e) => Some (Raise e)
        | None => None
        end
      else scan_dirs rec rest paths
  end.

(** The second loop of [scan_path]: append the regular files. *)
Fixpoint append_files (file_infos : list file_info) (paths : list string)
  : list string :=
  match file_infos with
  | [] => paths
  | (file_name, file_path, full_path, st_mode) :: rest =>
      if negb (S_ISDIR st_mode) then
        if negb (S_ISLNK st_mode) && negb (S_ISCHR st_mode)
           && negb (S_ISBLK st_mode) && S_ISREG st_mode
        then append_files rest (paths ++ [file_path])
        else append_files rest paths
      else append_files rest paths
  end.

(** [scan_path(dir_path)], with the list [paths] it appends to passed
    in and out.  [fuel] bounds the depth of the recursion; [None] is
    only returned when it runs out. *)
Fixpoint scan_path (fuel : nat) (dir_path : string) (paths : list string)
  : option (res (list string)) :=
  match fuel with
  | O => None
  | S fuel' =>
      match listdir os (real_dir +:+ "/" +:+ dir_path) with
      | Raise e => Some (Raise e)
      | Ok names =>
          let file_names := sorted names in
          match make_infos dir_path file_names with
          | Raise e => Some (Raise e)
          | Ok file_infos =>
              match scan_dirs (scan_path fuel') file_infos paths with
              | Some (Ok paths') => Some (Ok (append_files file_infos paths'))
              | other => other
              end
          end
      end
  end.
End scan.

Definition find_unique_paths (fuel : nat) (root_dir : string)
    (exclude_file_names : list string) : option (res (list string)) :=
  let real_dir := realpath os root_dir in
  scan_path real_dir exclude_file_names fuel "." [].

End find_unique_paths.

(** ** PathMatcher *)

(** The [subpaths] argument of the constructor: [None], one value that is
    not a list, or a list. *)
Inductive subpaths_arg : Type :=
| SubNone
| SubStr (s : string)
| SubList (l : list string).

Record PathMatcher : Type := {
  prefixes : list string;
  files_set : gset string;
  files : list string
}.

Section PathMatcher.
Context (os : OS).

(** The nested function [is_link_prefixed(path)].  Its body reads the
    loop variable [wild_file] of the enclosing scope, not [path]. *)
Definition is_link_prefixed (wild_links : gset string) (wild_file : string)
    (path : string) : bool :=
  existsb (fun wild_link => startswith wild_file wild_link) (elements wild_links).

(** [for wild_file in wild_list: ...].  The state is the two sets and
    the lines printed so far; [root_dir] is [None] or the resolved root. *)
Fixpoint wild_loop (root_dir : option string) (wild_list : list string)
    (wild_set wild_links : gset string) (out : list string)
  : res (gset string) * list string :=
  match wild_list with
  | [] => (Ok wild_set, out)
  | wild_file :: rest =>
      match lstat os wild_file with
      | Raise e => (Raise e, out)
      | Ok st_mode =>
          if S_ISDIR st_mode then wild_loop root_dir rest wild_set wild_links out
          else if S_ISLNK st_mode then
            wild_loop root_dir rest wild_set ({[wild_file]} ∪ wild_links)
                      (out ++ ["link: " +:+ wild_file])
          else if S_ISCHR st_mode then wild_loop root_dir rest wild_set wild_links out
          else if S_ISBLK st_mode then wild_loop root_dir rest wild_set wild_links out
          else if negb (S_ISREG st_mode) then
            wild_loop root_dir rest wild_set wild_links out
          else if is_link_prefixed wild_links wild_file wild_file then
            wild_loop root_dir rest wild_set wild_links out
          else
            match root_dir with
            | None =>
                wild_loop root_dir rest ({[wild_file]} ∪ wild_set) wild_links out
            | Some root =>
                wild_loop root_dir rest
                          ({[relpath os wild_file root]} ∪ wild_set) wild_links
                          (out ++ ["add: " +:+ wild_file])
            end
      end
  end.

(** [for subpath in subpaths: ...] *)
Fixpoint subpaths_loop (root_dir : option string) (subpaths : list string)
    (prefixes : list string) (files_set : gset string) (out : list string)
  : res (list string * gset string) * list string :=
  match subpaths with
  | [] => (Ok (prefixes, files_set), out)
  | subpath :: rest =>
      let abs_subpath :=
        match root_dir with
        | None => subpath
        | Some root => root +:+ "/" +:+ subpath
        end in
      if contains_char "*" subpath then
        let wild_list := glob os abs_subpath in
        match wild_loop root_dir wild_list ∅ ∅ out with
        | (Raise e, out') => (Raise e, out')
        | (Ok wild_set, out') =>
            subpaths_loop root_dir rest prefixes (files_set ∪ wild_set) out'
        end
      else if isdir os abs_subpath then
        match root_dir with
        | None =>
            subpaths_loop root_dir rest (prefixes ++ [abs_subpath +:+ "/"]) files_set out
        | Some _ =>
            subpaths_loop root_dir rest (prefixes ++ [subpath +:+ "/"]) files_set out
        end
      else
        match root_dir with
        | None =>
            subpaths_loop root_dir rest prefixes ({[abs_subpath]} ∪ files_set) out
        | Some _ =>
            subpaths_loop root_dir rest prefixes ({[subpath]} ∪ files_set) out
        end
  end.

(** [PathMatcher.__init__(self, root_dir, subpaths)]: the new object, or
    the exception raised, and the lines printed. *)
Definition PathMatcher_init (root_dir : option string) (subpaths : subpaths_arg)
    (out : list string) : res PathMatcher * list string :=
  let root_dir :=
    match root_dir with
    | None => None
    | Some d => Some (realpath os (abspath os d))
    end in
  let subpaths :=
    match subpaths with
    | SubNone => []
    | SubStr s => [s]
    | SubList l => l
    end in
  match subpaths_loop root_dir subpaths [] ∅ out with
  | (Raise e, out') => (Raise e, out')
  | (Ok (prefixes, files_set), out') =>
      (Ok {| prefixes := prefixes; files_set := files_set;
             files := elements files_set |}, out')
  end.

Definition from_rel_dir (root_dir : string) (subpaths : subpaths_arg) :=
  PathMatcher_init (Some root_dir) subpaths.

Definition from_abs_dir (subpaths : subpaths_arg) :=
  PathMatcher_init None subpaths.

End PathMatcher.

(** [for prefix in self.prefixes: if path.startswith(prefix): return True] *)
Fixpoint matches_prefixes (prefixes : list string) (path : string) : bool :=
  match prefixes with
  | [] => false
  | prefix :: rest =>
      if startswith path prefix then true else matches_prefixes rest path
  end.

(** [PathMatcher.matches(self, path)] *)
Definition matches (self : PathMatcher) (path : string) : bool :=
  if matches_prefixes (prefixes self) path then true
  else in_list path (files self).

(** ** The glob policy of the constructor, match by match

    [wild_list] are the matches of one pattern in the order [glob.glob]
    returns them and [modes] their [st_mode]. *)

(** Whether a symbolic link whose path is a prefix of [p] comes before
    the match number [i]. *)
Definition link_before (wild_list : list string) (modes : list Z) (i : nat)
    (p : string) : bool :=
  existsb (fun '(q, mq) => S_ISLNK mq && startswith p q)
          (take i (zip wild_list modes)).

(** Whether the match number [i] survives: it is a regular file and no
    such link comes before it. *)
Definition survives (wild_list : list string) (modes : list Z) (i : nat) : bool :=
  match wild_list !! i, modes !! i with
  | Some p, Some m => S_ISREG m && negb (link_before wild_list modes i p)
  | _, _ => false
  end.

(** The path stored for a surviving match [p]. *)
Definition stored_path (os : OS) (root_dir : option string) (p : string) : string :=
  match root_dir with
  | None => p
  | Some root => relpath os p root
  end.

(** [abs_subpath] for a pattern, and whether the constructor expands the
    pattern, takes it as a directory, or takes it as one file. *)
Definition abs_subpath_of (root_dir : option string) (subpath : string) : string :=
  match root_dir with
  | None => subpath
  | Some root => root +:+ "/" +:+ subpath
  end.

Definition is_glob_pattern (subpath : string) : bool := contains_char "*" subpath.

Definition is_dir_pattern (os : OS) (root_dir : option string) (subpath : string)
  : bool :=
  negb (contains_char "*" subpath) && isdir os (abs_subpath_of root_dir subpath).

Definition is_exact_pattern (os : OS) (root_dir : option string) (subpath : string)
  : bool :=
  negb (contains_char "*" subpath)
  && negb (isdir os (abs_subpath_of root_dir subpath)).

(** The root the constructor works with. *)
Definition resolved_root (os : OS) (root_dir : option string) : option string :=
  match root_dir with
  | None => None
  | Some d => Some (realpath os (abspath os d))
  end.

(** The list a [subpaths] argument stands for. *)
Definition subpaths_list (subpaths : subpaths_arg) : list string :=
  match subpaths with
  | SubNone => []
  | SubStr s => [s]
  | SubList l => l
  end.

(** The lines printed for the match number [i], and for all matches. *)
Definition line_at (root_dir : option string) (wild_list : list string)
    (modes : list Z) (i : nat) : list string :=
  match wild_list !! i, modes !! i with
  | Some p, Some m =>
      if S_ISLNK m then ["link: " +:+ p]
      else if survives wild_list modes i
      then match root_dir with
           | Some _ => ["add: " +:+ p]
           | None => []
           end
      else []
  | _, _ => []
  end.

Definition printed (root_dir : option string) (wild_list : list string)
    (modes : list Z) : list string :=
  seq 0 (length wild_list) ≫= line_at root_dir wild_list modes.

(** ** A concrete file system: a finite tree *)

Module TreeFS.

(** A file-system object.  [Dir err entries] is a directory with its
    entries in the order [os.listdir] reports them; [err = Some e] is a
    directory whose listing fails with [e] (for instance
    [PermissionError] on a directory without read permission). *)
Inductive node : Type :=
| Reg
| Lnk (target : string)
| Chr
| Blk
| Fifo
| Sock
| Dir (err : option exn) (entries : list (string * node)).

(** [st_mode] of an object: its file-type bits and some permission bits. *)
Definition st_mode_of (n : node) : Z :=
  match n with
  | Reg => Z.lor S_IFREG 420
  | Lnk _ => Z.lor S_IFLNK 511
  | Chr => Z.lor S_IFCHR 384
  | Blk => Z.lor S_IFBLK 384
  | Fifo => Z.lor S_IFIFO 420
  | Sock => Z.lor S_IFSOCK 493
  | Dir _ _ => Z.lor S_IFDIR 493
  end.

Definition is_dir (n : node) : bool :=
  match n with Dir _ _ => true | _ => false end.

Definition is_reg (n : node) : bool :=
  match n with Reg => true | _ => false end.

(** [s.split("/")] *)
Fixpoint split_slash (s : string) : list string :=
  match s with
  | EmptyString => [EmptyString]
  | String c s' =>
      if Ascii.eqb c "/" then EmptyString :: split_slash s'
      else
        match split_slash s' with
        | [] => [String c EmptyString]
        | h :: t => String c h :: t
        end
  end.

(** The first value stored under [name] in an association list. *)
Fixpoint assoc {A : Type} (name : string) (l : list (string * A)) : option A :=
  match l with
  | [] => None
  | (k, a) :: rest => if String.eqb k name then Some a else assoc name rest
  end.

(** The entry called [name] in a list of directory entries. *)
Definition entry (name : string) (entries : list (string * node)) : option node :=
  assoc name entries.

(** Path lookup without following a final symbolic link.  Empty and
    ["."] components stay in the current directory.  A symbolic link in
    the middle of a path is not followed: the traversal never asks for
    such a path, because it only descends into what [lstat] reports as
    a directory. *)
Fixpoint lookup_path (n : node) (comps : list string) : res node :=
  match comps with
  | [] => Ok n
  | c :: rest =>
      match n with
      | Dir _ entries =>
          if String.eqb c "" || String.eqb c "." then lookup_path n rest
          else
            match entry c entries with
            | Some n' => lookup_path n' rest
            | None => Raise FileNotFoundError
            end
      | _ => Raise NotADirectoryError
      end
  end.

Section os.
(** The root directory ["/"] of the file system. *)
Context (fs : node).

Definition tree_lookup (path : string) : res node :=
  lookup_path fs (split_slash path).

Definition tree_listdir (path : string) : res (list string) :=
  n ← tree_lookup path;
  match n with
  | Dir (Some e) _ => Raise e
  | Dir None entries => Ok (map fst entries)
  | _ => Raise NotADirectoryError
  end.

Definition tree_lstat (path : string) : res Z :=
  n ← tree_lookup path;
  Ok (st_mode_of n).

Definition tree_isdir (path : string) : bool :=
  match tree_lookup path with
  | Ok n => is_dir n
  | Raise _ => false
  end.
End os.

(** *** [os.path] on POSIX, with the current directory ["/"] *)

(** [os.path.join(a, b)] for a relative [b]. *)
Definition path_join (a b : string) : string :=
  if String.eqb a "" then b
  else if startswith (String.rev a) "/" then a +:+ b
  else a +:+ "/" +:+ b.

(** The components [normpath] keeps: no empty or ["."] component, and
    [".."] removes the component before it. *)
Fixpoint norm_comps (comps : list string) (acc : list string) : list string :=
  match comps with
  | [] => rev acc
  | c :: rest =>
      if String.eqb c "" || String.eqb c "." then norm_comps rest acc
      else if String.eqb c ".." then norm_comps rest (tail acc)
      else norm_comps rest (c :: acc)
  end.

(** The components of [os.path.abspath(path)]. *)
Definition abs_comps (path : string) : list string :=
  norm_comps (split_slash path) [].

Definition tree_abspath (path : string) : string :=
  "/" +:+ String.concat "/" (abs_comps path).

(** The length of the longest common prefix of two component lists. *)
Fixpoint common_len (l1 l2 : list string) : nat :=
  match l1, l2 with
  | a :: l1', b :: l2' => if String.eqb a b then S (common_len l1' l2') else O
  | _, _ => O
  end.

(** [os.path.relpath(path, start)] *)
Definition tree_relpath (path start : string) : string :=
  let start_list := abs_comps start in
  let path_list := abs_comps path in
  let i := common_len start_list path_list in
  let rel_list := (replicate (length start_list - i) ".." ++ drop i path_list)%list in
  match rel_list with
  | [] => "."
  | _ => String.concat "/" rel_list
  end.

(** *** [glob.glob(pattern, recursive=True)]

    A model for patterns whose only wildcard character is [*]: a
    component ["**"] stands for any number of directories, any other
    component with a [*] is matched against the names of one directory.
    Names that start with a dot are only matched by a component that
    starts with a dot. *)

(** [fnmatch.fnmatchcase(name, pat)] *)
Fixpoint fnmatch (pat : string) : string -> bool :=
  match pat with
  | EmptyString => fun name => String.eqb name ""
  | String c pat' =>
      if Ascii.eqb c "*" then
        fix star (name : string) : bool :=
          fnmatch pat' name ||
          match name with
          | EmptyString => false
          | String _ name' => star name'
          end
      else
        fun name =>
          match name with
          | EmptyString => false
          | String d name' => Ascii.eqb c d && fnmatch pat' name'
          end
  end.

Definition is_hidden (name : string) : bool := startswith name ".".

(** Everything below a directory that is reachable through names that
    are not hidden, with its path relative to [prefix]. *)
Fixpoint descendants (prefix : string) (n : node) : list (string * node) :=
  match n with
  | Dir None entries =>
      flat_map (fun '(name, child) =>
                  if is_hidden name then []
                  else (path_join prefix name, child)
                         :: descendants (path_join prefix name) child)
               entries
  | _ => []
  end.

(** One component of the pattern, applied to one candidate. *)
Definition glob_step (comp : string) (cand : string * node) : list (string * node) :=
  let '(prefix, n) := cand in
  match n with
  | Dir err entries =>
      if String.eqb comp "**" then
        (path_join prefix "", n) :: descendants prefix n
      else if contains_char "*" comp then
        match err with
        | Some _ => []
        | None =>
            flat_map (fun '(name, child) =>
                        if (negb (is_hidden name) || is_hidden comp)
                           && fnmatch comp name
                        then [(path_join prefix name, child)] else [])
                     entries
        end
      else if String.eqb comp "" || String.eqb comp "." then
        [(path_join prefix comp, n)]
      else
        match entry comp entries with
        | Some child => [(path_join prefix comp, child)]
        | None => []
        end
  | _ => []
  end.

Definition glob_comps (fs : node) (comps : list string) : list (string * node) :=
  match comps with
  | "" :: rest => foldl (fun cands comp => flat_map (glob_step comp) cands) [("/", fs)] rest
  | _ => foldl (fun cands comp => flat_map (glob_step comp) cands) [("", fs)] comps
  end.

Definition tree_glob (fs : node) (pattern : string) : list string :=
  map fst (glob_comps fs (split_slash pattern)).

(** The operating system over the tree [fs].  There is no link to
    resolve on the way to a root given by an absolute path of real
    directories, so [realpath] is [abspath]. *)
Definition tree_os (fs : node) : OS := {|
  listdir := tree_listdir fs;
  lstat := tree_lstat fs;
  isdir := tree_isdir fs;
  glob := tree_glob fs;
  realpath := tree_abspath;
  abspath := tree_abspath;
  relpath := tree_relpath
|}.

(** *** Well-formed trees and the files of a tree *)

(** A name [os.listdir] can report: not empty, not ["."] or [".."], and
    without a separator. *)
Definition valid_name (name : string) : bool :=
  negb (String.eqb name "") && negb (String.eqb name ".")
  && negb (String.eqb name "..") && negb (contains_char "/" name).

(** Every directory holds valid names, each of them once. *)
Fixpoint wf (n : node) : bool :=
  match n with
  | Dir _ entries =>
      forallb (fun '(name, _) => valid_name name) entries
      && bool_decide (NoDup (map fst entries))
      && forallb (fun '(_, child) => wf child) entries
  | _ => true
  end.

Fixpoint height (n : node) : nat :=
  match n with
  | Dir _ entries => S (foldr (fun '(_, child) h => Nat.max (height child) h) O entries)
  | _ => O
  end.

(** [file_path] as [make_info] builds it from [dir_path] and a name. *)
Definition child_path (dir_path name : string) : string :=
  if String.eqb dir_path "." then name else dir_path +:+ "/" +:+ name.

(** The path string of a list of components below [dir_path]. *)
Definition path_of (dir_path : string) (comps : list string) : string :=
  foldl child_path dir_path comps.

(** [reaches E n comps n']: from [n], the names [comps], none of them in
    [E], lead through directories to [n'].  No symbolic link is
    followed. *)
Inductive reaches (E : list string) : node -> list string -> node -> Prop :=
| reaches_here n : reaches E n [] n
| reaches_step err entries name child comps n' :
    name ∉ E ->
    entry name entries = Some child ->
    reaches E child comps n' ->
    reaches E (Dir err entries) (name :: comps) n'.

(** The outcome of the traversal of a tree, as lists of components: for
    the names of a directory in sorted order and not in [E], first the
    outcome of every subdirectory, then the regular files. *)
Fixpoint walk_dirs (entries : list (string * node))
    (table : list (string * res (list (list string)))) (names : list string)
  : res (list (list string)) :=
  match names with
  | [] => Ok []
  | f :: rest =>
      match entry f entries, assoc f table with
      | Some (Dir _ _), Some r =>
          sub ← r;
          subs ← walk_dirs entries table rest;
          Ok (map (cons f) sub ++ subs)%list
      | _, _ => walk_dirs entries table rest
      end
  end.

Definition walk_files (entries : list (string * node)) (names : list string)
  : list (list string) :=
  names ≫= (fun f => match entry f entries with
                      | Some Reg => [[f]]
                      | _ => []
                      end).

Fixpoint walk (E : list string) (n : node) : res (list (list string)) :=
  match n with
  | Dir (Some e) _ => Raise e
  | Dir None entries =>
      let table :=
        map (fun '(name, child) => (name, walk E child)) entries in
      let names :=
        List.filter (fun f => negb (in_list f E)) (sorted (map fst entries)) in
      subs ← walk_dirs entries table names;
      Ok (subs ++ walk_files entries names)%list
  | _ => Raise NotADirectoryError
  end.

(** The tuples [make_info] builds for the names [names] of the directory
    [dir_path] with the entries [entries]. *)
Definition infos_of (real_dir dir_path : string) (entries : list (string * node))
    (names : list string) : list file_info :=
  omap (fun f =>
          child ← entry f entries;
          Some (f, child_path dir_path f,
                real_dir +:+ "/" +:+ child_path dir_path f, st_mode_of child))
       names.

(** [os.path.basename(path)] *)
Definition basename (path : string) : string :=
  List.last (split_slash path) "".

End TreeFS.

(** ** File systems used as examples *)

Module Fixtures.
Import TreeFS.

(** ["/proj"] holds [.git/config], [README], [lib/a.py] and [lib/b.py]. *)
Definition fs_proj : node :=
  Dir None
    [("proj",
      Dir None
        [("lib", Dir None [("b.py", Reg); ("a.py", Reg)]);
         ("README", Reg);
         (".git", Dir None [("config", Reg)])])].

(** ["/r"] holds [src/a.c], [src/b.c] and [src/sub/c.c]. *)
Definition fs_src : node :=
  Dir None
    [("r",
      Dir None
        [("src",
          Dir None
            [("a.c", Reg); ("b.c", Reg);
             ("sub", Dir None [("c.c", Reg)])])])].

(** ["/r"] holds the directory [a/b] with the file [c], and [x/y.txt]. *)
Definition fs_ab : node :=
  Dir None
    [("r",
      Dir None
        [("a", Dir None [("b", Dir None [("c", Reg)])]);
         ("x", Dir None [("y.txt", Reg)])])].

(** ["/top"] holds a file, a link, a device, and two directories, one
    of which cannot be listed. *)
Definition dir_top : node :=
  Dir None
    [("f", Reg); ("l", Lnk "f"); ("tty", Chr);
     ("d", Dir None [("g", Reg); (".git", Dir None [("h", Reg)])]);
     ("locked", Dir (Some PermissionError) [("secret", Reg)])].

Definition fs_mixed : node := Dir None [("top", dir_top)].

(** An operating system given by tables: [src/real/f.c] is a regular
    file and [src/link] a symbolic link to [src/real]; the pattern
    expands to the file, the link, and the file seen through the link. *)
Definition os_link : OS := {|
  listdir := fun _ => Raise FileNotFoundError;
  lstat := fun path =>
    if String.eqb path "/r/src/real/f.c" then Ok (Z.lor S_IFREG 420)
    else if String.eqb path "/r/src/link" then Ok (Z.lor S_IFLNK 511)
    else if String.eqb path "/r/src/link/f.c" then Ok (Z.lor S_IFREG 420)
    else if String.eqb path "/r/src/real" then Ok (Z.lor S_IFDIR 493)
    else Raise FileNotFoundError;
  isdir := fun path => String.eqb path "/r/src/real" || String.eqb path "/r/src/link";
  glob := fun pattern =>
    if String.eqb pattern "/r/src/**"
    then ["/r/src/real"; "/r/src/real/f.c"; "/r/src/link"; "/r/src/link/f.c"]
    else [];
  realpath := fun path => path;
  abspath := fun path => path;
  relpath := tree_relpath
|}.
End Fixtures.

(** ** More of Python's [str] *)

Module PyStr.

(** [sub in s] for two strings. *)
Fixpoint str_contains (sub s : string) : bool :=
  match s with
  | EmptyString => String.prefix sub s
  | String _ s' => String.prefix sub s || str_contains sub s'
  end.

(** [s.endswith(suffix)] *)
Definition endswith (s suffix : string) : bool :=
  bool_decide (list_ascii_of_string suffix `suffix_of` list_ascii_of_string s).

(** [s[i:]] *)
Fixpoint slice_from (i : nat) (s : string) : string :=
  match i, s with
  | O, _ => s
  | S i', String _ s' => slice_from i' s'
  | S _, EmptyString => EmptyString
  end.

(** [s.index(sub)]; [None] stands for [ValueError]. *)
Fixpoint str_index (s sub : string) : option nat :=
  match s with
  | EmptyString => if String.prefix sub s then Some O else None
  | String _ s' => if String.prefix sub s then Some O else S <$> str_index s' sub
  end.

(** The line feed ['\n'] *)
Definition LF : string := String "010"%char EmptyString.

End PyStr.
Export PyStr.

(** ** find_unique_paths with any container as [exclude_file_names]

    [is_excluded] evaluates [file_name in exclude_file_names]; the
    parameter is a list by default, and [no-first-comment-difftool.py]
    passes the string ['.git/'], for which [in] is the substring test. *)

Inductive exclude_arg : Type :=
| ExcludeList (l : list string)
| ExcludeStr (s : string).

Module AnyExclude.
Section find_unique_paths.
Context (os : OS) (real_dir : string) (exclude_file_names : exclude_arg).

Definition is_excluded (file_name : string) : bool :=
  match exclude_file_names with
  | ExcludeList l => in_list file_name l
  | ExcludeStr s => str_contains file_name s
  end.

Fixpoint make_infos (dir_path : string) (file_names : list string)
  : res (list file_info) :=
  match file_names with
  | [] => Ok []
  | f :: rest =>
      if is_excluded f then make_infos dir_path rest
      else
        info ← make_info os real_dir dir_path f;
        infos ← make_infos dir_path rest;
        Ok (info :: infos)
  end.

Fixpoint scan_path (fuel : nat) (dir_path : string) (paths : list string)
  : option (res (list string)) :=
  match fuel with
  | O => None
  | S fuel' =>
      match listdir os (real_dir +:+ "/" +:+ dir_path) with
      | Raise e => Some (Raise e)
      | Ok names =>
          let file_names := sorted names in
          match make_infos dir_path file_names with
          | Raise e => Some (Raise e)
          | Ok file_infos =>
              match scan_dirs (scan_path fuel') file_infos paths with
              | Some (Ok paths') => Some (Ok (append_files file_infos paths'))
              | other => other
              end
          end
      end
  end.
End find_unique_paths.

Definition find_unique_paths (os : OS) (fuel : nat) (root_dir : string)
    (exclude_file_names : exclude_arg) : option (res (list string)) :=
  let real_dir := realpath os root_dir in
  scan_path os real_dir exclude_file_names fuel "." [].
End AnyExclude.

(** The strings that occur in [s]: the prefixes of its suffixes. *)
Fixpoint prefixes_of (s : string) : list string :=
  match s with
  | EmptyString => [EmptyString]
  | String c s' => EmptyString :: map (String c) (prefixes_of s')
  end.

Fixpoint substrings (s : string) : list string :=
  match s with
  | EmptyString => [EmptyString]
  | String _ s' => (prefixes_of s ++ substrings s')%list
  end.

(** The argument [convert_all] passes. *)
Definition convert_all_exclude : exclude_arg := ExcludeStr ".git/".

(** ** no-first-comment-difftool.py: the first comment of a file

    An open text file is the list of the lines still to be read, each
    with its line break; a character is a code point below 256.  The
    output file is the list of the strings written to it.  In the
    functions of the module itself the file decodes, so no
    [UnicodeDecodeError] is raised; the module [Decoding] inside it
    has them for a file that does not. *)

Module difftool.

(** [c.isspace()] *)
Definition isspace (c : ascii) : bool :=
  let n := nat_of_ascii c in
  ((9 <=? n)%nat && (n <=? 13)%nat) || ((28 <=? n)%nat && (n <=? 32)%nat)
  || (n =? 133)%nat || (n =? 160)%nat.

Fixpoint lstrip (s : string) : string :=
  match s with
  | EmptyString => EmptyString
  | String c s' => if isspace c then lstrip s' else s
  end.

Definition rstrip (s : string) : string := String.rev (lstrip (String.rev s)).

(** [s.strip()] *)
Definition strip (s : string) : string := rstrip (lstrip s).

Fixpoint detect_comment_mode (input_file : list string) : Z :=
  match input_file with
  | [] => 0
  | line :: rest =>
      let line := strip line in
      let l := String.length line in
      if (l =? 0)%nat then detect_comment_mode rest
      else if startswith line "#" then 1
      else if startswith line "//" then 2
      else if startswith line "/*" then 3
      else 0
  end.

(** The loop of [detect_oneline_comment_n], from the state [n], [lb],
    [lbn]. *)
Fixpoint oneline_loop (prefix : string) (max_line_breaks : nat)
    (input_file : list string) (n lb lbn : nat) : nat :=
  match input_file with
  | [] => n
  | line :: rest =>
      let line := strip line in
      if (String.length line =? 0)%nat then
        if (lbn =? 0)%nat then
          if (lb =? max_line_breaks)%nat then n
          else oneline_loop prefix max_line_breaks rest n (lb + 1) (lbn + 1)
        else oneline_loop prefix max_line_breaks rest n lb (lbn + 1)
      else
        if negb (startswith line prefix) then n
        else oneline_loop prefix max_line_breaks rest (n + lbn + 1) lb 0
  end.

Definition detect_oneline_comment_n (input_file : list string) (prefix : string)
    (max_line_breaks : nat) : nat :=
  oneline_loop prefix max_line_breaks input_file 0 0 0.

Definition detect_shell_comment_n (input_file : list string) : nat :=
  detect_oneline_comment_n input_file "#" 1.

Definition detect_oneline_c_comment_n (input_file : list string) : nat :=
  detect_oneline_comment_n input_file "//" 1.

(** [find_begin] and [find_end]; [None] stands for [AttributeError]. *)
Definition find_begin (line : string) : option bool :=
  match str_index line "/*" with
  | Some pos => if negb (pos =? 0)%nat then None else Some true
  | None => Some false
  end.

Definition find_end (line : string) : option bool :=
  match str_index line "*/" with
  | Some pos => if negb (pos =? String.length line - 2)%nat then None else Some true
  | None => Some false
  end.

(** The loop of [detect_multiline_c_comment_n]: [n], [has_begin] and
    [has_end] when it is left, or [None] for [AttributeError]. *)
Fixpoint multiline_loop (input_file : list string) (n : nat) (has_begin : bool)
  : option (nat * bool * bool) :=
  match input_file with
  | [] => Some (n, has_begin, false)
  | line :: rest =>
      let line := strip line in
      if has_begin then
        match find_end line with
        | None => None
        | Some false => multiline_loop rest (n + 1) true
        | Some true => Some ((n + 1)%nat, true, true)
        end
      else if (String.length line =? 0)%nat then multiline_loop rest (n + 1) false
      else
        match find_begin line with
        | None => None
        | Some false => Some (n, false, false)
        | Some true =>
            match find_end (slice_from 2 line) with
            | None => None
            | Some true => Some ((n + 1)%nat, true, true)
            | Some false => multiline_loop rest (n + 1) true
            end
        end
  end.

Definition detect_multiline_c_comment_n (input_file : list string) : nat :=
  match multiline_loop input_file 0 false with
  | None => O
  | Some (n, has_begin, has_end) =>
      if negb has_begin || negb has_end then O else n
  end.

(** [detect_comment_n(path, input_file)] for a file at its start;
    [None] is Python's [None], returned when no [if] applies. *)
Definition detect_comment_n (input_file : list string) : option nat :=
  let mode := detect_comment_mode input_file in
  if mode =? 0 then Some O
  else
    (* input_file.seek(0) *)
    if mode =? 1 then Some (detect_shell_comment_n input_file)
    else if mode =? 2 then Some (detect_oneline_c_comment_n input_file)
    else if mode =? 3 then Some (detect_multiline_c_comment_n input_file)
    else None.

(** The first loop of [remove_file_prefix]: what is left to read. *)
Fixpoint skip_lines (input_file : list string) (i remove_n : nat) : list string :=
  match input_file with
  | [] => []
  | line :: rest =>
      if (i + 1 =? remove_n)%nat then rest else skip_lines rest (i + 1) remove_n
  end.

(** [remove_file_prefix(path, input_file, output_file, remove_n, add_n)]:
    the output file afterwards. *)
Definition remove_file_prefix (input_file output_file : list string)
    (remove_n add_n : nat) : list string :=
  let input_file :=
    if negb (remove_n =? 0)%nat then skip_lines input_file 0 remove_n
    else input_file in
  let output_file := (output_file ++ replicate add_n LF)%list in
  (output_file ++ input_file)%list.


(** A line that is empty when stripped; a line of a one-line comment. *)
Definition is_blank (line : string) : bool :=
  (String.length (strip line) =? 0)%nat.

Definition is_comment (prefix line : string) : bool :=
  negb (is_blank line) && startswith (strip line) prefix.

(** The number of runs of blank lines; [prev_blank] tells whether the
    line before the first one was blank. *)
Fixpoint blank_runs (prev_blank : bool) (lines : list string) : nat :=
  match lines with
  | [] => O
  | line :: rest =>
      if is_blank line
      then ((if prev_blank then 0 else 1) + blank_runs true rest)%nat
      else blank_runs false rest
  end.

(** Whether the last line of [pre] is blank; [b] when there is none. *)
Definition ends_blank (b : bool) (pre : list string) : bool :=
  match last pre with
  | Some line => is_blank line
  | None => b
  end.

(** What holds of the lines [pre] read so far and the counters. *)
Definition oneline_inv (prefix : string) (max_line_breaks : nat)
    (pre : list string) (n lb lbn : nat) : Prop :=
  length pre = (n + lbn)%nat
  /\ Forall (fun line => is_blank line = true \/ is_comment prefix line = true) pre
  /\ (n = O \/ exists line, pre !! (n - 1)%nat = Some line
                            /\ is_comment prefix line = true)
  /\ blank_runs false pre = lb
  /\ (lb <= max_line_breaks)%nat
  /\ ends_blank false pre = negb (lbn =? 0)%nat.

(** The loop is left at the end of the file and at a line that is
    neither blank nor a comment. *)
Definition stops (prefix : string) (rest : list string) : Prop :=
  match rest with
  | [] => True
  | line :: _ => is_blank line = false /\ is_comment prefix line = false
  end.

(** *** Files that do not decode

    The functions once more, for a file whose bytes may not decode to
    the end: reading it gives the lines [input_file] and then, when
    [undecodable] is set, raises [UnicodeDecodeError] instead of ending.
    Every pass over the file from its start meets the same lines and
    the same error.  What the handlers print is left out. *)

Module Decoding.

(** The result of a call that [UnicodeDecodeError] may leave. *)
Inductive raised (A : Type) : Type :=
| Returns (a : A)
| UnicodeDecodeError.
Arguments Returns {A} a.
Arguments UnicodeDecodeError {A}.

Fixpoint detect_comment_mode (input_file : list string) (undecodable : bool) : Z :=
  match input_file with
  | [] => if undecodable then 0 (* except UnicodeDecodeError *) else 0
  | line :: rest =>
      let line := strip line in
      let l := String.length line in
      if (l =? 0)%nat then detect_comment_mode rest undecodable
      else if startswith line "#" then 1
      else if startswith line "//" then 2
      else if startswith line "/*" then 3
      else 0
  end.

Fixpoint oneline_loop (prefix : string) (max_line_breaks : nat)
    (input_file : list string) (undecodable : bool) (n lb lbn : nat)
  : raised nat :=
  match input_file with
  | [] => if undecodable then UnicodeDecodeError else Returns n
  | line :: rest =>
      let line := strip line in
      if (String.length line =? 0)%nat then
        if (lbn =? 0)%nat then
          if (lb =? max_line_breaks)%nat then Returns n
          else oneline_loop prefix max_line_breaks rest undecodable
                 n (lb + 1) (lbn + 1)
        else oneline_loop prefix max_line_breaks rest undecodable n lb (lbn + 1)
      else
        if negb (startswith line prefix) then Returns n
        else oneline_loop prefix max_line_breaks rest undecodable
               (n + lbn + 1) lb 0
  end.

Definition detect_oneline_comment_n (input_file : list string)
    (undecodable : bool) (prefix : string) (max_line_breaks : nat)
  : raised nat :=
  oneline_loop prefix max_line_breaks input_file undecodable 0 0 0.

Definition detect_shell_comment_n (input_file : list string)
    (undecodable : bool) : raised nat :=
  detect_oneline_comment_n input_file undecodable "#" 1.

Definition detect_oneline_c_comment_n (input_file : list string)
    (undecodable : bool) : raised nat :=
  detect_oneline_comment_n input_file undecodable "//" 1.

(** The loop of [detect_multiline_c_comment_n]; [Returns None] stands
    for [AttributeError]. *)
Fixpoint multiline_loop (input_file : list string) (undecodable : bool)
    (n : nat) (has_begin : bool) : raised (option (nat * bool * bool)) :=
  match input_file with
  | [] =>
      if undecodable then UnicodeDecodeError
      else Returns (Some (n, has_begin, false))
  | line :: rest =>
      let line := strip line in
      if has_begin then
        match find_end line with
        | None => Returns None
        | Some false => multiline_loop rest undecodable (n + 1) true
        | Some true => Returns (Some ((n + 1)%nat, true, true))
        end
      else if (String.length line =? 0)%nat
      then multiline_loop rest undecodable (n + 1) false
      else
        match find_begin line with
        | None => Returns None
        | Some false => Returns (Some (n, false, false))
        | Some true =>
            match find_end (slice_from 2 line) with
            | None => Returns None
            | Some true => Returns (Some ((n + 1)%nat, true, true))
            | Some false => multiline_loop rest undecodable (n + 1) true
            end
        end
  end.

(** [except AttributeError: return 0]; [UnicodeDecodeError] is no
    [AttributeError] and leaves the function. *)
Definition detect_multiline_c_comment_n (input_file : list string)
    (undecodable : bool) : raised nat :=
  match multiline_loop input_file undecodable 0 false with
  | UnicodeDecodeError => UnicodeDecodeError
  | Returns None => Returns O
  | Returns (Some (n, has_begin, has_end)) =>
      if negb has_begin || negb has_end then Returns O else Returns n
  end.

(** [detect_comment_n(path, input_file)] for a file at its start;
    [Returns None] is Python's [None]. *)
Definition detect_comment_n (input_file : list string) (undecodable : bool)
  : raised (option nat) :=
  let mode := detect_comment_mode input_file undecodable in
  if mode =? 0 then Returns (Some O)
  else
    (* input_file.seek(0) *)
    let some (r : raised nat) : raised (option nat) :=
      match r with
      | Returns n => Returns (Some n)
      | UnicodeDecodeError => UnicodeDecodeError
      end in
    if mode =? 1 then some (detect_shell_comment_n input_file undecodable)
    else if mode =? 2 then some (detect_oneline_c_comment_n input_file undecodable)
    else if mode =? 3 then some (detect_multiline_c_comment_n input_file undecodable)
    else Returns None.

(** The first loop of [remove_file_prefix]: what is left to read. *)
Fixpoint skip_lines (input_file : list string) (undecodable : bool)
    (i remove_n : nat) : raised (list string) :=
  match input_file with
  | [] => if undecodable then UnicodeDecodeError else Returns []
  | line :: rest =>
      if (i + 1 =? remove_n)%nat then Returns rest
      else skip_lines rest undecodable (i + 1) remove_n
  end.

(** [remove_file_prefix]: the output file afterwards.  The second loop
    reads to the end of the file; its handler raises the error again. *)
Definition remove_file_prefix (input_file : list string) (undecodable : bool)
    (output_file : list string) (remove_n add_n : nat) : raised (list string) :=
  match (if negb (remove_n =? 0)%nat
         then skip_lines input_file undecodable 0 remove_n
         else Returns input_file) with
  | UnicodeDecodeError => UnicodeDecodeError
  | Returns input_file =>
      let output_file := (output_file ++ replicate add_n LF)%list in
      if undecodable then UnicodeDecodeError
      else Returns (output_file ++ input_file)%list
  end.



End Decoding.

End difftool.

(** ** cleanup-sources.py

    The class [PathMatcher] of this script, the line and permission
    repairs of [--eol] and [--exe]. *)

Module cleanup_sources.

Record PathMatcher : Type := {
  abs_path : string;
  project_root : string;
  prefixes : list string;
  files : list string
}.

Section PathMatcher.
Context (os : OS).

(** [for path in paths: ...] *)
Fixpoint paths_loop (project_root : string) (paths : list string)
    (prefixes files : list string) : list string * list string :=
  match paths with
  | [] => (prefixes, files)
  | path :: rest =>
      if endswith path "/" then
        paths_loop project_root rest (prefixes ++ [path]) files
      else if contains_char "*" path then
        let wild_files := glob os (project_root +:+ "/" +:+ path) in
        paths_loop project_root rest prefixes
          (files ++ map (fun i => relpath os i project_root) wild_files)
      else paths_loop project_root rest prefixes (files ++ [path])
  end.

(** [PathMatcher.__init__(self, abs_path, project_root, paths)] *)
Definition PathMatcher_init (abs_path project_root : string)
    (paths : subpaths_arg) : PathMatcher :=
  let paths :=
    match paths with
    | SubNone => []
    | SubStr s => [s]
    | SubList l => l
    end in
  let '(prefixes, files) := paths_loop project_root paths [] [] in
  {| abs_path := abs_path; project_root := project_root;
     prefixes := prefixes; files := files |}.

(** [PathMatcher.matches(self, path)] *)
Definition matches (self : PathMatcher) (path : string) : bool :=
  let apath := abs_path self +:+ "/" +:+ path in
  let project_path := relpath os apath (project_root self) in
  if matches_prefixes (prefixes self) project_path then true
  else in_list project_path (files self).
End PathMatcher.

(** *** [fix_eol] *)

(** The string [' \t\n\r\x0b'] *)
Definition eol_spaces : string :=
  String "032"%char (String "009"%char (String "010"%char
    (String "013"%char (String "011"%char EmptyString)))).

(** The [while] loop of [fix_line], on the characters of the line read
    from its end: [line[-1:]] is the first of them and [line[:-1]] the
    others. *)
Fixpoint drop_eol_spaces (rev_line : list ascii) : list ascii :=
  match rev_line with
  | [] => []
  | last_char :: rest =>
      if negb (contains_char last_char eol_spaces) then rev_line
      else drop_eol_spaces rest
  end.

Definition fix_line (line : string) : string :=
  string_of_list_ascii
    (rev (drop_eol_spaces (rev (list_ascii_of_string line)))) +:+ LF.

(** The loop of [fix_eol] over the lines of the file; [line_fixed] is
    [None] as long as no line was read. *)
Fixpoint fix_eol_loop (f : list string) (lines : list string)
    (line_fixed : option bool) : list string * option bool :=
  match f with
  | [] => (lines, line_fixed)
  | line :: rest =>
      if endswith line LF
      then fix_eol_loop rest (lines ++ [fix_line line]) (Some true)
      else fix_eol_loop rest (lines ++ [line]) (Some false)
  end.

(** The lines [fix_eol] writes back for the lines [f] it read. *)
Definition fix_eol_lines (f : list string) : list string :=
  let '(lines, line_fixed) := fix_eol_loop f [] None in
  match line_fixed with
  | Some false =>
      let last_line := List.last lines "" in
      (removelast lines ++ [fix_line last_line])%list
  | _ => lines
  end.

(** *** The text [fix_eol] reads and writes *)

(** The lines of a text read from a file opened with [newline='']: a
    line ends behind ['\n'], ['\r'] or ['\r\n'], and keeps that end.
    A character is a code point below 256. *)
Fixpoint read_lines (text : string) : list string :=
  match text with
  | EmptyString => []
  | String c rest =>
      if Ascii.eqb c "010" then String c EmptyString :: read_lines rest
      else if Ascii.eqb c "013" then
        match rest with
        | String c' rest' =>
            if Ascii.eqb c' "010"
            then String c (String c' EmptyString) :: read_lines rest'
            else String c EmptyString :: read_lines rest
        | EmptyString => [String c EmptyString]
        end
      else
        match read_lines rest with
        | [] => [String c EmptyString]
        | line :: lines => String c line :: lines
        end
  end.

(** The text [fix_eol] writes, [''.join(lines)], for the text it
    reads; on POSIX, where writing leaves ['\n'] as it is. *)
Definition fix_eol_text (text : string) : string :=
  String.concat "" (fix_eol_lines (read_lines text)).

(** Two lines, the first ended by a carriage return:
    ['a\r'] and [' \n']. *)
Definition text_cr : string :=
  String "a" (String "013" (String " " (String "010" EmptyString))).

(** No line feed and no carriage return. *)
Definition clean (s : string) : Prop :=
  Forall (fun c : ascii => c <> "010"%char /\ c <> "013"%char)
         (list_ascii_of_string s).

(** *** [cleanup_exe] *)

Definition S_IXUSR : Z := 64.
Definition S_IXGRP : Z := 8.
Definition S_IXOTH : Z := 1.

Definition exe_perms : Z := Z.lor (Z.lor S_IXUSR S_IXGRP) S_IXOTH.

(** [has_exe = (exe_perms & st_mode) != 0] *)
Definition has_exe (st_mode : Z) : bool := negb (Z.land exe_perms st_mode =? 0).

(** [new_perms = file_info.st_mode & ~exe_perms] of [fix_exe] *)
Definition new_perms (st_mode : Z) : Z := Z.land st_mode (Z.lnot exe_perms).

End cleanup_sources.

(** ** parse-compiler-arguments.py

    The loop of [main] over the arguments [extra] that [argparse] does
    not know.  [extra[i:]] is the list of the arguments still to be
    read. *)

Module parse_compiler_arguments.

(** The result of a call that may raise [AttributeError]. *)
Inductive result (A : Type) : Type :=
| Done (a : A)
| AttributeError (message : string).
Arguments Done {A} a.
Arguments AttributeError {A} message.

(** The sets and the dictionary the loop fills. *)
Record state : Type := {
  includes : gset string;
  system_includes : gset string;
  defines : gmap string (option string);
  others : gset string
}.

Definition initial : state :=
  {| includes := ∅; system_includes := ∅; defines := ∅; others := ∅ |}.

(** [curdir] as [main] prepares it from [args.curdir]. *)
Definition curdir_of (args_curdir : option string) : option string :=
  match args_curdir with
  | None => None
  | Some curdir =>
      if negb (endswith curdir "/") then Some (curdir +:+ "/") else Some curdir
  end.

Definition opt_infos (e : string) : option nat :=
  if String.eqb e "-o" then Some 1%nat
  else if String.eqb e "-MF" then Some 1%nat
  else None.

(** [get_next()]: the value and the arguments left. *)
Definition get_next (extra : list string) : result (string * list string) :=
  match extra with
  | [] => AttributeError "Not enough arguments"
  | value :: rest => Done (value, rest)
  end.

(** [[get_next() for opt_i in range(k)]] *)
Fixpoint get_nexts (k : nat) (extra : list string)
  : result (list string * list string) :=
  match k with
  | O => Done ([], extra)
  | S k' =>
      match get_next extra with
      | AttributeError m => AttributeError m
      | Done (value, rest) =>
          match get_nexts k' rest with
          | AttributeError m => AttributeError m
          | Done (values, rest') => Done (value :: values, rest')
          end
      end
  end.

Definition rel_include (curdir : option string) (include : string) : string :=
  match curdir with
  | None => include
  | Some curdir =>
      if negb (startswith include curdir) then include
      else slice_from (String.length curdir) include
  end.

(** [define.split('=', maxsplit=1)]: the text before the first [=]
    and, when there is one, the text behind it. *)
Fixpoint split_eq (define : string) : string * option string :=
  match define with
  | EmptyString => (EmptyString, None)
  | String c s =>
      if Ascii.eqb c "=" then (EmptyString, Some s)
      else let '(key, value) := split_eq s in (String c key, value)
  end.

(** One turn of the [while] loop for the argument [e], with [rest] the
    arguments behind it: the arguments left and the new state. *)
Definition step (curdir : option string) (e : string) (rest : list string)
    (st : state) : result (list string * state) :=
  if startswith e "-I" then
    match (if (String.length e =? 2)%nat then get_next rest
           else Done (slice_from 2 e, rest)) with
    | AttributeError m => AttributeError m
    | Done (include, rest') =>
        let include := rel_include curdir include in
        Done (rest', {| includes := {[include]} ∪ includes st;
                        system_includes := system_includes st;
                        defines := defines st; others := others st |})
    end
  else if String.eqb e "-isystem" then
    match get_next rest with
    | AttributeError m => AttributeError m
    | Done (include, rest') =>
        let include := rel_include curdir include in
        Done (rest', {| includes := includes st;
                        system_includes := {[include]} ∪ system_includes st;
                        defines := defines st; others := others st |})
    end
  else if startswith e "-D" then
    match (if (String.length e =? 2)%nat then get_next rest
           else Done (slice_from 2 e, rest)) with
    | AttributeError m => AttributeError m
    | Done (define, rest') =>
        let '(key, value) := split_eq define in
        Done (rest', {| includes := includes st;
                        system_includes := system_includes st;
                        defines := <[key := value]> (defines st);
                        others := others st |})
    end
  else
    match opt_infos e with
    | None =>
        Done (rest, {| includes := includes st;
                       system_includes := system_includes st;
                       defines := defines st;
                       others := {[e]} ∪ others st |})
    | Some opt_info =>
        match get_nexts opt_info rest with
        | AttributeError m => AttributeError m
        | Done (opt_args, rest') =>
            Done (rest', {| includes := includes st;
                            system_includes := system_includes st;
                            defines := defines st;
                            others := {[e +:+ " " +:+ String.concat " " opt_args]}
                                      ∪ others st |})
        end
    end.

(** [while i < len(extra): ...]; [fuel] bounds the number of turns and
    [None] is only returned when it runs out. *)
Fixpoint loop (fuel : nat) (curdir : option string) (extra : list string)
    (st : state) : option (result state) :=
  match fuel with
  | O => None
  | S fuel' =>
      match extra with
      | [] => Some (Done st)
      | e :: rest =>
          match step curdir e rest st with
          | AttributeError m => Some (AttributeError m)
          | Done (rest', st') => loop fuel' curdir rest' st'
          end
      end
  end.

(** The sets and the dictionary [main] prints, or the exception. *)
Definition parse (args_curdir : option string) (extra : list string)
  : option (result state) :=
  loop (S (length extra)) (curdir_of args_curdir) extra initial.

(** The arguments that take the next argument as their value. *)
Definition needs_value (e : string) : bool :=
  in_list e ["-I"; "-isystem"; "-D"; "-o"; "-MF"].

End parse_compiler_arguments.

(** ** More examples *)

Module Examples.
(** An operating system with one directory ["/d"], which lists [names],
    all of them regular files. *)
Definition os_flat (names : list string) : OS := {|
  listdir := fun path =>
    if String.eqb path "/d/." then Ok names else Raise NotADirectoryError;
  lstat := fun _ => Ok (Z.lor S_IFREG 420);
  isdir := fun path => String.eqb path "/d";
  glob := fun _ => [];
  realpath := fun path => path;
  abspath := fun path => path;
  relpath := TreeFS.tree_relpath
|}.

(** A shell script: a shebang line, a comment, an empty line, code. *)
Definition script_sh : list string :=
  ["#!/bin/sh" +:+ LF; "# tool" +:+ LF; LF;
   "echo" +:+ LF].

(** A C file that starts with a comment of two lines. *)
Definition file_c : list string :=
  ["/* a" +:+ LF; " * b */" +:+ LF; "int x;" +:+ LF].
End Examples.

(** ** The operations of a traversal

    The calls of [os.listdir] and [os.stat] a call of [scan_path]
    makes, read off an arbitrary [OS]. *)

Section traversal.
Context (os : OS) (real_dir : string) (E : list string).

(** [descends dir_path d]: [d] is [dir_path] or a directory below it
    that [scan_path(dir_path)] is called on when no operation fails
    before: every step goes to a listed name that is not excluded and
    for which [os.stat] reports a directory. *)
Inductive descends : string -> string -> Prop :=
| descends_here dir_path : descends dir_path dir_path
| descends_child dir_path names f st_mode d :
    listdir os (real_dir +:+ "/" +:+ dir_path) = Ok names ->
    f ∈ names -> f ∉ E ->
    lstat os (real_dir +:+ "/" +:+ TreeFS.child_path dir_path f) = Ok st_mode ->
    S_ISDIR st_mode = true ->
    descends (TreeFS.child_path dir_path f) d ->
    descends dir_path d.

(** An operation of [scan_path(d)] itself fails with [e]: the listing
    of [d], or [os.stat] on a listed name that is not excluded. *)
Definition fails_at (d : string) (e : exn) : Prop :=
  listdir os (real_dir +:+ "/" +:+ d) = Raise e
  \/ exists names f,
       listdir os (real_dir +:+ "/" +:+ d) = Ok names
       /\ f ∈ names /\ (f ∉ E)
       /\ lstat os (real_dir +:+ "/" +:+ TreeFS.child_path d f) = Raise e.

(** The directories below [dir_path] are nested less than [n] deep. *)
Fixpoint depth_below (n : nat) (dir_path : string) : Prop :=
  match n with
  | O => False
  | S n' =>
      forall names f st_mode,
        listdir os (real_dir +:+ "/" +:+ dir_path) = Ok names ->
        f ∈ names -> f ∉ E ->
        lstat os (real_dir +:+ "/" +:+ TreeFS.child_path dir_path f) = Ok st_mode ->
        S_ISDIR st_mode = true ->
        depth_below n' (TreeFS.child_path dir_path f)
  end.
End traversal.

(** ["/d"] is a directory that may be listed but not searched (mode
    [r--]): [os.listdir] gives its names, [os.stat] on any of them
    fails. *)
Definition os_no_search : OS := {|
  listdir := fun path =>
    if String.eqb path "/d/." then Ok ["a"; "b"] else Raise NotADirectoryError;
  lstat := fun _ => Raise PermissionError;
  isdir := fun path => String.eqb path "/d";
  glob := fun _ => [];
  realpath := fun path => path;
  abspath := fun path => path;
  relpath := TreeFS.tree_relpath
|}.

(** ** Files with several names

    [os.stat(path).st_ino] tells which file a path names: two paths
    with the same number are hard links to one file.  The traversal
    never reads it. *)

Section hard_links.
Context (st_ino : string -> Z) (real_dir : string).

(** The paths [p] and [q] below [real_dir] name the same file. *)
Definition same_file (p q : string) : bool :=
  st_ino (real_dir +:+ "/" +:+ p) =? st_ino (real_dir +:+ "/" +:+ q).

(** The entries of [paths] that name the file [p] names. *)
Definition names_of_file (paths : list string) (p : string) : list string :=
  List.filter (same_file p) paths.
End hard_links.

Module MoreFixtures.
Import TreeFS.

(** ["/r"] holds one regular file under the two names [a] and [b]: the
    directory has two entries, and [st_ino_hard] gives both paths the
    number of the one file. *)
Definition dir_hard : node := Dir None [("a", Reg); ("b", Reg)].

Definition fs_hard : node := Dir None [("r", dir_hard)].

Definition st_ino_hard (path : string) : Z :=
  if String.eqb path "/r/a" then 7
  else if String.eqb path "/r/b" then 7
  else if String.eqb path "/r" then 3
  else 2.

(** The numbers of the two files below ["/top"] of [Fixtures.fs_mixed]
    that the traversal returns. *)
Definition st_ino_top (path : string) : Z :=
  if String.eqb path "/top/f" then 11
  else if String.eqb path "/top/d/g" then 12
  else 2.

(** ["/top"] holds the file [g] and the directory [d] with another
    file [g]. *)
Definition dir_gg : node := Dir None [("d", Dir None [("g", Reg)]); ("g", Reg)].

Definition fs_gg : node := Dir None [("top", dir_gg)].
End MoreFixtures.

(** * Properties *)

(** ** File-type bits *)

Section stat_facts.
Import TreeFS.

Lemma S_ISDIR_st_mode_of n : S_ISDIR (st_mode_of n) = is_dir n.
Proof. by destruct n. Qed.

Lemma S_ISREG_st_mode_of n : S_ISREG (st_mode_of n) = is_reg n.
Proof. by destruct n. Qed.

Lemma qualifies_st_mode_of n :
  negb (S_ISLNK (st_mode_of n)) && negb (S_ISCHR (st_mode_of n))
  && negb (S_ISBLK (st_mode_of n)) && S_ISREG (st_mode_of n) = is_reg n.
Proof. by destruct n. Qed.

(** The file-type tests exclude each other: they compare the same
    masked bits with different constants. *)
Lemma S_ISREG_exclusive mode :
  S_ISREG mode = true ->
  S_ISDIR mode = false /\ S_ISLNK mode = false
  /\ S_ISCHR mode = false /\ S_ISBLK mode = false.
Proof.
  unfold S_ISREG, S_ISDIR, S_ISLNK, S_ISCHR, S_ISBLK.
  intros H%Z.eqb_eq. rewrite H. done.
Qed.
End stat_facts.

(** ** Strings and paths *)

Section path_facts.
Import TreeFS.

Lemma app_String c (s t : string) : String c s +:+ t = String c (s +:+ t).
Proof. done. Qed.

Lemma append_assoc (s t u : string) : (s +:+ t) +:+ u = s +:+ t +:+ u.
Proof. induction s as [|c s IH]; [done|]. rewrite !app_String. by f_equal. Qed.

Lemma split_slash_nonempty s : split_slash s <> [].
Proof. destruct s as [|c s]; simpl; [done|]. by repeat case_match. Qed.

Lemma split_slash_app a b :
  split_slash (a +:+ "/" +:+ b) = (split_slash a ++ split_slash b)%list.
Proof.
  induction a as [|c a IH]; [done|].
  rewrite app_String. simpl. rewrite IH.
  destruct (Ascii.eqb c "/"); [done|].
  destruct (split_slash a) eqn:Ha; [by apply split_slash_nonempty in Ha|done].
Qed.

Lemma split_slash_name name :
  contains_char "/" name = false -> split_slash name = [name].
Proof.
  induction name as [|c s IH]; [done|]. simpl.
  destruct (Ascii.eqb c "/"); [done|]. intros H. by rewrite IH.
Qed.

Lemma valid_name_spec name :
  valid_name name = true ->
  name <> "" /\ name <> "." /\ name <> ".." /\ contains_char "/" name = false.
Proof.
  unfold valid_name. rewrite !andb_true_iff, !negb_true_iff, !String.eqb_neq.
  tauto.
Qed.

Lemma lookup_path_app n cs1 cs2 :
  lookup_path n (cs1 ++ cs2) = n' ← lookup_path n cs1; lookup_path n' cs2.
Proof.
  revert n. induction cs1 as [|c cs1 IH]; intros n; [done|]. simpl.
  destruct n; try done.
  destruct (String.eqb c "" || String.eqb c "."); [apply IH|].
  destruct (entry c entries); [apply IH|done].
Qed.

Lemma lookup_path_dot n cs n' :
  lookup_path n (cs ++ ["."]) = Ok n' -> lookup_path n cs = Ok n'.
Proof.
  rewrite lookup_path_app. destruct (lookup_path n cs) as [m|]; [|done].
  simpl. by destruct m.
Qed.

Lemma lookup_path_child n cs err entries name child :
  lookup_path n cs = Ok (Dir err entries) ->
  valid_name name = true ->
  entry name entries = Some child ->
  lookup_path n (cs ++ [name]) = Ok child.
Proof.
  intros Hn (Hne & Hdot & _)%valid_name_spec Hc.
  rewrite lookup_path_app, Hn. simpl.
  apply String.eqb_neq in Hne, Hdot. rewrite Hne, Hdot, Hc. done.
Qed.

(** Looking up the child [name] of the directory found at [dir_path]. *)
Lemma tree_lookup_child fs real_dir dir_path err entries name child :
  tree_lookup fs (real_dir +:+ "/" +:+ dir_path) = Ok (Dir err entries) ->
  valid_name name = true ->
  entry name entries = Some child ->
  tree_lookup fs (real_dir +:+ "/" +:+ child_path dir_path name) = Ok child.
Proof.
  unfold tree_lookup, child_path. intros Hd Hv Hc.
  pose proof (valid_name_spec _ Hv) as (_ & _ & _ & Hs).
  destruct (String.eqb dir_path ".") eqn:Heq.
  - apply String.eqb_eq in Heq. subst dir_path.
    rewrite split_slash_app in Hd. change (split_slash ".") with ["."] in Hd.
    apply lookup_path_dot in Hd.
    rewrite split_slash_app, (split_slash_name _ Hs).
    by eapply lookup_path_child.
  - replace (real_dir +:+ "/" +:+ dir_path +:+ "/" +:+ name)
      with ((real_dir +:+ "/" +:+ dir_path) +:+ "/" +:+ name).
    + rewrite split_slash_app, (split_slash_name _ Hs).
      by eapply lookup_path_child.
    + by rewrite !append_assoc.
Qed.

Lemma assoc_map {A B} (f : A -> B) name (l : list (string * A)) :
  assoc name (map (fun '(k, a) => (k, f a)) l) = f <$> assoc name l.
Proof.
  induction l as [|[k a] l IH]; [done|]. simpl.
  by destruct (String.eqb k name).
Qed.

Lemma assoc_Some_In {A} name (l : list (string * A)) a :
  assoc name l = Some a -> (name, a) ∈ l.
Proof.
  induction l as [|[k b] l IH]; [done|]. simpl.
  destruct (String.eqb k name) eqn:Hk.
  - apply String.eqb_eq in Hk. intros [= ->]. subst. left.
  - intros H. right. by apply IH.
Qed.

Lemma assoc_is_Some {A} name (l : list (string * A)) :
  name ∈ map fst l -> is_Some (assoc name l).
Proof.
  induction l as [|[k b] l IH]; simpl.
  - by intros ?%elem_of_nil.
  - intros [->|H]%elem_of_cons.
    + by rewrite String.eqb_refl.
    + destruct (String.eqb k name); [done|by apply IH].
Qed.

Lemma assoc_NoDup {A} name (l : list (string * A)) a :
  NoDup (map fst l) -> (name, a) ∈ l -> assoc name l = Some a.
Proof.
  induction l as [|[k b] l IH]; simpl.
  - by intros _ ?%elem_of_nil.
  - intros [Hk Hnd]%NoDup_cons [[= -> ->]|H]%elem_of_cons.
    + by rewrite String.eqb_refl.
    + destruct (String.eqb k name) eqn:Heq.
      * apply String.eqb_eq in Heq. subst k. exfalso. apply Hk.
        apply list_elem_of_fmap. by exists (name, a).
      * by apply IH.
Qed.
End path_facts.

(** ** The traversal on a tree *)

Section scan_tree.
Import TreeFS.
Context (fs : node) (real_dir : string) (E : list string).

Local Abbreviation os := (tree_os fs).
Local Abbreviation not_excluded := (fun f => negb (in_list f E)).

Lemma make_info_tree dir_path err entries f child :
  tree_lookup fs (real_dir +:+ "/" +:+ dir_path) = Ok (Dir err entries) ->
  valid_name f = true ->
  entry f entries = Some child ->
  make_info os real_dir dir_path f
  = Ok (f, child_path dir_path f,
        real_dir +:+ "/" +:+ child_path dir_path f, st_mode_of child).
Proof.
  intros Hd Hv Hc. unfold make_info. fold (child_path dir_path f).
  simpl. unfold tree_lstat.
  by rewrite (tree_lookup_child _ _ _ _ _ _ _ Hd Hv Hc).
Qed.

Lemma make_infos_tree dir_path err entries names :
  tree_lookup fs (real_dir +:+ "/" +:+ dir_path) = Ok (Dir err entries) ->
  Forall (fun f => valid_name f = true /\ is_Some (entry f entries)) names ->
  make_infos os real_dir E dir_path names
  = Ok (infos_of real_dir dir_path entries (List.filter not_excluded names)).
Proof.
  intros Hd. induction 1 as [|f names [Hv [child Hc]] _ IH]; [done|].
  simpl. unfold is_excluded. destruct (in_list f E); simpl; [done|].
  rewrite (make_info_tree _ _ _ _ _ Hd Hv Hc), IH. simpl.
  by rewrite Hc.
Qed.

Lemma scan_dirs_tree rec dir_path entries names :
  (forall f err' entries' paths,
      f ∈ names -> entry f entries = Some (Dir err' entries') ->
      rec (child_path dir_path f) paths
      = Some (cl ← walk E (Dir err' entries');
              Ok (paths ++ map (path_of (child_path dir_path f)) cl)%list)) ->
  forall paths,
    scan_dirs rec (infos_of real_dir dir_path entries names) paths
    = Some (subs ← walk_dirs entries
                     (map (fun '(name, child) => (name, walk E child)) entries)
                     names;
            Ok (paths ++ map (path_of dir_path) subs)%list).
Proof.
  induction names as [|f names IH]; intros Hrec paths.
  - simpl. by rewrite app_nil_r.
  - simpl. rewrite assoc_map.
    destruct (entry f entries) as [child|] eqn:Hc; simpl.
    2:{ apply IH. intros. apply Hrec; [by right|done]. }
    rewrite S_ISDIR_st_mode_of.
    destruct child as [| | | | | |err' entries'];
      try (apply IH; intros; apply Hrec; [by right|done]).
    cbn [is_dir].
    rewrite (Hrec f err' entries' paths) by (done || left).
    unfold entry in Hc. rewrite Hc. cbn [fmap option_fmap option_map].
    destruct (walk E (Dir err' entries')) as [cl|e]; [|done].
    cbn [mbind res_bind].
    rewrite IH by (intros; apply Hrec; [by right|done]).
    destruct (walk_dirs _ _ names) as [subs|e]; [|done].
    cbn [mbind res_bind]. do 2 f_equal.
    rewrite map_app, map_map, <- app_assoc. done.
Qed.

Lemma append_files_tree dir_path entries names paths :
  append_files (infos_of real_dir dir_path entries names) paths
  = (paths ++ map (path_of dir_path) (walk_files entries names))%list.
Proof.
  revert paths. induction names as [|f names IH]; intros paths.
  - simpl. by rewrite app_nil_r.
  - unfold walk_files. simpl. fold (walk_files entries names).
    destruct (entry f entries) as [child|] eqn:Hc; simpl; [|apply IH].
    rewrite S_ISDIR_st_mode_of, qualifies_st_mode_of.
    destruct child; simpl; rewrite IH; try done.
    by rewrite <- app_assoc.
Qed.

Lemma wf_Dir err entries :
  wf (Dir err entries) = true ->
  NoDup (map fst entries)
  /\ forall f child, (f, child) ∈ entries -> valid_name f = true /\ wf child = true.
Proof.
  simpl. rewrite !andb_true_iff, bool_decide_eq_true, !forallb_forall.
  intros [[Hv Hnd] Hwf]. split; [done|]. intros f child Hin.
  apply list_elem_of_In in Hin. split.
  - apply (Hv _ Hin).
  - apply (Hwf _ Hin).
Qed.

Lemma height_child err entries f child :
  (f, child) ∈ entries -> (height child < height (Dir err entries))%nat.
Proof.
  simpl. induction entries as [|[k c] entries IH].
  - by intros ?%elem_of_nil.
  - intros [[= <- <-]|Hin]%elem_of_cons; simpl; [lia|].
    specialize (IH Hin). lia.
Qed.

Lemma wf_Dir_intro err entries :
  NoDup (map fst entries) ->
  Forall (fun x => valid_name x.1 = true /\ wf x.2 = true) entries ->
  wf (Dir err entries) = true.
Proof.
  intros Hnd Hall. simpl.
  rewrite !andb_true_iff, bool_decide_eq_true, !forallb_forall.
  rewrite Forall_forall in Hall.
  split_and!; [|done|]; intros [f child] Hin%list_elem_of_In;
    by destruct (Hall _ Hin).
Qed.

Lemma height_le err entries h :
  Forall (fun x => (height x.2 <= h)%nat) entries ->
  (height (Dir err entries) <= S h)%nat.
Proof.
  simpl. induction 1 as [|[f child] entries Hc _ IH]; simpl in *; lia.
Qed.

Lemma sorted_elem_of f (l : list string) : f ∈ sorted l <-> f ∈ l.
Proof. unfold sorted. by rewrite merge_sort_Permutation. Qed.

(** The traversal by path strings computes [walk]: with enough fuel for
    the height of the tree found at [dir_path], [scan_path] ends, and
    with the outcome [walk] gives for that tree. *)
Lemma scan_path_walk fuel : forall dir_path n paths,
  wf n = true ->
  (height n < fuel)%nat ->
  tree_lookup fs (real_dir +:+ "/" +:+ dir_path) = Ok n ->
  scan_path os real_dir E fuel dir_path paths
  = Some (cl ← walk E n; Ok (paths ++ map (path_of dir_path) cl)%list).
Proof.
  induction fuel as [|fuel IH]; intros dir_path n paths Hwf Hh Hn; [lia|].
  simpl. unfold tree_listdir. rewrite Hn. cbn [mbind res_bind].
  destruct n as [| | | | | |[e|] entries]; try done.
  apply wf_Dir in Hwf as [Hnd Hwf].
  rewrite (make_infos_tree _ _ _ _ Hn).
  2:{ apply Forall_forall. intros f Hf.
      apply (proj1 (sorted_elem_of _ _)) in Hf. split.
      - apply list_elem_of_fmap in Hf as [[k c] [-> Hin]].
        by apply (Hwf _ _ Hin).
      - by apply assoc_is_Some. }
  rewrite (scan_dirs_tree (scan_path os real_dir E fuel)).
  2:{ intros f err' entries' paths' _ Hc.
      pose proof (assoc_Some_In _ _ _ Hc) as Hin.
      apply IH.
      - by apply (Hwf _ _ Hin).
      - pose proof (height_child None _ _ _ Hin). lia.
      - eapply tree_lookup_child; [exact Hn| |exact Hc].
        by apply (Hwf _ _ Hin). }
  cbn [walk]. 
  destruct (walk_dirs _ _ _) as [subs|e]; [|done].
  cbn [mbind res_bind]. rewrite append_files_tree.
  by rewrite map_app, app_assoc.
Qed.
End scan_tree.

(** ** The files of a tree *)

Section walk_facts.
Import TreeFS.
Context (E : list string).

Local Abbreviation not_excluded := (fun f => negb (in_list f E)).

Lemma node_ind_entries (P : node -> Prop) :
  P Reg -> (forall t, P (Lnk t)) -> P Chr -> P Blk -> P Fifo -> P Sock ->
  (forall err entries, Forall (fun x => P x.2) entries -> P (Dir err entries)) ->
  forall n, P n.
Proof.
  intros HReg HLnk HChr HBlk HFifo HSock HDir. fix IH 1.
  intros [|t| | | | |err entries];
    [exact HReg|exact (HLnk t)|exact HChr|exact HBlk|exact HFifo|exact HSock|].
  apply HDir. induction entries as [|[k c] entries IHl]; constructor.
  - apply IH.
  - apply IHl.
Qed.

(** The subdirectory part of [walk], name by name. *)
Lemma walk_dirs_Ok entries table names subs :
  walk_dirs entries table names = Ok subs ->
  subs = names ≫= (fun f =>
           match entry f entries, assoc f table with
           | Some (Dir _ _), Some (Ok cl) => map (cons f) cl
           | _, _ => []
           end)
  /\ forall f err' entries' e,
      f ∈ names -> entry f entries = Some (Dir err' entries') ->
      assoc f table <> Some (Raise e).
Proof.
  revert subs. induction names as [|f names IH]; intros subs; simpl.
  - intros [= <-]. split; [done|]. by intros ???? ?%elem_of_nil.
  - destruct (entry f entries) as [child|] eqn:Hc.
    2:{ intros [-> Herr]%IH. split; [done|].
        intros f' ??? [->|?]%elem_of_cons; [congruence|by eapply Herr]. }
    destruct child as [| | | | | |err' entries'];
      try (intros [-> Herr]%IH; split; [done|];
           intros f' ??? [->|?]%elem_of_cons; [congruence|by eapply Herr]).
    destruct (assoc f table) as [[cl|e]|] eqn:Ht; simpl; try done.
    + destruct (walk_dirs entries table names) as [subs'|]; [|done].
      simpl. intros [= <-]. destruct (IH _ eq_refl) as [-> Herr].
      split; [done|].
      intros f' ??? [->|?]%elem_of_cons; [congruence|by eapply Herr].
    + intros [-> Herr]%IH. split; [done|].
      intros f' ??? [->|?]%elem_of_cons; [congruence|by eapply Herr].
Qed.

Lemma walk_dirs_Raise entries table names e :
  walk_dirs entries table names = Raise e ->
  exists f err' entries',
    f ∈ names /\ entry f entries = Some (Dir err' entries')
    /\ assoc f table = Some (Raise e).
Proof.
  induction names as [|f names IH]; simpl; [done|].
  assert (walk_dirs entries table names = Raise e ->
          exists f0 err' entries', f0 ∈ f :: names
            /\ entry f0 entries = Some (Dir err' entries')
            /\ assoc f0 table = Some (Raise e)) as IH'.
  { intros (f0 & err' & entries' & ? & ? & ?)%IH.
    exists f0, err', entries'. split; [by right|done]. }
  destruct (entry f entries) as [child|] eqn:Hc; [|done].
  destruct child as [| | | | | |err' entries']; try done.
  destruct (assoc f table) as [[cl|e']|] eqn:Ht; simpl; try done.
  - destruct (walk_dirs entries table names); [done|].
    simpl. intros [= ->]. by apply IH'.
  - intros [= ->]. exists f, err', entries'. split; [left|done].
Qed.

Lemma elem_of_names f (entries : list (string * node)) :
  (f ∈ List.filter not_excluded (sorted (map fst entries)))
  <-> (f ∉ E) /\ (f ∈ map fst entries).
Proof.
  rewrite list_elem_of_In, filter_In, <- list_elem_of_In, sorted_elem_of.
  unfold in_list. rewrite negb_true_iff, bool_decide_eq_false. tauto.
Qed.

Lemma entry_elem_of f (entries : list (string * node)) child :
  entry f entries = Some child -> f ∈ map fst entries.
Proof.
  intros Hin%assoc_Some_In. apply list_elem_of_fmap. by exists (f, child).
Qed.

Lemma reaches_leaf n cs n' :
  reaches E n cs n' -> is_dir n = false -> cs = [] /\ n' = n.
Proof. by destruct 1. Qed.

(** [walk] lists exactly the regular files that [reaches] finds. *)
Lemma walk_elem_of n : forall cl cs,
  walk E n = Ok cl ->
  cs ∈ cl <-> cs <> [] /\ reaches E n cs Reg.
Proof.
  induction n as [|t| | | | |err entries IH] using node_ind_entries;
    intros cl cs; try done.
  destruct err as [e|]; [done|]. cbn [walk].
  destruct (walk_dirs _ _ _) as [subs|] eqn:Hsubs; [|done].
  cbn [mbind res_bind]. intros [= <-].
  apply walk_dirs_Ok in Hsubs as [-> Hok].
  unfold walk_files. rewrite elem_of_app, !list_elem_of_bind. split.
  - intros [(f & Hcs & (HE & Hf)%elem_of_names)
           |(f & Hcs & (HE & Hf)%elem_of_names)].
    + rewrite assoc_map in Hcs.
      destruct (entry f entries) as [child|] eqn:Hc; [|by apply elem_of_nil in Hcs].
      unfold entry in Hc. rewrite Hc in Hcs. simpl in Hcs.
      destruct child as [| | | | | |err' entries'];
        try by apply elem_of_nil in Hcs.
      destruct (walk E (Dir err' entries')) as [cl'|] eqn:Hw;
        [|by apply elem_of_nil in Hcs].
      apply list_elem_of_fmap in Hcs as (cs' & -> & Hcs').
      split; [done|].
      eapply reaches_step; [done|exact Hc|].
      rewrite Forall_forall in IH.
      apply assoc_Some_In in Hc.
      by apply (IH _ Hc _ _ Hw).
    + destruct (entry f entries) as [child|] eqn:Hc; [|by apply elem_of_nil in Hcs].
      destruct child; try by apply elem_of_nil in Hcs.
      apply list_elem_of_singleton in Hcs as ->. split; [done|].
      eapply reaches_step; [done|exact Hc|constructor].
  - intros [Hne Hr]. inversion Hr as [|? ? f child cs' ? HE Hc Hr']; subst.
    pose proof (entry_elem_of _ _ _ Hc) as Hf.
    destruct child as [| | | | | |err' entries'];
      try (apply reaches_leaf in Hr' as [-> [=]]; done).
    + right. exists f. rewrite Hc. 
      apply reaches_leaf in Hr' as [-> _]; [|done].
      split; [left|by apply elem_of_names].
    + left. exists f. split; [|by apply elem_of_names].
      pose proof (proj2 (elem_of_names f entries) (conj HE Hf)) as Hn.
      specialize (Hok f err' entries').
      rewrite assoc_map in Hok |- *. rewrite Hc. unfold entry in Hc.
      rewrite Hc in Hok |- *. cbn [fmap option_fmap option_map] in Hok |- *.
      destruct (walk E (Dir err' entries')) as [cl'|e] eqn:Hw.
      2:{ by destruct (Hok e Hn Hc). }
      apply list_elem_of_fmap. exists cs'. split; [done|].
      rewrite Forall_forall in IH. apply assoc_Some_In in Hc.
      apply (IH _ Hc _ _ Hw). split; [|done].
      intros ->. by inversion Hr'.
Qed.

Lemma names_NoDup (entries : list (string * node)) :
  NoDup (map fst entries) ->
  NoDup (List.filter not_excluded (sorted (map fst entries))).
Proof.
  intros Hnd. apply NoDup_ListNoDup, List.NoDup_filter, NoDup_ListNoDup.
  unfold sorted. by rewrite merge_sort_Permutation.
Qed.

(** [walk] lists no file twice. *)
Lemma walk_NoDup n : forall cl,
  wf n = true -> walk E n = Ok cl -> NoDup cl.
Proof.
  induction n as [|t| | | | |err entries IH] using node_ind_entries;
    intros cl Hwf; try done.
  destruct err as [e|]; [done|]. cbn [walk].
  destruct (walk_dirs _ _ _) as [subs|] eqn:Hsubs; [|done].
  cbn [mbind res_bind]. intros [= <-].
  apply walk_dirs_Ok in Hsubs as [-> Hok].
  apply wf_Dir in Hwf as [Hnd Hwf].
  pose proof (names_NoDup _ Hnd) as Hnames.
  rewrite Forall_forall in IH.
  unfold walk_files. apply NoDup_app. split_and!.
  - apply NoDup_bind; [| |done].
    + intros f1 f2 cs _ _ H1 H2.
      repeat case_match; try by apply elem_of_nil in H1.
      all: try by apply elem_of_nil in H2.
      apply list_elem_of_fmap in H1 as (? & -> & _).
      apply list_elem_of_fmap in H2 as (? & [= ->] & _). done.
    + intros f _. rewrite assoc_map.
      destruct (entry f entries) as [child|] eqn:Hc; [|constructor].
      unfold entry in Hc. rewrite Hc. cbn [fmap option_fmap option_map].
      destruct child as [| | | | | |err' entries']; try constructor.
      destruct (walk E (Dir err' entries')) as [cl'|] eqn:Hw; [|constructor].
      apply assoc_Some_In in Hc.
      apply (NoDup_fmap_2 (cons f)), (IH _ Hc); [|done].
      by apply (Hwf _ _ Hc).
  - intros cs (f1 & H1 & Hf1)%list_elem_of_bind (f2 & H2 & _)%list_elem_of_bind.
    rewrite assoc_map in H1.
    destruct (entry f1 entries) as [child|] eqn:Hc; [|by apply elem_of_nil in H1].
    unfold entry in Hc. rewrite Hc in H1. cbn [fmap option_fmap option_map] in H1.
    destruct child as [| | | | | |err' entries']; try by apply elem_of_nil in H1.
    destruct (walk E (Dir err' entries')) as [cl'|] eqn:Hw;
      [|by apply elem_of_nil in H1].
    apply list_elem_of_fmap in H1 as (cs' & -> & Hcs').
    apply (walk_elem_of _ _ _ Hw) in Hcs' as [Hne _].
    repeat case_match; try by apply elem_of_nil in H2.
    apply list_elem_of_singleton in H2 as [= -> ->]. done.
  - apply NoDup_bind; [| |done].
    + intros f1 f2 cs _ _ H1 H2.
      repeat case_match; try by apply elem_of_nil in H1.
      all: try by apply elem_of_nil in H2.
      apply list_elem_of_singleton in H1 as ->.
      by apply list_elem_of_singleton in H2 as [= ->].
    + intros f _.
      repeat case_match; (apply NoDup_nil_2 || apply NoDup_singleton).
Qed.

(** A failure of [walk] is the failure of a directory it reaches, or of
    the start itself when that is no directory. *)
Lemma walk_Raise n : forall e,
  walk E n = Raise e ->
  (is_dir n = false /\ e = NotADirectoryError)
  \/ exists cs entries, reaches E n cs (Dir (Some e) entries).
Proof.
  induction n as [|t| | | | |err entries IH] using node_ind_entries;
    intros e; try (intros [= <-]; by left).
  destruct err as [e'|].
  { intros [= <-]. right. exists [], entries. constructor. }
  cbn [walk]. destruct (walk_dirs _ _ _) as [subs|e'] eqn:Hsubs; [done|].
  cbn [mbind res_bind]. intros [= ->]. right.
  apply walk_dirs_Raise in Hsubs as (f & err' & entries' & Hf & Hc & Ht).
  apply elem_of_names in Hf as [HE _].
  rewrite assoc_map in Ht. unfold entry in Hc. rewrite Hc in Ht.
  cbn [fmap option_fmap option_map] in Ht. injection Ht as Hw.
  rewrite Forall_forall in IH.
  destruct (IH _ (assoc_Some_In _ _ _ Hc) _ Hw) as [[[=] _]|(cs & entries'' & Hr)].
  exists (f :: cs), entries''. by eapply reaches_step.
Qed.

(** When [walk] succeeds, no directory it reaches fails. *)
Lemma walk_Ok_no_failure n : forall cl cs e entries',
  walk E n = Ok cl -> reaches E n cs (Dir (Some e) entries') -> False.
Proof.
  induction n as [|t| | | | |err entries IH] using node_ind_entries;
    intros cl cs e entries'; try done.
  destruct err as [e'|]; [done|]. cbn [walk].
  destruct (walk_dirs _ _ _) as [subs|] eqn:Hsubs; [|done].
  intros _ Hr. apply walk_dirs_Ok in Hsubs as [_ Hok].
  inversion Hr as [|? ? f child cs' ? HE Hc Hr']; subst.
  pose proof (entry_elem_of _ _ _ Hc) as Hf.
  pose proof (proj2 (elem_of_names f entries) (conj HE Hf)) as Hn.
  destruct child as [| | | | | |err'' entries''];
    try (apply reaches_leaf in Hr' as [_ [=]]; done).
  specialize (Hok f err'' entries'').
  rewrite assoc_map in Hok. unfold entry in Hc. rewrite Hc in Hok.
  cbn [fmap option_fmap option_map] in Hok.
  destruct (walk E (Dir err'' entries'')) as [cl'|e''] eqn:Hw.
  - rewrite Forall_forall in IH.
    by apply (IH _ (assoc_Some_In _ _ _ Hc) _ _ _ _ Hw Hr').
  - by destruct (Hok e'' Hn Hc).
Qed.
Lemma assoc_Permutation {A} f (l l' : list (string * A)) :
  NoDup (map fst l) -> l ≡ₚ l' -> assoc f l = assoc f l'.
Proof.
  intros Hnd Hp.
  assert (NoDup (map fst l')) as Hnd' by by rewrite <- Hp.
  destruct (assoc f l) as [a|] eqn:Ha.
  - symmetry. apply assoc_NoDup; [done|]. rewrite <- Hp. by apply assoc_Some_In.
  - destruct (assoc f l') as [a'|] eqn:Ha'; [|done].
    apply assoc_Some_In in Ha'. rewrite <- Hp in Ha'.
    by rewrite (assoc_NoDup _ _ _ Hnd Ha') in Ha.
Qed.

Lemma sorted_Permutation (l l' : list string) : l ≡ₚ l' -> sorted l = sorted l'.
Proof.
  intros Hp. unfold sorted.
  apply (Sorted_unique String.le); [apply Sorted_merge_sort, _..|].
  by rewrite !merge_sort_Permutation.
Qed.

Lemma walk_dirs_ext entries1 entries2 table1 table2 names :
  (forall f, entry f entries1 = entry f entries2) ->
  (forall f, assoc f table1 = assoc f table2) ->
  walk_dirs entries1 table1 names = walk_dirs entries2 table2 names.
Proof.
  intros He Ht. induction names as [|f names IH]; [done|]. simpl.
  by rewrite He, Ht, IH.
Qed.

Lemma walk_files_ext entries1 entries2 names :
  (forall f, entry f entries1 = entry f entries2) ->
  walk_files entries1 names = walk_files entries2 names.
Proof.
  intros He. unfold walk_files. apply list_bind_ext; [|done].
  intros f. by rewrite He.
Qed.

(** The order in which a directory lists its entries does not change
    the outcome. *)
Lemma walk_Permutation err entries entries' :
  NoDup (map fst entries) -> entries ≡ₚ entries' ->
  walk E (Dir err entries) = walk E (Dir err entries').
Proof.
  intros Hnd Hp. destruct err as [e|]; [done|]. cbn [walk].
  assert (forall f, entry f entries = entry f entries') as He.
  { intros f. by apply assoc_Permutation. }
  rewrite (sorted_Permutation (map fst entries) (map fst entries'))
    by by rewrite Hp.
  rewrite (walk_files_ext entries entries') by done.
  rewrite (walk_dirs_ext entries entries' _
             (map (fun '(name, child) => (name, walk E child)) entries'));
    [done..|].
  intros f. rewrite !assoc_map. by rewrite (assoc_Permutation f entries entries').
Qed.
End walk_facts.

(** ** The order of the traversal *)

Section scan_order.
Context (os : OS) (real_dir : string) (E : list string).

Local Abbreviation is_dir_info := (fun i : file_info => S_ISDIR (info_mode i)).
Local Abbreviation is_file_info := (fun i : file_info => qualifies (info_mode i)).

Lemma append_files_filter infos paths :
  append_files infos paths
  = (paths ++ map info_path (List.filter is_file_info infos))%list.
Proof.
  revert paths.
  induction infos as [|[[[fname fpath] full] m] infos IH]; intros paths; simpl.
  - by rewrite app_nil_r.
  - unfold qualifies, info_mode. simpl. destruct (S_ISDIR m); simpl; [apply IH|].
    destruct (negb (S_ISLNK m) && negb (S_ISCHR m) && negb (S_ISBLK m)
              && S_ISREG m); simpl; rewrite IH; [|done].
    by rewrite <- app_assoc.
Qed.

Lemma scan_dirs_appends rec infos :
  appends rec -> appends (fun _ => scan_dirs rec infos).
Proof.
  intros Hrec _.
  induction infos as [|[[[fname fpath] full] m] infos IH]; intros paths; simpl.
  - by rewrite app_nil_r.
  - destruct (S_ISDIR m); [|apply IH].
    rewrite (Hrec fpath paths). destruct (rec fpath []) as [[l|e]|]; try done.
    rewrite (IH (paths ++ l)%list), (IH l).
    destruct (scan_dirs rec infos []) as [[l'|e]|]; try done.
    by rewrite app_assoc.
Qed.

Lemma scan_path_appends fuel : appends (scan_path os real_dir E fuel).
Proof.
  induction fuel as [|fuel IH]; intros dir_path paths; [done|]. simpl.
  destruct (listdir os _) as [names|e]; [|done].
  destruct (make_infos _ _ _ _ _) as [infos|e]; [|done].
  rewrite (scan_dirs_appends _ infos IH dir_path paths).
  destruct (scan_dirs _ infos []) as [[l|e]|]; try done.
  rewrite !append_files_filter. simpl. by rewrite app_assoc.
Qed.

Lemma scan_dirs_concat rec infos rs :
  appends rec ->
  Forall2 (fun i r => rec (info_path i) [] = Some (Ok r))
          (List.filter is_dir_info infos) rs ->
  forall paths, scan_dirs rec infos paths = Some (Ok (paths ++ concat rs)%list).
Proof.
  intros Hrec. revert rs.
  induction infos as [|[[[fname fpath] full] m] infos IH]; intros rs; simpl.
  - intros ->%Forall2_nil_inv_l paths. simpl. by rewrite app_nil_r.
  - unfold info_mode. simpl. destruct (S_ISDIR m); [|apply IH].
    intros (r & rs' & Hr & Hrs & ->)%Forall2_cons_inv_l paths.
    rewrite (Hrec fpath paths). unfold info_path in Hr. simpl in Hr. rewrite Hr.
    rewrite (IH _ Hrs). simpl. by rewrite app_assoc.
Qed.

Lemma make_infos_names dir_path names infos :
  make_infos os real_dir E dir_path names = Ok infos ->
  map info_name infos = List.filter (fun f => negb (in_list f E)) names
  /\ Forall (fun i => info_path i
                      = if String.eqb dir_path "." then info_name i
                        else dir_path +:+ "/" +:+ info_name i) infos.
Proof.
  revert infos. induction names as [|f names IH]; intros infos; simpl.
  - by intros [= <-].
  - unfold is_excluded. destruct (in_list f E); simpl; [apply IH|].
    unfold make_info. destruct (lstat os _) as [m|]; [|done].
    cbn [mbind res_bind].
    destruct (make_infos _ _ _ _ names) as [infos'|]; [|done].
    cbn [mbind res_bind]. intros [= <-].
    destruct (IH _ eq_refl) as [Hn Hp]. simpl. split.
    + by rewrite <- Hn.
    + by constructor.
Qed.

Lemma make_infos_Raise dir_path names e :
  make_infos os real_dir E dir_path names = Raise e ->
  exists p, lstat os p = Raise e.
Proof.
  induction names as [|f names IH]; simpl; [done|].
  destruct (is_excluded E f); [done|]. unfold make_info.
  destruct (lstat os _) as [m|e'] eqn:Hm; cbn [mbind res_bind].
  - destruct (make_infos _ _ _ _ names) as [infos|e']; [done|].
    cbn [mbind res_bind]. intros [= ->]. by apply IH.
  - intros [= ->]. by eexists.
Qed.

Lemma scan_dirs_Raise (P : exn -> Prop) rec infos :
  (forall p paths e, rec p paths = Some (Raise e) -> P e) ->
  forall paths e, scan_dirs rec infos paths = Some (Raise e) -> P e.
Proof.
  intros Hrec.
  induction infos as [|[[[fname fpath] full] m] infos IH]; intros paths e; simpl.
  - done.
  - destruct (S_ISDIR m); [|apply IH].
    destruct (rec fpath paths) as [[l|e']|] eqn:Hr; [apply IH| |done].
    intros [= ->]. by eapply Hrec.
Qed.

(** An exception that comes out of [scan_path] was raised by one of its
    calls of [os.listdir] or [os.stat]. *)
Lemma scan_path_Raise fuel : forall dir_path paths e,
  scan_path os real_dir E fuel dir_path paths = Some (Raise e) ->
  exists p, listdir os p = Raise e \/ lstat os p = Raise e.
Proof.
  induction fuel as [|fuel IH]; intros dir_path paths e; [done|]. simpl.
  destruct (listdir os _) as [names|e'] eqn:Hl.
  2:{ intros [= ->]. eexists. by left. }
  destruct (make_infos _ _ _ _ _) as [infos|e'] eqn:Hi.
  2:{ intros [= ->]. apply make_infos_Raise in Hi as [p Hp].
      exists p. by right. }
  destruct (scan_dirs _ infos paths) as [[l|e']|] eqn:Hs; [done| |done].
  intros [= ->]. by eapply (scan_dirs_Raise _ _ _ IH).
Qed.

(** C1. [scan_path] sorts the names of the directory it lists, builds
    its tuples in that order for the names not excluded, first calls
    itself on every directory among them, in that order, and only then
    appends the qualifying files of the directory itself, in that
    order: when the calls on the subdirectories return [rs], the list
    grows by the concatenation of [rs] followed by the directory's own
    files. *)
Theorem scan_path_depth_first_then_local
    fuel dir_path names infos rs paths :
  listdir os (real_dir +:+ "/" +:+ dir_path) = Ok names ->
  make_infos os real_dir E dir_path (sorted names) = Ok infos ->
  Forall2 (fun i r => scan_path os real_dir E fuel (info_path i) [] = Some (Ok r))
          (List.filter is_dir_info infos) rs ->
  Sorted String.le (sorted names)
  /\ sorted names ≡ₚ names
  /\ map info_name infos = List.filter (fun f => negb (in_list f E)) (sorted names)
  /\ scan_path os real_dir E (S fuel) dir_path paths
     = Some (Ok (paths ++ concat rs
                 ++ map info_path (List.filter is_file_info infos))%list).
Proof.
  intros Hl Hi Hrs. split_and!.
  - apply Sorted_merge_sort, _.
  - apply merge_sort_Permutation.
  - by apply (make_infos_names _ _ _ Hi).
  - simpl. rewrite Hl, Hi.
    rewrite (scan_dirs_concat _ _ rs (scan_path_appends fuel) Hrs).
    by rewrite append_files_filter, app_assoc.
Qed.
End scan_order.

(** ** Path strings of the files of a tree *)

Section path_strings.
Import TreeFS.

Lemma startswith_spec s p :
  startswith s p = true <-> exists r, s = p +:+ r.
Proof.
  unfold startswith. revert s. induction p as [|c p IH]; intros s; simpl.
  - split; [by exists s|]. by destruct s.
  - destruct s as [|d s]; simpl.
    + split; [done|]. by intros [r [=]].
    + destruct (ascii_dec c d) as [->|Hne].
      * rewrite IH. split; intros [r Hr]; exists r; [by subst|].
        by injection Hr.
      * split; [done|]. intros [r [= <- _]]. done.
Qed.

Lemma child_path_ne_dot s f :
  s <> "." -> child_path s f <> ".".
Proof.
  unfold child_path. intros Hs. apply String.eqb_neq in Hs. rewrite Hs.
  intros H. apply (f_equal split_slash) in H. rewrite split_slash_app in H.
  destruct (split_slash s) as [|a [|b l]] eqn:Hsp.
  - by apply split_slash_nonempty in Hsp.
  - simpl in H. destruct (split_slash f) eqn:Hf;
      [by apply split_slash_nonempty in Hf|done].
  - done.
Qed.

(** Splitting the path string gives the components back. *)
Lemma split_slash_path_of s cs :
  s <> "." ->
  Forall (fun f => valid_name f = true) cs ->
  split_slash (path_of s cs) = (split_slash s ++ cs)%list.
Proof.
  intros Hs Hcs. revert s Hs.
  induction Hcs as [|f cs Hf _ IH]; intros s Hs; simpl.
  - by rewrite app_nil_r.
  - rewrite IH by by apply child_path_ne_dot.
    unfold child_path. apply String.eqb_neq in Hs. rewrite Hs.
    apply valid_name_spec in Hf as (_ & _ & _ & Hf).
    rewrite split_slash_app, (split_slash_name _ Hf), <- app_assoc. done.
Qed.

Lemma split_slash_path_of_dot f cs :
  Forall (fun f => valid_name f = true) (f :: cs) ->
  split_slash (path_of "." (f :: cs)) = f :: cs.
Proof.
  intros [Hf Hcs]%Forall_cons. simpl. change (child_path "." f) with f.
  pose proof (valid_name_spec _ Hf) as (_ & Hdot & _ & Hs).
  rewrite split_slash_path_of by done. by rewrite (split_slash_name _ Hs).
Qed.

Lemma path_of_dot_inj cs1 cs2 :
  Forall (fun f => valid_name f = true) cs1 ->
  Forall (fun f => valid_name f = true) cs2 ->
  cs1 <> [] -> cs2 <> [] ->
  path_of "." cs1 = path_of "." cs2 -> cs1 = cs2.
Proof.
  intros H1 H2 Hn1 Hn2 Heq. apply (f_equal split_slash) in Heq.
  destruct cs1 as [|f1 cs1], cs2 as [|f2 cs2]; try done.
  by rewrite !split_slash_path_of_dot in Heq.
Qed.

(** The path string of a list of names is the names joined by ["/"]. *)
Lemma path_of_dot_concat f cs :
  Forall (fun f => valid_name f = true) (f :: cs) ->
  path_of "." (f :: cs) = String.concat "/" (f :: cs).
Proof.
  intros [Hf Hcs]%Forall_cons. simpl path_of. change (child_path "." f) with f.
  apply valid_name_spec in Hf as (_ & Hdot & _).
  revert f Hdot. induction Hcs as [|g cs Hg _ IH]; intros f Hdot; [done|].
  simpl path_of. rewrite IH by by apply child_path_ne_dot.
  unfold child_path. apply String.eqb_neq in Hdot. rewrite Hdot.
  change (String.concat "/" (f :: g :: cs))
    with (f +:+ "/" +:+ String.concat "/" (g :: cs)).
  destruct cs; simpl; by rewrite ?append_assoc.
Qed.

Lemma reaches_valid E n cs n' :
  wf n = true -> reaches E n cs n' ->
  Forall (fun f => valid_name f = true /\ f ∉ E) cs /\ wf n' = true.
Proof.
  intros Hwf Hr. induction Hr as [|err entries f child cs n' HE Hc Hr IH];
    [done|].
  apply wf_Dir in Hwf as [_ Hwf].
  destruct (Hwf _ _ (assoc_Some_In _ _ _ Hc)) as [Hv Hwc].
  destruct (IH Hwc) as [Hcs Hn']. split; [|done]. by constructor.
Qed.

Lemma reaches_lookup E n cs n' :
  wf n = true -> reaches E n cs n' -> lookup_path n cs = Ok n'.
Proof.
  intros Hwf Hr. induction Hr as [|err entries f child cs n' HE Hc Hr IH];
    [done|].
  apply wf_Dir in Hwf as [_ Hwf].
  destruct (Hwf _ _ (assoc_Some_In _ _ _ Hc)) as [Hv Hwc].
  apply valid_name_spec in Hv as (Hne & Hdot & _).
  simpl. apply String.eqb_neq in Hne, Hdot. rewrite Hne, Hdot, Hc. by apply IH.
Qed.

Lemma tree_lookup_dot fs p :
  tree_lookup fs (p +:+ "/" +:+ ".")
  = n ← tree_lookup fs p; if is_dir n then Ok n else Raise NotADirectoryError.
Proof.
  unfold tree_lookup. rewrite split_slash_app, lookup_path_app.
  destruct (lookup_path fs (split_slash p)) as [n|]; [|done].
  by destruct n.
Qed.

(** The object a path under the root names. *)
Lemma tree_lookup_path_of fs real_dir E d cs n' :
  tree_lookup fs real_dir = Ok d ->
  wf d = true -> cs <> [] -> reaches E d cs n' ->
  tree_lookup fs (real_dir +:+ "/" +:+ path_of "." cs) = Ok n'.
Proof.
  intros Hd Hwf Hne Hr. unfold tree_lookup in *.
  destruct (reaches_valid _ _ _ _ Hwf Hr) as [Hv _].
  destruct cs as [|f cs]; [done|].
  rewrite split_slash_app, split_slash_path_of_dot.
  - rewrite lookup_path_app, Hd. cbn [mbind res_bind].
    by eapply reaches_lookup.
  - eapply Forall_impl; [exact Hv|]. by intros ? [? _].
Qed.
End path_strings.

(** ** find_unique_paths on a tree *)

Section find_unique_paths_tree.
Import TreeFS.
Context (fs : node) (root_dir : string) (E : list string).

Local Abbreviation os := (tree_os fs).
Local Abbreviation real_dir := (tree_abspath root_dir).

(** A root that cannot be looked up: the error of the lookup comes out. *)
Lemma find_unique_paths_root_error fuel e :
  tree_lookup fs real_dir = Raise e ->
  find_unique_paths os (S fuel) root_dir E = Some (Raise e).
Proof.
  intros He. unfold find_unique_paths. simpl. unfold tree_listdir.
  by rewrite tree_lookup_dot, He.
Qed.

(** With enough fuel for the height of the root, the call ends with
    the outcome of [walk], as path strings. *)
Lemma find_unique_paths_walk fuel d :
  tree_lookup fs real_dir = Ok d ->
  wf d = true ->
  (height d < fuel)%nat ->
  find_unique_paths os fuel root_dir E
  = Some (cl ← walk E d; Ok (map (path_of ".") cl)).
Proof.
  intros Hd Hwf Hh. unfold find_unique_paths. simpl.
  destruct (is_dir d) eqn:Hdir.
  - rewrite (scan_path_walk fs _ E fuel "." d []); [done..|].
    by rewrite tree_lookup_dot, Hd; simpl; rewrite Hdir.
  - destruct fuel as [|fuel]; [lia|]. simpl. unfold tree_listdir.
    rewrite tree_lookup_dot, Hd. simpl. rewrite Hdir. simpl.
    by destruct d.
Qed.

Lemma find_unique_paths_Ok fuel d paths :
  tree_lookup fs real_dir = Ok d ->
  wf d = true ->
  (height d < fuel)%nat ->
  find_unique_paths os fuel root_dir E = Some (Ok paths) ->
  exists cl, walk E d = Ok cl /\ paths = map (path_of ".") cl.
Proof.
  intros Hd Hwf Hh. rewrite (find_unique_paths_walk _ _ Hd Hwf Hh).
  destruct (walk E d) as [cl|]; [|done]. intros [= <-]. by exists cl.
Qed.

Lemma last_elem_of (cs : list string) d : cs <> [] -> List.last cs d ∈ cs.
Proof.
  induction cs as [|c [|c' cs] IH]; [done|left|].
  intros _. right. by apply IH.
Qed.

End find_unique_paths_tree.

(** ** The operations of a traversal on any operating system *)

Section traversal_facts.
Context (os : OS) (real_dir : string) (E : list string).

Lemma make_infos_elem dir_path names infos :
  make_infos os real_dir E dir_path names = Ok infos ->
  forall i, i ∈ infos <->
    exists f st_mode,
      f ∈ names /\ (f ∉ E)
      /\ lstat os (real_dir +:+ "/" +:+ TreeFS.child_path dir_path f) = Ok st_mode
      /\ i = (f, TreeFS.child_path dir_path f,
              real_dir +:+ "/" +:+ TreeFS.child_path dir_path f, st_mode).
Proof.
  revert infos. induction names as [|g names IH]; intros infos; simpl.
  - intros [= <-] i. split; [by intros ?%elem_of_nil|].
    by intros (f & m & ?%elem_of_nil & _).
  - unfold is_excluded, in_list. case_bool_decide as HE; simpl.
    + intros Hi i. rewrite (IH _ Hi). split.
      * intros (f & m & Hf & H). exists f, m. split; [by right|done].
      * intros (f & m & [->|Hf]%elem_of_cons & HfE & H); [done|].
        by exists f, m.
    + unfold make_info. fold (TreeFS.child_path dir_path g).
      destruct (lstat os _) as [m|] eqn:Hm; [|done]. cbn [mbind res_bind].
      destruct (make_infos _ _ _ _ names) as [infos'|]; [|done].
      cbn [mbind res_bind]. intros [= <-] i. rewrite elem_of_cons, (IH _ eq_refl).
      split.
      * intros [->|(f & m' & Hf & H)].
        -- exists g, m. split_and!; [by left|done..].
        -- exists f, m'. split; [by right|done].
      * intros (f & m' & [->|Hf]%elem_of_cons & HfE & Hl & ->).
        -- left. rewrite Hm in Hl. by injection Hl as ->.
        -- right. by exists f, m'.
Qed.

Lemma make_infos_Ok_stat dir_path names infos :
  make_infos os real_dir E dir_path names = Ok infos ->
  forall f, f ∈ names -> f ∉ E ->
    exists st_mode,
      lstat os (real_dir +:+ "/" +:+ TreeFS.child_path dir_path f) = Ok st_mode.
Proof.
  revert infos. induction names as [|g names IH]; intros infos; simpl.
  - by intros _ f ?%elem_of_nil.
  - unfold is_excluded, in_list. case_bool_decide as HE; simpl.
    + intros Hi f [->|Hf]%elem_of_cons HfE; [done|]. by eapply IH.
    + unfold make_info. fold (TreeFS.child_path dir_path g).
      destruct (lstat os _) as [m|] eqn:Hm; [|done]. cbn [mbind res_bind].
      destruct (make_infos _ _ _ _ names) as [infos'|]; [|done].
      intros _ f [->|Hf]%elem_of_cons HfE; [by eexists|]. by eapply IH.
Qed.

Lemma make_infos_Raise_at dir_path names e :
  make_infos os real_dir E dir_path names = Raise e ->
  exists f, f ∈ names /\ (f ∉ E)
            /\ lstat os (real_dir +:+ "/" +:+ TreeFS.child_path dir_path f) = Raise e.
Proof.
  induction names as [|g names IH]; simpl; [done|].
  unfold is_excluded, in_list. case_bool_decide as HE; simpl.
  - intros (f & Hf & H)%IH. exists f. split; [by right|done].
  - unfold make_info. fold (TreeFS.child_path dir_path g).
    destruct (lstat os _) as [m|e'] eqn:Hm; cbn [mbind res_bind].
    + destruct (make_infos _ _ _ _ names) as [infos|e']; [done|].
      cbn [mbind res_bind]. intros [= ->].
      destruct (IH eq_refl) as (f & Hf & H). exists f. split; [by right|done].
    + intros [= ->]. exists g. split_and!; [by left|done..].
Qed.

Lemma scan_dirs_Ok_each rec infos : forall paths l,
  scan_dirs rec infos paths = Some (Ok l) ->
  forall i, i ∈ infos -> S_ISDIR (info_mode i) = true ->
    exists paths' l', rec (info_path i) paths' = Some (Ok l').
Proof.
  induction infos as [|[[[fname fpath] full] m] infos IH]; intros paths l; simpl.
  - by intros _ i ?%elem_of_nil.
  - destruct (S_ISDIR m) eqn:Hm.
    + destruct (rec fpath paths) as [[l'|e']|] eqn:Hr; [|done..].
      intros Hs i [->|Hi]%elem_of_cons Hdir; [by eexists _, _|].
      by eapply IH.
    + intros Hs i [->|Hi]%elem_of_cons Hdir.
      * unfold info_mode in Hdir. simpl in Hdir. congruence.
      * by eapply IH.
Qed.

Lemma scan_dirs_Raise_at rec infos : forall paths e,
  scan_dirs rec infos paths = Some (Raise e) ->
  exists i paths', i ∈ infos /\ S_ISDIR (info_mode i) = true
                   /\ rec (info_path i) paths' = Some (Raise e).
Proof.
  induction infos as [|[[[fname fpath] full] m] infos IH]; intros paths e; simpl.
  - done.
  - destruct (S_ISDIR m) eqn:Hm.
    + destruct (rec fpath paths) as [[l'|e']|] eqn:Hr; [| |done].
      * intros (i & paths' & Hi & H)%IH. exists i, paths'. split; [by right|done].
      * intros [= ->]. eexists (_, _, _, _), paths. split; [by left|]. done.
    + intros (i & paths' & Hi & H)%IH. exists i, paths'. split; [by right|done].
Qed.

Lemma scan_dirs_returns rec infos :
  (forall i, i ∈ infos -> S_ISDIR (info_mode i) = true ->
             forall paths, rec (info_path i) paths <> None) ->
  forall paths, scan_dirs rec infos paths <> None.
Proof.
  induction infos as [|[[[fname fpath] full] m] infos IH]; intros Hrec paths; simpl.
  - done.
  - assert (forall paths, scan_dirs rec infos paths <> None) as IH'.
    { apply IH. intros i Hi. apply Hrec. by right. }
    destruct (S_ISDIR m) eqn:Hm; [|apply IH'].
    pose proof (Hrec (fname, fpath, full, m) ltac:(by left) Hm paths) as Hr.
    unfold info_path in Hr. simpl in Hr.
    destruct (rec fpath paths) as [[l'|e']|]; [apply IH'|done..].
Qed.

(** A call that returns a list met no failing operation. *)
Lemma scan_path_Ok_no_failure dir_path d :
  descends os real_dir E dir_path d ->
  forall fuel paths l e,
    scan_path os real_dir E fuel dir_path paths = Some (Ok l) ->
    ~ fails_at os real_dir E d e.
Proof.
  induction 1 as [dir_path|dir_path names f st_mode d Hl Hf HfE Hst Hdir _ IH];
    intros [|fuel] paths l e; try done; simpl.
  - destruct (listdir os _) as [names|e'] eqn:Hl; [|done].
    destruct (make_infos _ _ _ _ _) as [infos|e'] eqn:Hi; [|done].
    intros _ [Hfail|(names' & f & Hl' & Hf & HfE & Hfail)].
    + by rewrite Hl in Hfail.
    + rewrite Hl in Hl'. injection Hl' as <-.
      apply sorted_elem_of in Hf.
      destruct (make_infos_Ok_stat _ _ _ Hi f Hf HfE) as [m Hm]. congruence.
  - rewrite Hl.
    destruct (make_infos _ _ _ _ _) as [infos|e'] eqn:Hi; [|done].
    destruct (scan_dirs _ infos paths) as [[l'|e']|] eqn:Hs; [|done..].
    intros _.
    assert ((f, TreeFS.child_path dir_path f,
             real_dir +:+ "/" +:+ TreeFS.child_path dir_path f, st_mode) ∈ infos)
      as Hin.
    { apply (make_infos_elem _ _ _ Hi). exists f, st_mode.
      split_and!; [by apply sorted_elem_of|done..]. }
    destruct (scan_dirs_Ok_each _ _ _ _ Hs _ Hin Hdir) as (paths' & l'' & Hrec).
    by eapply IH.
Qed.

(** The exception a call raises is the error of one of its operations. *)
Lemma scan_path_Raise_at fuel : forall dir_path paths e,
  scan_path os real_dir E fuel dir_path paths = Some (Raise e) ->
  exists d, descends os real_dir E dir_path d /\ fails_at os real_dir E d e.
Proof.
  induction fuel as [|fuel IH]; intros dir_path paths e; [done|]. simpl.
  destruct (listdir os _) as [names|e'] eqn:Hl.
  2:{ intros [= ->]. exists dir_path. split; [constructor|by left]. }
  destruct (make_infos _ _ _ _ _) as [infos|e'] eqn:Hi.
  2:{ intros [= ->]. apply make_infos_Raise_at in Hi as (f & Hf & HfE & Hst).
      exists dir_path. split; [constructor|]. right. exists names, f.
      split_and!; [done|by apply sorted_elem_of|done..]. }
  destruct (scan_dirs _ infos paths) as [[l|e']|] eqn:Hs; [done| |done].
  intros [= ->].
  apply scan_dirs_Raise_at in Hs as (i & paths' & Hin & Hdir & Hrec).
  apply (make_infos_elem _ _ _ Hi) in Hin as (f & m & Hf & HfE & Hst & ->).
  apply IH in Hrec as (d & Hd & Hfail). exists d. split; [|done].
  eapply descends_child; [done|by apply sorted_elem_of|done..].
Qed.

(** With fuel for the depth of the directories the call ends. *)
Lemma scan_path_returns fuel : forall dir_path paths,
  depth_below os real_dir E fuel dir_path ->
  scan_path os real_dir E fuel dir_path paths <> None.
Proof.
  induction fuel as [|fuel IH]; intros dir_path paths Hdepth; [done|]. simpl.
  destruct (listdir os _) as [names|e'] eqn:Hl; [|done].
  destruct (make_infos _ _ _ _ _) as [infos|e'] eqn:Hi; [|done].
  assert (scan_dirs (scan_path os real_dir E fuel) infos paths <> None) as Hs.
  { apply scan_dirs_returns. intros i Hin Hdir paths'.
    apply (make_infos_elem _ _ _ Hi) in Hin as (f & m & Hf & HfE & Hst & ->).
    apply IH. eapply (Hdepth names f m); [done|by apply sorted_elem_of|done..]. }
  by destruct (scan_dirs _ infos paths) as [[l|e']|].
Qed.

(** A failing operation makes the call raise. *)
Lemma scan_path_failure_raises fuel dir_path paths d e :
  depth_below os real_dir E fuel dir_path ->
  descends os real_dir E dir_path d ->
  fails_at os real_dir E d e ->
  exists e' d',
    scan_path os real_dir E fuel dir_path paths = Some (Raise e')
    /\ descends os real_dir E dir_path d' /\ fails_at os real_dir E d' e'.
Proof.
  intros Hdepth Hd Hfail.
  pose proof (scan_path_returns fuel dir_path paths Hdepth) as Hret.
  destruct (scan_path os real_dir E fuel dir_path paths) as [[l|e']|] eqn:Hs;
    [|by exists e'; apply scan_path_Raise_at in Hs as (d' & ? & ?); exists d'|done].
  by destruct (scan_path_Ok_no_failure _ _ Hd _ _ _ e Hs).
Qed.

(** The first name, in the order of the loop, whose [os.stat] fails. *)
Lemma make_infos_first_Raise dir_path pre f post e :
  Forall (fun g => g ∈ E
                   \/ exists st_mode,
                        lstat os (real_dir +:+ "/" +:+ TreeFS.child_path dir_path g)
                        = Ok st_mode) pre ->
  f ∉ E ->
  lstat os (real_dir +:+ "/" +:+ TreeFS.child_path dir_path f) = Raise e ->
  make_infos os real_dir E dir_path (pre ++ f :: post) = Raise e.
Proof.
  intros Hpre HfE Hst. induction Hpre as [|g pre Hg _ IH]; simpl.
  - unfold is_excluded, in_list. rewrite bool_decide_eq_false_2 by done.
    unfold make_info. fold (TreeFS.child_path dir_path f). by rewrite Hst.
  - unfold is_excluded, in_list. case_bool_decide as HE; [done|].
    destruct Hg as [?|[m Hm]]; [done|].
    unfold make_info. fold (TreeFS.child_path dir_path g). rewrite Hm.
    cbn [mbind res_bind]. by rewrite IH.
Qed.

Lemma scan_path_stat_Raise fuel dir_path paths names pre f post e :
  listdir os (real_dir +:+ "/" +:+ dir_path) = Ok names ->
  sorted names = (pre ++ f :: post)%list ->
  Forall (fun g => g ∈ E
                   \/ exists st_mode,
                        lstat os (real_dir +:+ "/" +:+ TreeFS.child_path dir_path g)
                        = Ok st_mode) pre ->
  f ∉ E ->
  lstat os (real_dir +:+ "/" +:+ TreeFS.child_path dir_path f) = Raise e ->
  scan_path os real_dir E (S fuel) dir_path paths = Some (Raise e).
Proof.
  intros Hl Hs Hpre HfE Hst. simpl. rewrite Hl, Hs.
  by rewrite (make_infos_first_Raise _ _ _ _ _ Hpre HfE Hst).
Qed.

(** The first operation: a directory that cannot be listed. *)
Lemma scan_path_listdir_Raise fuel dir_path paths e :
  listdir os (real_dir +:+ "/" +:+ dir_path) = Raise e ->
  scan_path os real_dir E (S fuel) dir_path paths = Some (Raise e).
Proof. intros Hl. simpl. by rewrite Hl. Qed.
End traversal_facts.

(** ** What find_unique_paths returns and when it fails *)

Section find_unique_paths_claims.
Import TreeFS.
Context (fs : node) (root_dir : string) (E : list string).

Local Abbreviation os := (tree_os fs).
Local Abbreviation real_dir := (tree_abspath root_dir).

(** The list returned, as the files of the tree. *)
Lemma find_unique_paths_paths fuel d paths :
  tree_lookup fs real_dir = Ok d ->
  wf d = true ->
  (height d < fuel)%nat ->
  find_unique_paths os fuel root_dir E = Some (Ok paths) ->
  NoDup paths
  /\ forall p, p ∈ paths <->
       exists cs, cs <> [] /\ reaches E d cs Reg
                  /\ Forall (fun f => valid_name f = true) cs
                  /\ p = String.concat "/" cs.
Proof.
  intros Hd Hwf Hh Hres.
  destruct (find_unique_paths_Ok _ _ _ _ _ _ Hd Hwf Hh Hres) as (cl & Hw & ->).
  assert (forall cs, cs ∈ cl ->
            cs <> [] /\ reaches E d cs Reg
            /\ Forall (fun f => valid_name f = true) cs) as Hcl.
  { intros cs [Hne Hr]%(walk_elem_of E d cl cs Hw). split_and!; [done..|].
    eapply Forall_impl; [apply (reaches_valid _ _ _ _ Hwf Hr)|]. by intros ? []. }
  split.
  - apply NoDup_fmap_2_strong; [|by eapply walk_NoDup].
    intros cs1 cs2 H1 H2.
    destruct (Hcl _ H1) as (? & _ & ?), (Hcl _ H2) as (? & _ & ?).
    by apply path_of_dot_inj.
  - intros p. rewrite list_elem_of_fmap. split.
    + intros (cs & -> & Hcs). destruct (Hcl _ Hcs) as (Hne & Hr & Hv).
      exists cs. split_and!; [done..|].
      destruct cs as [|f cs]; [done|]. by apply path_of_dot_concat.
    + intros (cs & Hne & Hr & Hv & ->). exists cs. split.
      * destruct cs as [|f cs]; [done|]. by rewrite path_of_dot_concat.
      * by apply (walk_elem_of E d cl cs Hw).
Qed.

Lemma elem_of_List_filter {A} (f : A -> bool) (l : list A) x :
  x ∈ List.filter f l <-> x ∈ l /\ f x = true.
Proof.
  induction l as [|y l IH]; simpl.
  - split; [by intros ?%elem_of_nil|by intros [?%elem_of_nil _]].
  - destruct (f y) eqn:Hy; rewrite ?elem_of_cons, IH.
    + split; [intros [->|[? ?]]; auto|intros [[->|?] ?]; auto].
    + split; [intros [? ?]; auto|intros [[->|?] ?]; [congruence|auto]].
Qed.

Lemma concat_slash_inj cs1 cs2 :
  Forall (fun f => valid_name f = true) cs1 ->
  Forall (fun f => valid_name f = true) cs2 ->
  cs1 <> [] -> cs2 <> [] ->
  String.concat "/" cs1 = String.concat "/" cs2 -> cs1 = cs2.
Proof.
  intros H1 H2 Hn1 Hn2 Heq. apply path_of_dot_inj; [done..|].
  destruct cs1 as [|f1 cs1], cs2 as [|f2 cs2]; try done.
  by rewrite !path_of_dot_concat.
Qed.

Lemma reaches_names_valid d cs n' :
  wf d = true -> reaches E d cs n' -> Forall (fun f => valid_name f = true) cs.
Proof.
  intros Hwf Hr.
  eapply Forall_impl; [apply (reaches_valid _ _ _ _ Hwf Hr)|]. by intros ? [].
Qed.

(** C7, amended. The sequence [find_unique_paths] returns holds no path
    whose base name is excluded and only paths of regular files (no
    link, device or directory), and it holds every path of a regular
    file that leads from the root through names that are not excluded
    and directories that are not links exactly once.  A file is
    returned once for each such path that names it: whatever numbers
    [st_ino] gives to the paths, the entries that name the file of a
    path are the paths with its number, each of them once; so a file
    with a single name below the root is returned exactly once. *)
Theorem find_unique_paths_exactly_the_regular_files fuel d paths :
  tree_lookup fs real_dir = Ok d ->
  wf d = true ->
  (height d < fuel)%nat ->
  find_unique_paths os fuel root_dir E = Some (Ok paths) ->
  (forall p, p ∈ paths ->
     (basename p ∉ E)
     /\ exists st_mode,
         lstat os (real_dir +:+ "/" +:+ p) = Ok st_mode
         /\ S_ISREG st_mode = true /\ S_ISLNK st_mode = false
         /\ S_ISCHR st_mode = false /\ S_ISBLK st_mode = false
         /\ S_ISDIR st_mode = false)
  /\ (forall cs, cs <> [] -> reaches E d cs Reg ->
        count_occ String.string_dec paths (String.concat "/" cs) = 1%nat)
  /\ (forall (st_ino : string -> Z) cs, cs <> [] -> reaches E d cs Reg ->
        NoDup (names_of_file st_ino real_dir paths (String.concat "/" cs))
        /\ (forall q,
              q ∈ names_of_file st_ino real_dir paths (String.concat "/" cs)
              <-> exists cs',
                    cs' <> [] /\ reaches E d cs' Reg
                    /\ q = String.concat "/" cs'
                    /\ same_file st_ino real_dir (String.concat "/" cs) q = true)
        /\ ((forall cs', cs' <> [] -> reaches E d cs' Reg ->
               same_file st_ino real_dir (String.concat "/" cs)
                         (String.concat "/" cs') = true ->
               cs' = cs) ->
            names_of_file st_ino real_dir paths (String.concat "/" cs)
            = [String.concat "/" cs])).
Proof.
  intros Hd Hwf Hh Hres.
  destruct (find_unique_paths_paths _ _ _ Hd Hwf Hh Hres) as [Hnd Hin].
  split_and!.
  - intros p (cs & Hne & Hr & Hv & ->)%Hin. split.
    + unfold basename. destruct cs as [|f cs]; [done|].
      rewrite <- (path_of_dot_concat f cs Hv), split_slash_path_of_dot by done.
      pose proof (proj1 (reaches_valid _ _ _ _ Hwf Hr)) as HE.
      rewrite Forall_forall in HE. by apply HE, last_elem_of.
    + exists (st_mode_of Reg). split; [|done]. simpl. unfold tree_lstat.
      destruct cs as [|f cs]; [done|]. rewrite <- (path_of_dot_concat f cs Hv).
      by rewrite (tree_lookup_path_of _ _ E d (f :: cs) Reg Hd Hwf Hne Hr).
  - intros cs Hne Hr. apply NoDup_count_occ'; [by apply NoDup_ListNoDup|].
    apply list_elem_of_In, Hin. exists cs.
    split_and!; [done..|by eapply reaches_names_valid|done].
  - intros st_ino cs Hne Hr.
    assert (forall q,
              q ∈ names_of_file st_ino real_dir paths (String.concat "/" cs)
              <-> exists cs',
                    cs' <> [] /\ reaches E d cs' Reg
                    /\ q = String.concat "/" cs'
                    /\ same_file st_ino real_dir (String.concat "/" cs) q = true)
      as Hq.
    { intros q. unfold names_of_file. rewrite elem_of_List_filter, Hin. split.
      - intros [(cs' & Hne' & Hr' & _ & ->) Hs]. by exists cs'.
      - intros (cs' & Hne' & Hr' & -> & Hs). split; [|done].
        exists cs'. split_and!; [done..|by eapply reaches_names_valid|done]. }
    assert (NoDup (names_of_file st_ino real_dir paths (String.concat "/" cs)))
      as Hnd'.
    { unfold names_of_file. by apply NoDup_ListNoDup, List.NoDup_filter, NoDup_ListNoDup. }
    split_and!; [done..|].
    intros Hone.
    assert (forall q,
              q ∈ names_of_file st_ino real_dir paths (String.concat "/" cs)
              <-> q = String.concat "/" cs) as Hq'.
    { intros q. rewrite Hq. split.
      - intros (cs' & Hne' & Hr' & -> & Hs). by rewrite (Hone cs' Hne' Hr' Hs).
      - intros ->. exists cs. split_and!; [done..|].
        unfold same_file. apply Z.eqb_refl. }
    destruct (names_of_file st_ino real_dir paths (String.concat "/" cs))
      as [|x [|y l]] eqn:Hl.
    + pose proof (proj2 (Hq' (String.concat "/" cs)) eq_refl) as H0.
      by apply elem_of_nil in H0.
    + f_equal. apply Hq'. by left.
    + pose proof (proj1 (Hq' x) ltac:(by left)) as Hx.
      pose proof (proj1 (Hq' y) ltac:(by right; left)) as Hy. subst.
      apply NoDup_cons in Hnd' as [Hnot _]. destruct Hnot. by left.
Qed.

(** C8. A failing file-system operation ends the call with its error
    and without a list.  On every operating system: an exception that
    comes out of the call is the error, unchanged, of an operation of
    the traversal ([os.listdir] on a directory it reaches, or [os.stat]
    on a listed name that is not excluded); a call that returns a list
    met no failing operation; when the directories are nested less deep
    than the fuel the call ends, and it raises when any operation of
    the traversal fails; a root that cannot be listed gives that very
    error, and so does, in any directory, the first name in sorted
    order whose [os.stat] fails.  On a tree: a root that cannot be
    looked up gives the error of the lookup; a directory of the
    traversal whose listing fails makes the call fail, and every error
    the call fails with is the error of the root or of such a
    directory; when none fails, the call returns a list. *)
Theorem find_unique_paths_error_propagates fuel :
  (forall (os0 : OS) fuel0 root0 e,
      find_unique_paths os0 fuel0 root0 E = Some (Raise e) ->
      exists d, descends os0 (realpath os0 root0) E "." d
                /\ fails_at os0 (realpath os0 root0) E d e)
  /\ (forall (os0 : OS) fuel0 root0 paths,
        find_unique_paths os0 fuel0 root0 E = Some (Ok paths) ->
        forall d e, descends os0 (realpath os0 root0) E "." d ->
                    ~ fails_at os0 (realpath os0 root0) E d e)
  /\ (forall (os0 : OS) fuel0 root0,
        depth_below os0 (realpath os0 root0) E fuel0 "." ->
        find_unique_paths os0 fuel0 root0 E <> None
        /\ forall d e,
             descends os0 (realpath os0 root0) E "." d ->
             fails_at os0 (realpath os0 root0) E d e ->
             exists e' d',
               find_unique_paths os0 fuel0 root0 E = Some (Raise e')
               /\ descends os0 (realpath os0 root0) E "." d'
               /\ fails_at os0 (realpath os0 root0) E d' e')
  /\ (forall (os0 : OS) fuel0 root0 e,
        listdir os0 (realpath os0 root0 +:+ "/" +:+ ".") = Raise e ->
        find_unique_paths os0 (S fuel0) root0 E = Some (Raise e))
  /\ (forall (os0 : OS) fuel0 real0 dir_path paths names pre f post e,
        listdir os0 (real0 +:+ "/" +:+ dir_path) = Ok names ->
        sorted names = (pre ++ f :: post)%list ->
        Forall (fun g =>
                  g ∈ E
                  \/ exists st_mode,
                       lstat os0 (real0 +:+ "/" +:+ child_path dir_path g)
                       = Ok st_mode) pre ->
        f ∉ E ->
        lstat os0 (real0 +:+ "/" +:+ child_path dir_path f) = Raise e ->
        scan_path os0 real0 E (S fuel0) dir_path paths = Some (Raise e))
  /\ (forall e, tree_lookup fs real_dir = Raise e ->
                find_unique_paths os (S fuel) root_dir E = Some (Raise e))
  /\ (forall d, tree_lookup fs real_dir = Ok d ->
        wf d = true -> (height d < fuel)%nat ->
        (forall cs e entries,
            reaches E d cs (Dir (Some e) entries) ->
            exists e' cs' entries',
              find_unique_paths os fuel root_dir E = Some (Raise e')
              /\ reaches E d cs' (Dir (Some e') entries'))
        /\ (forall e,
              find_unique_paths os fuel root_dir E = Some (Raise e) ->
              (is_dir d = false /\ e = NotADirectoryError)
              \/ exists cs entries, reaches E d cs (Dir (Some e) entries))
        /\ (is_dir d = true ->
            (forall cs e entries, ~ reaches E d cs (Dir (Some e) entries)) ->
            exists paths, find_unique_paths os fuel root_dir E = Some (Ok paths))).
Proof.
  split; [intros os0 fuel0 root0 e; apply scan_path_Raise_at|].
  split.
  { intros os0 fuel0 root0 paths Hres d e Hd.
    by eapply scan_path_Ok_no_failure. }
  split.
  { intros os0 fuel0 root0 Hdepth. split; [by apply scan_path_returns|].
    intros d e. by apply scan_path_failure_raises. }
  split; [intros os0 fuel0 root0 e; apply scan_path_listdir_Raise|].
  split; [intros os0 fuel0 real0 dir_path paths names pre f post e;
          apply scan_path_stat_Raise|].
  split; [intros e; apply find_unique_paths_root_error|].
  intros d Hd Hwf Hh. rewrite (find_unique_paths_walk _ _ _ _ _ Hd Hwf Hh).
  split_and!.
  - intros cs e entries Hr. destruct (walk E d) as [cl|e'] eqn:Hw.
    + destruct (walk_Ok_no_failure E _ _ _ _ _ Hw Hr).
    + destruct (walk_Raise E _ _ Hw) as [[Hdir _]|(cs' & entries' & Hr')].
      * apply reaches_leaf in Hr as [_ Heq]; [by subst|done].
      * by exists e', cs', entries'.
  - intros e. destruct (walk E d) as [cl|e'] eqn:Hw; [done|].
    intros [= ->]. by apply walk_Raise.
  - intros Hdir Hnone. destruct (walk E d) as [cl|e'] eqn:Hw; [by eexists|].
    destruct (walk_Raise E _ _ Hw) as [[Hdir' _]|(cs' & entries' & Hr')].
    + congruence.
    + by destruct (Hnone _ _ _ Hr').
Qed.

(** C10. Every path [find_unique_paths] returns is the list of names
    that leads from the root to the file, joined by ["/"], and only
    that list gives it; the paths of all the files are returned, those
    of nested files too, each once; a file of the root itself is
    returned as its bare name; the path joined to the root names the
    file; no returned path starts with ["./"], with ["/"] or with the
    resolved root.  On every operating system [make_info] gives a name
    of the directory ["."] as it is and joins any other directory and
    the name with ["/"], and its [full_path] (the third component of
    the tuple) is that path behind the resolved root. *)
Theorem find_unique_paths_relative_paths fuel d paths :
  tree_lookup fs real_dir = Ok d ->
  wf d = true ->
  (height d < fuel)%nat ->
  find_unique_paths os fuel root_dir E = Some (Ok paths) ->
  (forall f, reaches E d [f] Reg -> f ∈ paths)
  /\ (forall cs, cs <> [] -> reaches E d cs Reg -> String.concat "/" cs ∈ paths)
  /\ NoDup paths
  /\ (forall p, p ∈ paths ->
        (exists cs, cs <> [] /\ reaches E d cs Reg
                    /\ Forall (fun f => valid_name f = true) cs
                    /\ p = String.concat "/" cs
                    /\ tree_lookup fs (real_dir +:+ "/" +:+ p) = Ok Reg
                    /\ forall cs', cs' <> [] -> reaches E d cs' Reg ->
                                   p = String.concat "/" cs' -> cs' = cs)
        /\ startswith p "./" = false
        /\ startswith p "/" = false
        /\ startswith p real_dir = false)
  /\ (forall (os0 : OS) real0 dir_path names infos,
        make_infos os0 real0 E dir_path names = Ok infos ->
        Forall (fun i =>
                  info_path i
                  = (if String.eqb dir_path "." then info_name i
                     else dir_path +:+ "/" +:+ info_name i)
                  /\ i.1.2 = real0 +:+ "/" +:+ info_path i) infos).
Proof.
  intros Hd Hwf Hh Hres.
  destruct (find_unique_paths_paths _ _ _ Hd Hwf Hh Hres) as [Hnd Hin].
  split_and!.
  - intros f Hr. apply Hin. exists [f].
    split_and!; [done..|by eapply reaches_names_valid|done].
  - intros cs Hne Hr. apply Hin. exists cs.
    split_and!; [done..|by eapply reaches_names_valid|done].
  - done.
  - intros p (cs & Hne & Hr & Hv & ->)%Hin.
    destruct cs as [|f cs]; [done|].
    pose proof (split_slash_path_of_dot f cs Hv) as Hsp.
    rewrite (path_of_dot_concat f cs Hv) in Hsp.
    pose proof (Forall_inv Hv) as (Hf0 & Hf1 & _)%valid_name_spec.
    assert (startswith (String.concat "/" (f :: cs)) "/" = false) as Hslash.
    { apply not_true_is_false. intros [r Hr']%startswith_spec.
      rewrite Hr' in Hsp. change ("/" +:+ r) with ("" +:+ "/" +:+ r) in Hsp.
      rewrite split_slash_app in Hsp. by injection Hsp as <-. }
    split_and!.
    + exists (f :: cs). split_and!; [done..| |].
      * rewrite <- (path_of_dot_concat f cs Hv).
        by apply (tree_lookup_path_of _ _ E d (f :: cs) Reg Hd Hwf).
      * intros cs' Hne' Hr' Heq. symmetry.
        apply concat_slash_inj; [done|by eapply reaches_names_valid|done..].
    + apply not_true_is_false. intros [r Hr']%startswith_spec.
      rewrite Hr' in Hsp. change ("./" +:+ r) with ("." +:+ "/" +:+ r) in Hsp.
      rewrite split_slash_app in Hsp. by injection Hsp as <-.
    + done.
    + apply not_true_is_false. intros [r Hr']%startswith_spec.
      apply not_true_iff_false in Hslash. apply Hslash, startswith_spec.
      unfold tree_abspath in Hr'. rewrite append_assoc in Hr'. eauto.
  - intros os0 real0 dir_path names. induction names as [|g names IH];
      intros infos; simpl.
    + intros [= <-]. constructor.
    + unfold is_excluded. destruct (in_list g E); simpl; [apply IH|].
      unfold make_info. destruct (lstat os0 _) as [m|]; [|done].
      cbn [mbind res_bind].
      destruct (make_infos _ _ _ _ names) as [infos'|]; [|done].
      cbn [mbind res_bind]. intros [= <-]. constructor; [done|by apply IH].
Qed.
End find_unique_paths_claims.

(** ** The glob loop of the constructor *)

Section wild_loop_facts.
Context (os : OS).

Lemma is_link_prefixed_spec links wild_file path :
  is_link_prefixed links wild_file path = true
  <-> exists q, q ∈ links /\ startswith wild_file q = true.
Proof.
  unfold is_link_prefixed. rewrite existsb_exists. split.
  - intros (q & Hq%list_elem_of_In%elem_of_elements & Hs). by exists q.
  - intros (q & Hq & Hs). exists q. split; [|done].
    by apply list_elem_of_In, elem_of_elements.
Qed.

Lemma link_before_spec wild_list modes i p :
  link_before wild_list modes i p = true
  <-> exists j q mq, (j < i)%nat /\ wild_list !! j = Some q
                     /\ modes !! j = Some mq
                     /\ S_ISLNK mq = true /\ startswith p q = true.
Proof.
  unfold link_before. rewrite existsb_exists. split.
  - intros ([q mq] & Hin%list_elem_of_In%list_elem_of_lookup & Hb).
    destruct Hin as [j Hj]. apply lookup_take_Some in Hj as [Hj Hlt].
    apply lookup_zip_with_Some in Hj as (q' & mq' & [= <- <-] & Hq & Hm).
    apply andb_true_iff in Hb as [Hl Hs]. by exists j, q, mq.
  - intros (j & q & mq & Hlt & Hq & Hm & Hl & Hs). exists (q, mq). split.
    + apply list_elem_of_In, list_elem_of_lookup. exists j.
      apply lookup_take_Some. split; [|done].
      apply lookup_zip_with_Some. by exists q, mq.
    + by rewrite Hl, Hs.
Qed.

(** One turn of the loop, by what the match is: a link, a regular file
    no remembered link is a prefix of, or anything else. *)
Lemma wild_loop_cons root p l wild_set wild_links out m :
  lstat os p = Ok m ->
  wild_loop os root (p :: l) wild_set wild_links out
  = if S_ISLNK m then
      wild_loop os root l wild_set ({[p]} ∪ wild_links) (out ++ ["link: " +:+ p])
    else if S_ISREG m && negb (is_link_prefixed wild_links p p) then
      wild_loop os root l ({[stored_path os root p]} ∪ wild_set) wild_links
                (out ++ match root with
                        | Some _ => ["add: " +:+ p]
                        | None => []
                        end)
    else wild_loop os root l wild_set wild_links out.
Proof.
  intros Hm. simpl. rewrite Hm.
  unfold S_ISDIR, S_ISLNK, S_ISCHR, S_ISBLK, S_ISREG.
  destruct (S_IFMT m =? S_IFDIR) eqn:Hd.
  { apply Z.eqb_eq in Hd. by rewrite Hd. }
  destruct (S_IFMT m =? S_IFLNK) eqn:Hl; [done|].
  destruct (S_IFMT m =? S_IFCHR) eqn:Hc.
  { apply Z.eqb_eq in Hc. by rewrite Hc. }
  destruct (S_IFMT m =? S_IFBLK) eqn:Hb.
  { apply Z.eqb_eq in Hb. by rewrite Hb. }
  destruct (S_IFMT m =? S_IFREG); simpl; [|done].
  destruct (is_link_prefixed wild_links p p); simpl; [done|].
  destruct root; simpl; [done|]. by rewrite app_nil_r.
Qed.

Lemma S_ISLNK_not_REG m : S_ISLNK m = true -> S_ISREG m = false.
Proof.
  unfold S_ISLNK, S_ISREG. intros H%Z.eqb_eq. by rewrite H.
Qed.

Lemma link_before_middle pre_l pre_m p l m ms wild_links :
  length pre_l = length pre_m ->
  (forall q, q ∈ wild_links
             <-> exists j mq, pre_l !! j = Some q /\ pre_m !! j = Some mq
                              /\ S_ISLNK mq = true) ->
  link_before (pre_l ++ p :: l) (pre_m ++ m :: ms) (length pre_l) p
  = is_link_prefixed wild_links p p.
Proof.
  intros Hlen Hlinks. apply eq_true_iff_eq.
  rewrite link_before_spec, is_link_prefixed_spec. split.
  - intros (j & q & mq & Hlt & Hq & Hmq & Hl & Hs).
    rewrite lookup_app_l in Hq by done.
    rewrite lookup_app_l in Hmq by lia.
    exists q. split; [|done]. apply Hlinks. by exists j, mq.
  - intros (q & (j & mq & Hq & Hmq & Hl)%Hlinks & Hs).
    exists j, q, mq. split_and!; [|by apply lookup_app_l_Some..|done|done].
    by apply lookup_lt_Some in Hq.
Qed.

Lemma links_snoc pre_l pre_m p m (wild_links : gset string) :
  length pre_l = length pre_m ->
  (forall q, q ∈ wild_links
             <-> exists j mq, pre_l !! j = Some q /\ pre_m !! j = Some mq
                              /\ S_ISLNK mq = true) ->
  forall q,
    q ∈ (if S_ISLNK m then {[p]} ∪ wild_links else wild_links)
    <-> exists j mq, (pre_l ++ [p])%list !! j = Some q
                     /\ (pre_m ++ [m])%list !! j = Some mq
                     /\ S_ISLNK mq = true.
Proof.
  intros Hlen Hlinks q. split.
  - intros Hq.
    assert (q ∈ wild_links \/ (S_ISLNK m = true /\ q = p)) as [Hq'|[Hl ->]].
    { destruct (S_ISLNK m); [|by left].
      apply elem_of_union in Hq as [->%elem_of_singleton|?]; [by right|by left]. }
    + apply Hlinks in Hq' as (j & mq & Hj & Hmq & Hlq).
      exists j, mq. split_and!; [by apply lookup_app_l_Some..|done].
    + exists (length pre_l), m.
      split_and!; [|rewrite Hlen|done]; by apply list_lookup_middle.
  - intros (j & mq & Hq & Hmq & Hlq).
    apply lookup_app_Some in Hq as [Hq|[Hge Hq]].
    + assert (q ∈ wild_links) as Hin.
      { apply Hlinks. exists j, mq. split_and!; [done| |done].
        apply lookup_lt_Some in Hq. by rewrite lookup_app_l in Hmq by lia. }
      destruct (S_ISLNK m); [|done]. apply elem_of_union. by right.
    + apply list_lookup_singleton_Some in Hq as [Hj <-].
      assert (j = length pre_l) as -> by lia.
      rewrite Hlen, list_lookup_middle in Hmq by done. injection Hmq as <-.
      rewrite Hlq. apply elem_of_union. left. by apply elem_of_singleton.
Qed.

(** The loop from the middle of the list of matches: [pre_l] are the
    matches already seen, [wild_links] the links among them. *)
Lemma wild_loop_from root rest_l rest_m :
  Forall2 (fun p m => lstat os p = Ok m) rest_l rest_m ->
  forall pre_l pre_m wild_set wild_links out,
    length pre_l = length pre_m ->
    (forall q, q ∈ wild_links
               <-> exists j mq, pre_l !! j = Some q /\ pre_m !! j = Some mq
                                /\ S_ISLNK mq = true) ->
    exists S,
      wild_loop os root rest_l wild_set wild_links out
      = (Ok S, out ++ (seq (length pre_l) (length rest_l)
                       ≫= line_at root (pre_l ++ rest_l) (pre_m ++ rest_m)))%list
      /\ forall x,
          x ∈ S
          <-> x ∈ wild_set
              \/ exists i p, rest_l !! i = Some p
                   /\ survives (pre_l ++ rest_l) (pre_m ++ rest_m)
                               (length pre_l + i) = true
                   /\ x = stored_path os root p.
Proof.
  induction 1 as [|p m l ms Hm Hrest IH];
    intros pre_l pre_m wild_set wild_links out Hlen Hlinks.
  - exists wild_set. simpl. rewrite app_nil_r. split; [done|].
    intros x. split; [by left|]. intros [?|(i & p & Hi & _)]; [done|].
    by rewrite lookup_nil in Hi.
  - rewrite (wild_loop_cons _ _ _ _ _ _ _ Hm).
    pose proof (list_lookup_middle pre_l l p _ eq_refl) as Hp.
    pose proof (list_lookup_middle pre_m ms m _ Hlen) as Hmn.
    pose proof (link_before_middle _ _ p l m ms _ Hlen Hlinks) as Hlb.
    assert (survives (pre_l ++ p :: l) (pre_m ++ m :: ms) (length pre_l)
            = S_ISREG m && negb (is_link_prefixed wild_links p p)) as Hsv.
    { unfold survives. by rewrite Hp, Hmn, Hlb. }
    assert (line_at root (pre_l ++ p :: l) (pre_m ++ m :: ms) (length pre_l)
            = if S_ISLNK m then ["link: " +:+ p]
              else if S_ISREG m && negb (is_link_prefixed wild_links p p)
              then match root with Some _ => ["add: " +:+ p] | None => [] end
              else []) as Hline.
    { unfold line_at. by rewrite Hp, Hmn, Hsv. }
    assert (length (pre_l ++ [p]) = length (pre_m ++ [m])) as Hlen'.
    { rewrite !length_app. simpl. lia. }
    cbn [length seq]. rewrite bind_cons, Hline.
    assert (forall (x : string) (S' set' : gset string),
      (forall x, x ∈ S'
         <-> x ∈ set'
             \/ exists i p', l !! i = Some p'
                  /\ survives (pre_l ++ p :: l) (pre_m ++ m :: ms)
                              (length pre_l + S i) = true
                  /\ x = stored_path os root p') ->
      (x ∈ set' <-> x ∈ wild_set
                    \/ (survives (pre_l ++ p :: l) (pre_m ++ m :: ms)
                                 (length pre_l) = true
                        /\ x = stored_path os root p)) ->
      x ∈ S'
      <-> x ∈ wild_set
          \/ exists i p', (p :: l) !! i = Some p'
               /\ survives (pre_l ++ p :: l) (pre_m ++ m :: ms)
                           (length pre_l + i) = true
               /\ x = stored_path os root p') as Hshift.
    { intros x S' set' HS Hset. rewrite HS, Hset. split.
      - intros [[?|[Hs ->]]|(i & p' & Hi & Hs & ->)].
        + by left.
        + right. exists O, p. by rewrite Nat.add_0_r.
        + right. by exists (S i), p'.
      - intros [?|([|i] & p' & Hi & Hs & ->)].
        + by left; left.
        + simpl in Hi. injection Hi as <-. rewrite Nat.add_0_r in Hs.
          left; right. done.
        + right. by exists i, p'. }
    pose proof (links_snoc pre_l pre_m p m wild_links Hlen Hlinks) as Hlinks'.
    assert (forall (S' set' : gset string) out',
      wild_loop os root l set'
                (if S_ISLNK m then {[p]} ∪ wild_links else wild_links) out'
      = (Ok S', out' ++ (seq (length (pre_l ++ [p])) (length l)
                         ≫= line_at root ((pre_l ++ [p]) ++ l)
                                    ((pre_m ++ [m]) ++ ms)))%list ->
      (forall x, x ∈ S'
         <-> x ∈ set'
             \/ exists i p', l !! i = Some p'
                  /\ survives ((pre_l ++ [p]) ++ l) ((pre_m ++ [m]) ++ ms)
                              (length (pre_l ++ [p]) + i) = true
                  /\ x = stored_path os root p') ->
      wild_loop os root l set'
                (if S_ISLNK m then {[p]} ∪ wild_links else wild_links) out'
      = (Ok S', out' ++ (seq (S (length pre_l)) (length l)
                         ≫= line_at root (pre_l ++ p :: l) (pre_m ++ m :: ms)))%list
      /\ (forall x, x ∈ S'
            <-> x ∈ set'
                \/ exists i p', l !! i = Some p'
                     /\ survives (pre_l ++ p :: l) (pre_m ++ m :: ms)
                                 (length pre_l + S i) = true
                     /\ x = stored_path os root p')) as Hnorm.
    { intros S' set' out'. rewrite <- !app_assoc, length_app. simpl.
      rewrite Nat.add_1_r. intros Hloop HS. split; [done|].
      intros x. rewrite HS.
      by setoid_rewrite <- (Nat.add_succ_comm (length pre_l)). }
    destruct (S_ISLNK m) eqn:Hl.
    + destruct (IH (pre_l ++ [p])%list (pre_m ++ [m])%list wild_set
                   ({[p]} ∪ wild_links) (out ++ ["link: " +:+ p])%list
                   Hlen' Hlinks') as (S' & Hloop & HS).
      destruct (Hnorm _ _ _ Hloop HS) as [Hloop' HS'].
      exists S'. rewrite Hloop', <- app_assoc. split; [done|].
      intros x. apply (Hshift x S' wild_set); [done|].
      rewrite Hsv, (S_ISLNK_not_REG _ Hl). simpl.
split; [by left|]. by intros [?|[? _]].
    + destruct (S_ISREG m && negb (is_link_prefixed wild_links p p)) eqn:Hb.
      * destruct (IH (pre_l ++ [p])%list (pre_m ++ [m])%list
                     ({[stored_path os root p]} ∪ wild_set) wild_links
                     (out ++ match root with
                             | Some _ => ["add: " +:+ p]
                             | None => []
                             end)%list
                     Hlen' Hlinks') as (S' & Hloop & HS).
        destruct (Hnorm _ _ _ Hloop HS) as [Hloop' HS'].
        exists S'. rewrite Hloop', <- app_assoc. split; [done|].
        intros x. apply (Hshift x S' ({[stored_path os root p]} ∪ wild_set));
          [done|].
        rewrite Hsv, elem_of_union, elem_of_singleton.
split; [intros [->|?]; [by right|by left]|].
intros [?|[_ ->]]; [by right|by left].
      * destruct (IH (pre_l ++ [p])%list (pre_m ++ [m])%list wild_set wild_links
                     out Hlen' Hlinks') as (S' & Hloop & HS).
        destruct (Hnorm _ _ _ Hloop HS) as [Hloop' HS'].
        exists S'. rewrite Hloop'. split; [done|].
        intros x. apply (Hshift x S' wild_set); [done|].
        rewrite Hsv. split; [by left|]. by intros [?|[? _]].
Qed.
End wild_loop_facts.

(** ** The constructor of PathMatcher *)

Section PathMatcher_init_facts.
Context (os : OS).

Lemma wild_loop_Ok_modes root l : forall wild_set wild_links out S out',
  wild_loop os root l wild_set wild_links out = (Ok S, out') ->
  exists modes, Forall2 (fun p m => lstat os p = Ok m) l modes.
Proof.
  induction l as [|p l IH]; intros wild_set wild_links out S out' Hloop.
  - by exists [].
  - destruct (lstat os p) as [m|e] eqn:Hm.
    2:{ simpl in Hloop. by rewrite Hm in Hloop. }
    rewrite (wild_loop_cons _ _ _ _ _ _ _ _ Hm) in Hloop.
    assert (exists modes, Forall2 (fun p m => lstat os p = Ok m) l modes)
      as [modes Hmodes].
    { repeat case_match; by eapply IH. }
    exists (m :: modes). by constructor.
Qed.

(** The matches of one pattern: what is stored and what is printed. *)
Lemma wild_loop_spec root l out S out' :
  wild_loop os root l ∅ ∅ out = (Ok S, out') ->
  exists modes,
    Forall2 (fun p m => lstat os p = Ok m) l modes
    /\ out' = (out ++ printed root l modes)%list
    /\ forall x, x ∈ S <-> exists i p, l !! i = Some p
                             /\ survives l modes i = true
                             /\ x = stored_path os root p.
Proof.
  intros Hloop. destruct (wild_loop_Ok_modes _ _ _ _ _ _ _ Hloop) as [modes Hm].
  exists modes. split; [done|].
  destruct (wild_loop_from os root l modes Hm [] [] ∅ ∅ out eq_refl)
    as (S' & Hloop' & HS).
  { intros q. split; [by intros ?%not_elem_of_empty|].
    intros (j & mq & Hj & _). by rewrite lookup_nil in Hj. }
  rewrite Hloop in Hloop'. injection Hloop' as <- ->. split; [done|].
  intros x. rewrite HS. split.
  - intros [?%not_elem_of_empty|?]; done.
  - by right.
Qed.

(** One turn of the loop over the patterns.  Both branches on
    [root_dir] store the pattern as it was given. *)
Lemma subpaths_loop_cons root pat subpaths prefixes0 files_set0 out :
  subpaths_loop os root (pat :: subpaths) prefixes0 files_set0 out
  = if contains_char "*" pat then
      match wild_loop os root (glob os (abs_subpath_of root pat)) ∅ ∅ out with
      | (Raise e, out') => (Raise e, out')
      | (Ok wild_set, out') =>
          subpaths_loop os root subpaths prefixes0 (files_set0 ∪ wild_set) out'
      end
    else if isdir os (abs_subpath_of root pat) then
      subpaths_loop os root subpaths (prefixes0 ++ [pat +:+ "/"]) files_set0 out
    else
      subpaths_loop os root subpaths prefixes0 ({[pat]} ∪ files_set0) out.
Proof. simpl. by destruct root. Qed.

(** The loop over the patterns, for the state it starts from. *)
Lemma subpaths_loop_spec root subpaths :
  forall prefixes0 files_set0 out prefixes1 files_set1 out',
    subpaths_loop os root subpaths prefixes0 files_set0 out
    = (Ok (prefixes1, files_set1), out') ->
    prefixes1
    = (prefixes0 ++ map (fun pat => pat +:+ "/")
                        (List.filter (is_dir_pattern os root) subpaths))%list
    /\ (forall x,
          x ∈ files_set1
          <-> x ∈ files_set0
              \/ (x ∈ subpaths /\ is_exact_pattern os root x = true)
              \/ exists pat modes i p,
                   pat ∈ subpaths /\ is_glob_pattern pat = true
                   /\ Forall2 (fun p m => lstat os p = Ok m)
                              (glob os (abs_subpath_of root pat)) modes
                   /\ glob os (abs_subpath_of root pat) !! i = Some p
                   /\ survives (glob os (abs_subpath_of root pat)) modes i = true
                   /\ x = stored_path os root p)
    /\ exists blocks,
         out' = (out ++ concat blocks)%list
         /\ Forall2 (fun pat block =>
                       exists modes,
                         Forall2 (fun p m => lstat os p = Ok m)
                                 (glob os (abs_subpath_of root pat)) modes
                         /\ block = printed root
                                      (glob os (abs_subpath_of root pat)) modes)
                    (List.filter is_glob_pattern subpaths) blocks.
Proof.
  induction subpaths as [|pat subpaths IH];
    intros prefixes0 files_set0 out prefixes1 files_set1 out'.
  - simpl. intros [= <- <- <-]. rewrite app_nil_r. split_and!; [done| |].
    + intros x. split; [by left|].
      intros [?|[[?%elem_of_nil _]|(? & ? & ? & ? & ?%elem_of_nil & _)]]; done.
    + exists []. simpl. by rewrite app_nil_r.
  - rewrite subpaths_loop_cons.
    unfold is_dir_pattern, is_exact_pattern, is_glob_pattern. cbn [List.filter].
    destruct (contains_char "*" pat) eqn:Hstar; cbn [negb andb].
    + destruct (wild_loop os root _ ∅ ∅ out) as [[wild_set|e] out1] eqn:Hw;
        [|done].
      intros (-> & Hfs & blocks & -> & Hblocks)%IH.
      apply wild_loop_spec in Hw as (modes & Hmodes & -> & Hws).
      split_and!; [done| |].
      * intros x. rewrite Hfs, elem_of_union, Hws. split.
        -- intros [[?|(i & p & Hi & Hs & ->)]|[[Hin He]|Hg]].
           ++ by left.
           ++ right; right. exists pat, modes, i, p. split_and!; [left|done..].
           ++ right; left. split; [by right|done].
           ++ destruct Hg as (pat' & modes' & i & p & Hin & Hg).
              right; right. exists pat', modes', i, p. split; [by right|done].
        -- intros [?|[[Hin He]|(pat' & modes' & i & p & Hin & Hg1 & Hm' & Hi & Hs & ->)]].
           ++ by left; left.
           ++ apply elem_of_cons in Hin as [->|Hin].
              ** unfold is_exact_pattern in He. by rewrite Hstar in He.
              ** right; left. done.
           ++ apply elem_of_cons in Hin as [->|Hin].
              ** left; right. exists i, p. split_and!; [done| |done].
                 assert (modes' = modes) as <-; [|done].
                 clear -Hm' Hmodes. revert modes Hmodes.
                 induction Hm' as [|? ? ? ? H1 _ IH']; intros modes Hmodes.
                 { by apply Forall2_nil_inv_l in Hmodes. }
                 apply Forall2_cons_inv_l in Hmodes as (m2 & ms2 & H2 & ? & ->).
                 f_equal; [congruence|by apply IH'].
              ** right; right. exists pat', modes', i, p. done.
      * exists (printed root (glob os (abs_subpath_of root pat)) modes :: blocks).
        simpl. rewrite app_assoc. split; [done|]. constructor; [|done].
        by exists modes.
    + destruct (isdir os (abs_subpath_of root pat)) eqn:Hdir; cbn [negb andb].
      * intros (-> & Hfs & Hout)%IH. simpl. rewrite <- app_assoc.
        split_and!; [done| |done].
        intros x. rewrite Hfs. split.
        -- intros [?|[[Hin He]|(pat' & modes' & i & p & Hin & Hg)]].
           ++ by left.
           ++ right; left. split; [by right|done].
           ++ right; right. exists pat', modes', i, p. split; [by right|done].
        -- intros [?|[[Hin He]|(pat' & modes' & i & p & Hin & Hg1 & Hg)]].
           ++ by left.
           ++ apply elem_of_cons in Hin as [->|Hin].
              ** unfold is_exact_pattern in He. by rewrite Hstar, Hdir in He.
              ** right; left. done.
           ++ apply elem_of_cons in Hin as [->|Hin].
              ** unfold is_glob_pattern in Hg1. congruence.
              ** right; right. exists pat', modes', i, p. done.
      * intros (-> & Hfs & Hout)%IH. split_and!; [done| |done].
        intros x. rewrite Hfs, elem_of_union, elem_of_singleton. split.
        -- intros [[->|?]|[[Hin He]|(pat' & modes' & i & p & Hin & Hg)]].
           ++ right; left. split; [left|].
              unfold is_exact_pattern. by rewrite Hstar, Hdir.
           ++ by left.
           ++ right; left. split; [by right|done].
           ++ right; right. exists pat', modes', i, p. split; [by right|done].
        -- intros [?|[[Hin He]|(pat' & modes' & i & p & Hin & Hg1 & Hg)]].
           ++ by left; right.
           ++ apply elem_of_cons in Hin as [->|Hin]; [by left; left|].
              right; left. done.
           ++ apply elem_of_cons in Hin as [->|Hin].
              ** unfold is_glob_pattern in Hg1. congruence.
              ** right; right. exists pat', modes', i, p. done.
Qed.

(** What was printed before does not change what the loops do. *)
Lemma wild_loop_out root l : forall wild_set wild_links out,
  wild_loop os root l wild_set wild_links out
  = ((wild_loop os root l wild_set wild_links []).1,
     out ++ (wild_loop os root l wild_set wild_links []).2)%list.
Proof.
  induction l as [|p l IH]; intros wild_set wild_links out.
  - simpl. by rewrite app_nil_r.
  - destruct (lstat os p) as [m|e] eqn:Hm.
    2:{ simpl. rewrite Hm. simpl. by rewrite app_nil_r. }
    rewrite !(wild_loop_cons _ _ _ _ _ _ _ _ Hm), ?app_nil_l.
    destruct (S_ISLNK m).
    { rewrite (IH _ _ (out ++ _)%list), (IH _ _ [_]). cbn [fst snd].
      by rewrite <- app_assoc. }
    destruct (S_ISREG m && negb (is_link_prefixed wild_links p p)); [|apply IH].
    rewrite (IH _ _ (out ++ _)%list).
    rewrite (IH _ _ (match root with Some _ => _ | None => _ end)).
    cbn [fst snd]. by rewrite <- app_assoc.
Qed.

Lemma subpaths_loop_out root subpaths : forall prefixes0 files_set0 out,
  subpaths_loop os root subpaths prefixes0 files_set0 out
  = ((subpaths_loop os root subpaths prefixes0 files_set0 []).1,
     out ++ (subpaths_loop os root subpaths prefixes0 files_set0 []).2)%list.
Proof.
  induction subpaths as [|pat subpaths IH]; intros prefixes0 files_set0 out.
  - simpl. by rewrite app_nil_r.
  - rewrite !subpaths_loop_cons. destruct (contains_char "*" pat).
    + rewrite wild_loop_out.
      destruct (wild_loop os root _ ∅ ∅ []) as [[wild_set|e] out1];
        cbn [fst snd]; rewrite ?app_nil_l; [|done].
      rewrite (IH _ _ (out ++ out1)%list), (IH _ _ out1). cbn [fst snd].
      by rewrite <- app_assoc.
    + destruct (isdir os _); apply IH.
Qed.

Lemma PathMatcher_init_out root subpaths out :
  PathMatcher_init os root subpaths out
  = ((PathMatcher_init os root subpaths []).1,
     out ++ (PathMatcher_init os root subpaths []).2)%list.
Proof.
  unfold PathMatcher_init. rewrite subpaths_loop_out.
  by destruct (subpaths_loop _ _ _ _ _ []) as [[[pfx fs]|e] out1].
Qed.

Lemma PathMatcher_init_Ok root subpaths out m out' :
  PathMatcher_init os root subpaths out = (Ok m, out') ->
  subpaths_loop os (resolved_root os root) (subpaths_list subpaths) [] ∅ out
  = (Ok (prefixes m, files_set m), out')
  /\ files m = elements (files_set m).
Proof.
  unfold PathMatcher_init. fold (resolved_root os root).
  fold (subpaths_list subpaths).
  destruct (subpaths_loop _ _ _ _ _ _) as [[[pfx fs]|e] out1]; [|done].
  by intros [= <- <-].
Qed.

Lemma matches_prefixes_spec pfx path :
  matches_prefixes pfx path = true
  <-> exists prefix, prefix ∈ pfx /\ startswith path prefix = true.
Proof.
  induction pfx as [|q pfx IH]; simpl.
  - split; [done|]. by intros (? & ?%elem_of_nil & _).
  - destruct (startswith path q) eqn:Hq.
    + split; [|done]. intros _. exists q. split; [left|done].
    + rewrite IH. split.
      * intros (prefix & Hin & Hs). exists prefix. split; [by right|done].
      * intros (prefix & [->|Hin]%elem_of_cons & Hs); [congruence|].
        by exists prefix.
Qed.

Lemma matches_true (m : PathMatcher) path :
  matches m path = true
  <-> (exists prefix, prefix ∈ prefixes m /\ startswith path prefix = true)
      \/ path ∈ files m.
Proof.
  unfold matches, in_list. rewrite <- matches_prefixes_spec.
  destruct (matches_prefixes (prefixes m) path).
  - split; [by left|done].
  - rewrite bool_decide_eq_true. split; [by right|]. by intros [?|?].
Qed.
End PathMatcher_init_facts.

(** ** PathMatcher: the claims *)

Section PathMatcher_claims.
Import TreeFS Fixtures.

Lemma survives_spec wild_list modes i :
  survives wild_list modes i = true
  <-> exists p mode,
        wild_list !! i = Some p /\ modes !! i = Some mode
        /\ S_ISREG mode = true /\ S_ISDIR mode = false /\ S_ISLNK mode = false
        /\ S_ISCHR mode = false /\ S_ISBLK mode = false
        /\ forall j q mq,
             (j < i)%nat -> wild_list !! j = Some q -> modes !! j = Some mq ->
             S_ISLNK mq = true -> startswith p q = false.
Proof.
  unfold survives. split.
  - destruct (wild_list !! i) as [p|]; [|done].
    destruct (modes !! i) as [mode|]; [|done].
    intros [Hreg Hlb%negb_true_iff]%andb_true_iff. exists p, mode.
    destruct (S_ISREG_exclusive _ Hreg) as (? & ? & ? & ?).
    split_and!; [done..|].
    intros j q mq Hlt Hq Hmq Hl. apply not_true_is_false. intros Hs.
    apply not_true_iff_false in Hlb. apply Hlb, link_before_spec.
    by exists j, q, mq.
  - intros (p & mode & -> & -> & Hreg & _ & _ & _ & _ & Hnone).
    rewrite Hreg. simpl. apply negb_true_iff, not_true_is_false.
    intros (j & q & mq & Hlt & Hq & Hmq & Hl & Hs)%link_before_spec.
    by rewrite (Hnone j q mq Hlt Hq Hmq Hl) in Hs.
Qed.

(** C3. The pattern ["a/b/"] is not taken as the directory prefix
    ["a/b/"]: where it names a directory the constructor stores the
    prefix ["a/b//"], elsewhere the exact path ["a/b/"], and in both
    cases [matches("a/b/c")] is false.  [matches("a/bx/c")] is false. *)
Theorem matches_trailing_slash_pattern (os : OS) root out :
  exists m,
    PathMatcher_init os root (SubList ["a/b/"]) out = (Ok m, out)
    /\ prefixes m
       = (if isdir os (abs_subpath_of (resolved_root os root) "a/b/")
          then ["a/b//"] else [])
    /\ matches m "a/b/c" = false
    /\ matches m "a/bx/c" = false.
Proof.
  unfold PathMatcher_init. fold (resolved_root os root).
  cbn [subpaths_list]. rewrite subpaths_loop_cons.
  change (contains_char "*" "a/b/") with false. cbv iota.
  destruct (isdir os _); simpl; eexists; (split; [reflexivity|]);
    by vm_compute.
Qed.

(** C4. [matches(path)] is true exactly when [path] starts with one of
    the stored prefixes or is in the set of exact paths; it is a total
    function.  Built without a root from the pattern ["x/y.txt"], which
    is no directory, the matcher matches ["x/y.txt"] and not
    ["x/y.txt.bak"]. *)
Theorem matches_spec (os : OS) :
  (forall root subpaths out m out' path,
      PathMatcher_init os root subpaths out = (Ok m, out') ->
      matches m path = true
      <-> (exists prefix, prefix ∈ prefixes m /\ startswith path prefix = true)
          \/ path ∈ files_set m)
  /\ (forall out,
        isdir os "x/y.txt" = false ->
        exists m,
          PathMatcher_init os None (SubList ["x/y.txt"]) out = (Ok m, out)
          /\ matches m "x/y.txt" = true
          /\ matches m "x/y.txt.bak" = false).
Proof.
  split.
  - intros root subpaths out m out' path [_ Hfiles]%PathMatcher_init_Ok.
    by rewrite matches_true, Hfiles, elem_of_elements.
  - intros out Hdir. unfold PathMatcher_init. cbn [subpaths_list].
    rewrite subpaths_loop_cons.
    change (contains_char "*" "x/y.txt") with false. cbv iota.
    cbn [abs_subpath_of]. rewrite Hdir. simpl.
    eexists. split; [reflexivity|]. by vm_compute.
Qed.

(** C5. Of the matches of a glob pattern, the constructor keeps those
    that are regular files (no directory, link or device) and do not
    start with the path of a link matched before them; the path kept is
    the match itself without a root and its path relative to the root
    otherwise.  The set of exact paths holds these kept paths and the
    patterns that are neither globs nor directories, nothing else. *)
Theorem PathMatcher_init_glob_policy (os : OS) root subpaths out m out' :
  PathMatcher_init os root subpaths out = (Ok m, out') ->
  (forall x,
      x ∈ files_set m
      <-> (x ∈ subpaths_list subpaths
           /\ is_exact_pattern os (resolved_root os root) x = true)
          \/ exists pat modes i p,
               pat ∈ subpaths_list subpaths /\ is_glob_pattern pat = true
               /\ Forall2 (fun p m => lstat os p = Ok m)
                    (glob os (abs_subpath_of (resolved_root os root) pat)) modes
               /\ glob os (abs_subpath_of (resolved_root os root) pat) !! i = Some p
               /\ survives (glob os (abs_subpath_of (resolved_root os root) pat))
                           modes i = true
               /\ x = stored_path os (resolved_root os root) p)
  /\ (forall wild_list modes i,
        survives wild_list modes i = true
        <-> exists p mode,
              wild_list !! i = Some p /\ modes !! i = Some mode
              /\ S_ISREG mode = true /\ S_ISDIR mode = false
              /\ S_ISLNK mode = false
              /\ S_ISCHR mode = false /\ S_ISBLK mode = false
              /\ forall j q mq,
                   (j < i)%nat -> wild_list !! j = Some q ->
                   modes !! j = Some mq ->
                   S_ISLNK mq = true -> startswith p q = false)
  /\ (forall p, stored_path os (resolved_root os root) p
                = match root with
                  | None => p
                  | Some d => relpath os p (realpath os (abspath os d))
                  end).
Proof.
  intros [Hloop _]%PathMatcher_init_Ok.
  apply subpaths_loop_spec in Hloop as (_ & Hfs & _). split_and!.
  - intros x. rewrite Hfs. split.
    + intros [?%not_elem_of_empty|?]; done.
    + by right.
  - apply survives_spec.
  - intros p. by destruct root.
Qed.

(** C6, as stated, fails: over the root ["/r"] with the files
    [src/a.c], [src/b.c] and [src/sub/c.c], the pattern ["src/**/*.c"]
    does not give the set [{a.c, b.c, sub/c.c}]. *)
Lemma glob_law_counterexample :
  ~ exists m out,
      PathMatcher_init (tree_os fs_src) (Some "/r") (SubList ["src/**/*.c"]) []
      = (Ok m, out)
      /\ files_set m = {[ "a.c"; "b.c"; "sub/c.c" ]}.
Proof.
  intros (m & out & Hinit & Hset).
  assert ("a.c" ∈ files_set m) as Hin by (rewrite Hset; set_solver).
  vm_compute in Hinit. injection Hinit as <- _.
  by vm_compute in Hin.
Qed.

(** C6, amended. Over the root ["/r"] with the files [src/a.c],
    [src/b.c] and [src/sub/c.c], the pattern ["src/**/*.c"] gives the
    set of the paths relative to the root:
    [{src/a.c, src/b.c, src/sub/c.c}]. *)
Theorem glob_law_relative_to_root :
  exists m out,
    PathMatcher_init (tree_os fs_src) (Some "/r") (SubList ["src/**/*.c"]) []
    = (Ok m, out)
    /\ files_set m = {[ "src/a.c"; "src/b.c"; "src/sub/c.c" ]}
    /\ prefixes m = [].
Proof.
  eexists _, _. split; [by vm_compute|]. by vm_compute.
Qed.

(** C9, as stated, fails: the constructor prints. *)
Lemma PathMatcher_init_prints :
  (PathMatcher_init (tree_os fs_src) (Some "/r") (SubList ["src/**/*.c"]) []).2
  = ["add: /r/src/a.c"; "add: /r/src/b.c"; "add: /r/src/sub/c.c"]
  /\ (PathMatcher_init (tree_os fs_src) (Some "/r") (SubList ["src/**/*.c"]) []).2
     <> [].
Proof. by vm_compute. Qed.

(** C9, amended. The matcher built and the lines printed are a
    function of the root, the patterns and the file system: they do
    not depend on what was printed before.  The constructor prints, for
    every glob pattern in turn, one line ["link: p"] for every match
    [p] that is a link and, with a root, one line ["add: p"] for every
    match that is kept, and nothing else; without a glob pattern it
    prints nothing.  [matches] reads the two fields [prefixes] and
    [files] only. *)
Theorem PathMatcher_init_effects (os : OS) root subpaths :
  (forall out,
      PathMatcher_init os root subpaths out
      = ((PathMatcher_init os root subpaths []).1,
         out ++ (PathMatcher_init os root subpaths []).2)%list)
  /\ (forall out m out',
        PathMatcher_init os root subpaths out = (Ok m, out') ->
        exists blocks,
          out' = (out ++ concat blocks)%list
          /\ Forall2
               (fun pat block =>
                  exists modes,
                    Forall2 (fun p m => lstat os p = Ok m)
                      (glob os (abs_subpath_of (resolved_root os root) pat)) modes
                    /\ block
                       = printed (resolved_root os root)
                           (glob os (abs_subpath_of (resolved_root os root) pat))
                           modes)
               (List.filter is_glob_pattern (subpaths_list subpaths)) blocks)
  /\ (List.filter is_glob_pattern (subpaths_list subpaths) = [] ->
      forall out, (PathMatcher_init os root subpaths out).2 = out)
  /\ (forall m1 m2 path,
        prefixes m1 = prefixes m2 -> files m1 = files m2 ->
        matches m1 path = matches m2 path).
Proof.
  split_and!.
  - apply PathMatcher_init_out.
  - intros out m out' [Hloop _]%PathMatcher_init_Ok.
    by apply subpaths_loop_spec in Hloop as (_ & _ & Hout).
  - intros Hnone out. unfold PathMatcher_init.
    fold (resolved_root os root). fold (subpaths_list subpaths).
    generalize (@nil string) as pfx. generalize (∅ : gset string) as fs.
    induction (subpaths_list subpaths) as [|pat l IH]; intros fs pfx; [done|].
    rewrite subpaths_loop_cons. cbn [List.filter] in Hnone.
    unfold is_glob_pattern in Hnone at 1.
    destruct (contains_char "*" pat); [done|].
    destruct (isdir os _); by apply IH.
  - intros m1 m2 path Hp Hf. unfold matches. by rewrite Hp, Hf.
Qed.
End PathMatcher_claims.

(** ** The end-to-end scenario and instances on the example file systems *)

Section scenarios.
Import TreeFS Fixtures MoreFixtures.

(** C2, as stated, fails: for the root with [.git/config], [README],
    [lib/a.py] and [lib/b.py] the call never returns
    [["README"; "lib/a.py"; "lib/b.py"]]. *)
Lemma find_unique_paths_scenario_counterexample :
  ~ exists fuel,
      find_unique_paths (tree_os fs_proj) fuel "/proj" DefaultExcludeFileNames
      = Some (Ok ["README"; "lib/a.py"; "lib/b.py"]).
Proof.
  intros [fuel H]. destruct fuel as [|[|[|fuel]]]; by vm_compute in H.
Qed.

(** C2, amended. For every root directory that holds exactly
    [.git/config], [README], [lib/a.py] and [lib/b.py], in whatever order
    the directories list their entries, the call with the default
    exclusions returns [["lib/a.py"; "lib/b.py"; "README"]]: the files of
    the subdirectory come before the file of the root, and nothing of
    [.git] appears. *)
Theorem find_unique_paths_scenario fs root_dir root_entries lib_entries fuel :
  tree_lookup fs (tree_abspath root_dir) = Ok (Dir None root_entries) ->
  root_entries ≡ₚ [(".git", Dir None [("config", Reg)]); ("README", Reg);
                   ("lib", Dir None lib_entries)] ->
  lib_entries ≡ₚ [("a.py", Reg); ("b.py", Reg)] ->
  find_unique_paths (tree_os fs) (3 + fuel) root_dir DefaultExcludeFileNames
  = Some (Ok ["lib/a.py"; "lib/b.py"; "README"]).
Proof.
  intros Hd Hroot Hlib.
  assert (NoDup (map fst lib_entries)) as Hnd_lib.
  { rewrite Hlib.
    match goal with |- ?G => apply (bool_decide_unpack G) end. exact I. }
  assert (NoDup (map fst root_entries)) as Hnd_root.
  { rewrite Hroot.
    match goal with |- ?G => apply (bool_decide_unpack G) end. exact I. }
  rewrite (find_unique_paths_walk _ _ _ _ _ Hd).
  - rewrite (walk_Permutation _ None _ _ Hnd_root Hroot).
    change (walk DefaultExcludeFileNames (Dir None ?entries))
      with (subs ← walk_dirs entries
                     (map (fun '(name, child) =>
                             (name, walk DefaultExcludeFileNames child)) entries)
                     (List.filter (fun f => negb (in_list f DefaultExcludeFileNames))
                                  (sorted (map fst entries)));
            Ok (subs ++ walk_files entries
                          (List.filter
                             (fun f => negb (in_list f DefaultExcludeFileNames))
                             (sorted (map fst entries))))%list).
    cbn [map]. rewrite (walk_Permutation _ None _ _ Hnd_lib Hlib).
    by vm_compute.
  - apply wf_Dir_intro; [done|]. rewrite Hroot.
    repeat constructor. apply wf_Dir_intro; [done|]. rewrite Hlib.
    by repeat constructor.
  - assert (height (Dir None root_entries) <= 2)%nat; [|lia].
    apply height_le. rewrite Hroot.
    apply Forall_cons; split; [simpl; lia|].
    apply Forall_cons; split; [simpl; lia|].
    apply Forall_cons; split; [|by apply Forall_nil].
    apply height_le. rewrite Hlib.
    apply Forall_cons; split; [simpl; lia|].
    apply Forall_cons; split; [simpl; lia|]. by apply Forall_nil.
Qed.

Lemma find_unique_paths_scenario_witness :
  find_unique_paths (tree_os fs_proj) 3 "/proj" DefaultExcludeFileNames
  = Some (Ok ["lib/a.py"; "lib/b.py"; "README"]).
Proof.
  refine (find_unique_paths_scenario fs_proj "/proj"
            [("lib", Dir None [("b.py", Reg); ("a.py", Reg)]);
             ("README", Reg);
             (".git", Dir None [("config", Reg)])]
            [("b.py", Reg); ("a.py", Reg)] 0 _ _ _).
  - reflexivity.
  - exact (Permutation_rev
             [("lib", Dir None [("b.py", Reg); ("a.py", Reg)]);
              ("README", Reg);
              (".git", Dir None [("config", Reg)])]).
  - apply perm_swap.
Defined.

Lemma scan_path_depth_first_then_local_witness :
  scan_path (tree_os fs_proj) "/proj" DefaultExcludeFileNames 2 "." []
  = Some (Ok ["lib/a.py"; "lib/b.py"; "README"]).
Proof.
  refine (proj2 (proj2 (proj2
    (scan_path_depth_first_then_local (tree_os fs_proj) "/proj"
       DefaultExcludeFileNames 1 "." ["lib"; "README"; ".git"]
       [("README", "README", "/proj/README", st_mode_of Reg);
        ("lib", "lib", "/proj/lib", st_mode_of (Dir None []))]
       [["lib/a.py"; "lib/b.py"]] [] _ _ _)))).
  - reflexivity.
  - reflexivity.
  - repeat constructor.
Defined.

Lemma matches_spec_witness :
  exists m,
    PathMatcher_init (tree_os fs_ab) None (SubList ["x/y.txt"]) [] = (Ok m, [])
    /\ matches m "x/y.txt" = true
    /\ matches m "x/y.txt.bak" = false.
Proof.
  apply (proj2 (matches_spec (tree_os fs_ab)) []). reflexivity.
Defined.

(** C7, as stated, fails: in a directory that holds one regular file
    under two names (two hard links) the file is returned twice, once
    for each name. *)
Lemma find_unique_paths_hard_link_counterexample :
  find_unique_paths (tree_os fs_hard) 2 "/r" DefaultExcludeFileNames
  = Some (Ok ["a"; "b"])
  /\ reaches DefaultExcludeFileNames dir_hard ["a"] Reg
  /\ st_ino_hard "/r/a" = st_ino_hard "/r/b"
  /\ names_of_file st_ino_hard "/r" ["a"; "b"] "a" = ["a"; "b"]
  /\ ~ (forall p, p ∈ ["a"; "b"] ->
          length (names_of_file st_ino_hard "/r" ["a"; "b"] p) = 1%nat).
Proof.
  split_and!; [done| |done|done|].
  - eapply reaches_step; [set_solver|reflexivity|]. constructor.
  - intros H. by specialize (H "a" ltac:(by left)).
Qed.

(** The regular files the traversal of [dir_top] reaches. *)
Lemma dir_top_files cs :
  reaches [".git"; "locked"] dir_top cs Reg -> cs = ["f"] \/ cs = ["d"; "g"].
Proof.
  intros Hr. inversion Hr as [|err entries name child comps n' HE Hentry Hr'].
  subst. unfold entry in Hentry. cbn [assoc] in Hentry.
  destruct (String.eqb "f" name) eqn:H1.
  { injection Hentry as <-. apply String.eqb_eq in H1 as <-.
    inversion Hr'. by left. }
  destruct (String.eqb "l" name) eqn:H2.
  { injection Hentry as <-. inversion Hr'. }
  destruct (String.eqb "tty" name) eqn:H3.
  { injection Hentry as <-. inversion Hr'. }
  destruct (String.eqb "d" name) eqn:H4.
  { injection Hentry as <-. apply String.eqb_eq in H4 as <-.
    inversion Hr' as [|err2 entries2 name2 child2 comps2 n2 HE' Hentry' Hr''].
    subst. unfold entry in Hentry'. cbn [assoc] in Hentry'.
    destruct (String.eqb "g" name2) eqn:H5.
    { injection Hentry' as <-. apply String.eqb_eq in H5 as <-.
      inversion Hr''. by right. }
    destruct (String.eqb ".git" name2) eqn:H6; [|done].
    apply String.eqb_eq in H6 as <-. destruct HE'. by left. }
  destruct (String.eqb "locked" name) eqn:H5; [|done].
  apply String.eqb_eq in H5 as <-. destruct HE. right. by left.
Qed.

Lemma find_unique_paths_exactly_the_regular_files_witness :
  names_of_file st_ino_top "/top" ["d/g"; "f"] (String.concat "/" ["d"; "g"])
  = [String.concat "/" ["d"; "g"]].
Proof.
  refine (proj2 (proj2 (proj2 (proj2
    (find_unique_paths_exactly_the_regular_files fs_mixed "/top"
       [".git"; "locked"] 4 dir_top ["d/g"; "f"] _ _ _ _))
    st_ino_top ["d"; "g"] _ _)) _).
  - reflexivity.
  - reflexivity.
  - vm_compute. lia.
  - reflexivity.
  - discriminate.
  - eapply reaches_step; [set_solver|reflexivity|].
    eapply reaches_step; [set_solver|reflexivity|]. constructor.
  - intros cs' _ Hr Hs. destruct (dir_top_files _ Hr) as [-> | ->].
    + discriminate Hs.
    + reflexivity.
Defined.

Lemma find_unique_paths_relative_paths_witness :
  String.concat "/" ["d"; "g"] ∈ ["d/g"; "g"].
Proof.
  refine (proj1 (proj2
    (find_unique_paths_relative_paths fs_gg "/top" [".git"] 3
       dir_gg ["d/g"; "g"] _ _ _ _)) ["d"; "g"] _ _).
  - reflexivity.
  - reflexivity.
  - vm_compute. lia.
  - reflexivity.
  - discriminate.
  - eapply reaches_step; [set_solver|reflexivity|].
    eapply reaches_step; [set_solver|reflexivity|]. constructor.
Defined.

Lemma find_unique_paths_error_propagates_witness :
  exists e' d',
    find_unique_paths os_no_search 1 "/d" DefaultExcludeFileNames = Some (Raise e')
    /\ descends os_no_search "/d" DefaultExcludeFileNames "." d'
    /\ fails_at os_no_search "/d" DefaultExcludeFileNames d' e'.
Proof.
  refine (proj2 (proj1 (proj2 (proj2
    (find_unique_paths_error_propagates fs_mixed "/top"
       DefaultExcludeFileNames 4))) os_no_search 1%nat "/d" _)
    "." PermissionError _ _).
  - intros names f st_mode _ _ _ Hst. discriminate Hst.
  - constructor.
  - right. exists ["a"; "b"], "a". split; [reflexivity|].
    split; [by left|]. split; [|reflexivity].
    intros [=]%list_elem_of_singleton.
Defined.

Lemma PathMatcher_init_glob_policy_witness :
  exists m out',
    PathMatcher_init os_link (Some "/r") (SubList ["src/**"]) [] = (Ok m, out')
    /\ out' = ["add: /r/src/real/f.c"; "link: /r/src/link"]
    /\ ("src/real/f.c" ∈ files_set m)
    /\ ("src/link/f.c" ∉ files_set m)
    /\ forall p, stored_path os_link (resolved_root os_link (Some "/r")) p
                 = relpath os_link p "/r".
Proof.
  eexists _, _. split; [by vm_compute|]. split; [done|].
  split; [by vm_compute|]. split; [by vm_compute|].
  refine (proj2 (proj2
    (PathMatcher_init_glob_policy os_link (Some "/r") (SubList ["src/**"]) []
       _ _ _))).
  by vm_compute.
Defined.

Lemma PathMatcher_init_effects_witness :
  exists blocks,
    ["add: /r/src/real/f.c"; "link: /r/src/link"] = ([] ++ concat blocks)%list
    /\ Forall2
         (fun pat block =>
            exists modes,
              Forall2 (fun p m => lstat os_link p = Ok m)
                (glob os_link
                   (abs_subpath_of (resolved_root os_link (Some "/r")) pat)) modes
              /\ block
                 = printed (resolved_root os_link (Some "/r"))
                     (glob os_link
                        (abs_subpath_of (resolved_root os_link (Some "/r")) pat))
                     modes)
         (List.filter is_glob_pattern (subpaths_list (SubList ["src/**"]))) blocks.
Proof.
  refine (proj1 (proj2
    (PathMatcher_init_effects os_link (Some "/r") (SubList ["src/**"])))
    [] _ _ _).
  by vm_compute.
Defined.
End scenarios.

(** * More properties of the scripts *)

(** ** find_unique_paths: excluded names, links, listing order *)

Section more_find_unique_paths.
Import TreeFS.

Lemma reaches_app_inv E n cs1 cs2 n' :
  reaches E n (cs1 ++ cs2) n' ->
  exists m, reaches E n cs1 m /\ reaches E m cs2 n'.
Proof.
  revert n. induction cs1 as [|c cs1 IH]; intros n Hr.
  - exists n. split; [constructor|done].
  - inversion Hr as [|err entries f child cs' ? HE Hc Hr']; subst.
    destruct (IH _ Hr') as (m & H1 & H2).
    exists m. split; [|done]. by eapply reaches_step.
Qed.

Lemma reaches_cons_dir E n c cs n' :
  reaches E n (c :: cs) n' -> is_dir n = true.
Proof. by inversion 1. Qed.

Lemma make_infos_ext (os1 os2 : OS) real_dir E dir_path names :
  (forall p, lstat os1 p = lstat os2 p) ->
  make_infos os1 real_dir E dir_path names
  = make_infos os2 real_dir E dir_path names.
Proof.
  intros Hl. induction names as [|f names IH]; [done|]. simpl.
  destruct (is_excluded E f); [done|]. unfold make_info. by rewrite Hl, IH.
Qed.

Lemma scan_dirs_ext rec1 rec2 infos :
  (forall p paths, rec1 p paths = rec2 p paths) ->
  forall paths, scan_dirs rec1 infos paths = scan_dirs rec2 infos paths.
Proof.
  intros Hrec.
  induction infos as [|[[[fname fpath] full] m] infos IH]; intros paths; [done|].
  simpl. destruct (S_ISDIR m); [|apply IH]. rewrite Hrec.
  destruct (rec2 fpath paths) as [[l|e]|]; [apply IH|done..].
Qed.

Context (fs : node) (root_dir : string) (E : list string).

Local Abbreviation os := (tree_os fs).
Local Abbreviation real_dir := (tree_abspath root_dir).

(** X1. No component of a returned path is an excluded name: an excluded
    directory removes everything below it. *)
Theorem find_unique_paths_no_excluded_component fuel d paths :
  tree_lookup fs real_dir = Ok d ->
  wf d = true ->
  (height d < fuel)%nat ->
  find_unique_paths os fuel root_dir E = Some (Ok paths) ->
  forall p c, p ∈ paths -> c ∈ split_slash p -> c ∉ E.
Proof.
  intros Hd Hwf Hh Hres p c Hp Hc.
  destruct (find_unique_paths_Ok _ _ _ _ _ _ Hd Hwf Hh Hres) as (cl & Hw & ->).
  apply list_elem_of_fmap in Hp as (cs & -> & Hcs).
  apply (walk_elem_of E d cl cs Hw) in Hcs as [Hne Hr].
  pose proof (proj1 (reaches_valid _ _ _ _ Hwf Hr)) as Hv.
  destruct cs as [|f cs]; [done|].
  rewrite split_slash_path_of_dot in Hc.
  - rewrite Forall_forall in Hv. by apply (Hv c Hc).
  - eapply Forall_impl; [exact Hv|]. by intros ? [].
Qed.

(** X2. Every directory on the way to a returned path is a directory by
    [lstat], so not a symbolic link: the traversal enters no linked
    directory. *)
Theorem find_unique_paths_through_directories fuel d paths :
  tree_lookup fs real_dir = Ok d ->
  wf d = true ->
  (height d < fuel)%nat ->
  find_unique_paths os fuel root_dir E = Some (Ok paths) ->
  forall p cs1 cs2,
    p ∈ paths -> split_slash p = (cs1 ++ cs2)%list -> cs1 <> [] -> cs2 <> [] ->
    exists st_mode,
      lstat os (real_dir +:+ "/" +:+ String.concat "/" cs1) = Ok st_mode
      /\ S_ISDIR st_mode = true /\ S_ISLNK st_mode = false.
Proof.
  intros Hd Hwf Hh Hres p cs1 cs2 Hp Hsp Hne1 Hne2.
  destruct (find_unique_paths_Ok _ _ _ _ _ _ Hd Hwf Hh Hres) as (cl & Hw & ->).
  apply list_elem_of_fmap in Hp as (cs & -> & Hcs).
  apply (walk_elem_of E d cl cs Hw) in Hcs as [Hne Hr].
  assert (Forall (fun f => valid_name f = true) cs) as Hv.
  { eapply Forall_impl; [apply (reaches_valid _ _ _ _ Hwf Hr)|]. by intros ? []. }
  destruct cs as [|f cs]; [done|].
  rewrite split_slash_path_of_dot in Hsp by done. rewrite Hsp in Hr, Hv.
  apply reaches_app_inv in Hr as (m & Hr1 & Hr2).
  destruct cs2 as [|c2 cs2]; [done|].
  apply reaches_cons_dir in Hr2 as Hdir.
  apply Forall_app in Hv as [Hv1 _].
  destruct cs1 as [|c1 cs1]; [done|].
  exists (st_mode_of m). split.
  - rewrite <- path_of_dot_concat by done.
    change (lstat os ?q) with (tree_lstat fs q). unfold tree_lstat.
    by rewrite (tree_lookup_path_of _ _ E d (c1 :: cs1) m Hd Hwf Hne1 Hr1).
  - by destruct m.
Qed.
End more_find_unique_paths.

Section listing_order.
Context (E : list string).

(** X3. The outcome does not depend on the order in which [os.listdir]
    reports the names of a directory. *)
Theorem find_unique_paths_listing_order (os1 os2 : OS) :
  (forall p, lstat os1 p = lstat os2 p) ->
  (forall p, realpath os1 p = realpath os2 p) ->
  (forall p, match listdir os1 p, listdir os2 p with
             | Ok l1, Ok l2 => l1 ≡ₚ l2
             | Raise e1, Raise e2 => e1 = e2
             | _, _ => False
             end) ->
  forall fuel root_dir,
    find_unique_paths os1 fuel root_dir E = find_unique_paths os2 fuel root_dir E.
Proof.
  intros Hl Hr Hd fuel root_dir. unfold find_unique_paths. rewrite Hr.
  generalize (realpath os2 root_dir) as real_dir. intros real_dir.
  generalize (@nil string) as paths. generalize "." as dir_path.
  induction fuel as [|fuel IH]; intros dir_path paths; [done|]. simpl.
  specialize (Hd (real_dir +:+ "/" +:+ dir_path)).
  destruct (listdir os1 _) as [l1|e1], (listdir os2 _) as [l2|e2];
    try done; [|by subst].
  rewrite (sorted_Permutation l1 l2 Hd).
  rewrite (make_infos_ext os1 os2) by done.
  destruct (make_infos os2 _ _ _ _) as [infos|e]; [|done].
  by rewrite (scan_dirs_ext _ _ infos IH).
Qed.
End listing_order.

(** ** PathMatcher: patterns and exceptions *)

Section more_PathMatcher.
Context (os : OS).

(** When every match can be examined the glob loop ends without an
    exception. *)
Lemma wild_loop_total root l : forall wild_set wild_links out,
  (forall p, p ∈ l -> exists m, lstat os p = Ok m) ->
  exists S out', wild_loop os root l wild_set wild_links out = (Ok S, out').
Proof.
  induction l as [|p l IH]; intros wild_set wild_links out Hok.
  - by eexists _, _.
  - destruct (Hok p) as [m Hm]; [left|].
    rewrite (wild_loop_cons _ _ _ _ _ _ _ _ Hm).
    repeat case_match; apply IH; intros q Hq; apply Hok; by right.
Qed.

(** The exception of the glob loop is the one [os.stat] raises for one
    of the matches. *)
Lemma wild_loop_Raise root l : forall wild_set wild_links out e out',
  wild_loop os root l wild_set wild_links out = (Raise e, out') ->
  exists p, p ∈ l /\ lstat os p = Raise e.
Proof.
  induction l as [|p l IH]; intros wild_set wild_links out e out'; [done|].
  destruct (lstat os p) as [m|e'] eqn:Hm.
  - rewrite (wild_loop_cons _ _ _ _ _ _ _ _ Hm). intros Hloop.
    assert (exists q, q ∈ l /\ lstat os q = Raise e) as (q & Hq & He).
    { repeat case_match; by eapply IH. }
    exists q. split; [by right|done].
  - simpl. rewrite Hm. intros [= <- _]. exists p. split; [left|done].
Qed.

Lemma subpaths_loop_Raise root subpaths :
  forall prefixes0 files_set0 out e out',
    subpaths_loop os root subpaths prefixes0 files_set0 out = (Raise e, out') ->
    exists pat p,
      pat ∈ subpaths /\ is_glob_pattern pat = true
      /\ p ∈ glob os (abs_subpath_of root pat) /\ lstat os p = Raise e.
Proof.
  induction subpaths as [|pat subpaths IH];
    intros prefixes0 files_set0 out e out'; [done|].
  rewrite subpaths_loop_cons.
  assert (forall pfx fs o,
            subpaths_loop os root subpaths pfx fs o = (Raise e, out') ->
            exists pat' p, pat' ∈ pat :: subpaths /\ is_glob_pattern pat' = true
              /\ p ∈ glob os (abs_subpath_of root pat') /\ lstat os p = Raise e)
    as IH'.
  { intros pfx fs o (pat' & p & Hin & Hrest)%IH. exists pat', p.
    split; [by right|done]. }
  destruct (contains_char "*" pat) eqn:Hstar.
  - destruct (wild_loop os root _ ∅ ∅ out) as [[wild_set|e'] out1] eqn:Hw.
    + apply IH'.
    + intros [= -> ->]. apply wild_loop_Raise in Hw as (p & Hp & He).
      exists pat, p. split; [left|done].
  - destruct (isdir os _); apply IH'.
Qed.

Lemma subpaths_loop_total root subpaths :
  (forall pat p, pat ∈ subpaths -> is_glob_pattern pat = true ->
                 p ∈ glob os (abs_subpath_of root pat) ->
                 exists m, lstat os p = Ok m) ->
  forall prefixes0 files_set0 out,
    exists r out', subpaths_loop os root subpaths prefixes0 files_set0 out
                   = (Ok r, out').
Proof.
  induction subpaths as [|pat subpaths IH]; intros Hok prefixes0 files_set0 out.
  - by eexists _, _.
  - rewrite subpaths_loop_cons.
    assert (forall pfx fs o,
              exists r out', subpaths_loop os root subpaths pfx fs o = (Ok r, out'))
      as IH'.
    { apply IH. intros pat' p Hin. apply Hok. by right. }
    destruct (contains_char "*" pat) eqn:Hstar.
    + destruct (wild_loop_total root (glob os (abs_subpath_of root pat)) ∅ ∅ out)
        as (S & out1 & ->).
      * intros p Hp. apply (Hok pat p); [left|done..].
      * apply IH'.
    + destruct (isdir os _); apply IH'.
Qed.

Lemma subpaths_loop_fails root subpaths :
  forall prefixes0 files_set0 out pat p e,
    pat ∈ subpaths -> is_glob_pattern pat = true ->
    p ∈ glob os (abs_subpath_of root pat) -> lstat os p = Raise e ->
    exists e' out',
      subpaths_loop os root subpaths prefixes0 files_set0 out = (Raise e', out').
Proof.
  intros prefixes0 files_set0 out pat p e Hin Hg Hp He.
  destruct (subpaths_loop os root subpaths prefixes0 files_set0 out)
    as [[[pfx fs]|e'] out'] eqn:Hloop; [|by eexists _, _].
  apply subpaths_loop_spec in Hloop as (_ & _ & blocks & _ & Hblocks).
  assert (pat ∈ List.filter is_glob_pattern subpaths) as Hpat.
  { apply list_elem_of_In, filter_In. by rewrite <- list_elem_of_In. }
  apply list_elem_of_lookup in Hpat as [i Hi].
  destruct (Forall2_lookup_l _ _ _ _ _ Hblocks Hi) as (b & _ & modes & Hm & _).
  apply list_elem_of_lookup in Hp as [j Hj].
  destruct (Forall2_lookup_l _ _ _ _ _ Hm Hj) as (m & _ & Hok). congruence.
Qed.

(** What [matches] answers, in terms of the patterns the matcher was
    built from. *)
Lemma matches_patterns root subpaths out m out' path :
  PathMatcher_init os root subpaths out = (Ok m, out') ->
  matches m path = true
  <-> (exists pat, pat ∈ subpaths_list subpaths
         /\ is_dir_pattern os (resolved_root os root) pat = true
         /\ startswith path (pat +:+ "/") = true)
      \/ (path ∈ subpaths_list subpaths
          /\ is_exact_pattern os (resolved_root os root) path = true)
      \/ exists pat modes i p,
           pat ∈ subpaths_list subpaths /\ is_glob_pattern pat = true
           /\ Forall2 (fun p m => lstat os p = Ok m)
                (glob os (abs_subpath_of (resolved_root os root) pat)) modes
           /\ glob os (abs_subpath_of (resolved_root os root) pat) !! i = Some p
           /\ survives (glob os (abs_subpath_of (resolved_root os root) pat))
                       modes i = true
           /\ path = stored_path os (resolved_root os root) p.
Proof.
  intros [Hloop Hfiles]%PathMatcher_init_Ok.
  apply subpaths_loop_spec in Hloop as (Hpfx & Hfs & _).
  rewrite matches_true, Hfiles, elem_of_elements, Hfs, Hpfx. simpl.
  split.
  - intros [(prefix & Hin & Hs)|[?%not_elem_of_empty|H]]; [|done|by right].
    left. apply list_elem_of_fmap in Hin as (pat & -> & Hin).
    apply list_elem_of_In, filter_In in Hin as [Hin Hd].
    exists pat. by rewrite list_elem_of_In.
  - intros [(pat & Hin & Hd & Hs)|H]; [|by right; right].
    left. exists (pat +:+ "/"). split; [|done].
    apply list_elem_of_fmap. exists pat. split; [done|].
    apply list_elem_of_In, filter_In. by rewrite <- list_elem_of_In.
Qed.

Lemma length_append (s t : string) :
  String.length (s +:+ t) = (String.length s + String.length t)%nat.
Proof. induction s as [|c s IH]; [done|]. rewrite app_String. simpl. by rewrite IH. Qed.

(** X4. A single path without [*], as [generate-qtproject.py] passes it:
    nothing is printed and no exception is raised; [prefixes] is not
    empty exactly when the path is a directory; a directory matches the
    paths below it (and not itself), anything else matches only itself. *)
Theorem PathMatcher_init_single_path root pat out :
  contains_char "*" pat = false ->
  exists m,
    PathMatcher_init os root (SubStr pat) out = (Ok m, out)
    /\ (prefixes m <> []
        <-> isdir os (abs_subpath_of (resolved_root os root) pat) = true)
    /\ (isdir os (abs_subpath_of (resolved_root os root) pat) = true ->
        files m = []
        /\ matches m pat = false
        /\ forall path, matches m path = true
                        <-> exists rest, path = pat +:+ "/" +:+ rest)
    /\ (isdir os (abs_subpath_of (resolved_root os root) pat) = false ->
        files m = [pat]
        /\ forall path, matches m path = true <-> path = pat).
Proof.
  intros Hstar. unfold PathMatcher_init. fold (resolved_root os root).
  rewrite subpaths_loop_cons, Hstar.
  destruct (isdir os _) eqn:Hdir; simpl; eexists; (split; [reflexivity|]).
  - split; [done|]. split; [|done]. intros _.
    assert (forall path,
              matches {| prefixes := [pat +:+ "/"]; files_set := ∅;
                         files := elements (∅ : gset string) |} path = true
              <-> exists rest, path = pat +:+ "/" +:+ rest) as Hm.
    { intros path. rewrite matches_true. simpl. rewrite elements_empty. split.
      - intros [(prefix & ->%list_elem_of_singleton & [r ->]%startswith_spec)
               |?%elem_of_nil]; [|done].
        exists r. by rewrite !append_assoc.
      - intros [rest ->]. left. exists (pat +:+ "/"). split; [left|].
        apply startswith_spec. exists rest. by rewrite !append_assoc. }
    split_and!; [by rewrite elements_empty| |done].
    apply not_true_is_false. intros [rest Hrest]%Hm.
    apply (f_equal String.length) in Hrest.
    rewrite !length_append in Hrest. simpl in Hrest. lia.
  - split; [done|]. split; [done|]. intros _.
    assert (elements ({[pat]} ∪ ∅ : gset string) = [pat]) as Hel.
    { rewrite union_empty_r_L. apply elements_singleton. }
    split; [done|]. intros path. rewrite matches_true. simpl. rewrite Hel.
    split.
    + intros [(? & ?%elem_of_nil & _)|?%list_elem_of_singleton]; done.
    + intros ->. right. left.
Qed.

(** X5. Adding patterns never takes a match away. *)
Theorem matches_more_patterns root subs subs' out out1 m m' out' out1' :
  PathMatcher_init os root (SubList subs) out = (Ok m, out') ->
  PathMatcher_init os root (SubList subs') out1 = (Ok m', out1') ->
  subs ⊆ subs' ->
  forall path, matches m path = true -> matches m' path = true.
Proof.
  intros Hm Hm' Hsub path.
  rewrite (matches_patterns _ _ _ _ _ path Hm),
    (matches_patterns _ _ _ _ _ path Hm'). simpl.
  intros [(pat & Hin & H)|[[Hin H]|(pat & modes & i & p & Hin & H)]].
  - left. exists pat. split; [by apply Hsub|done].
  - right; left. split; [by apply Hsub|done].
  - right; right. exists pat, modes, i, p. split; [by apply Hsub|done].
Qed.

(** X6. The order of the patterns, and a pattern given more than once, do
    not matter for what is matched: a list with the same patterns
    builds a matcher that answers alike. *)
Theorem matches_pattern_order root subs subs' out m out' :
  PathMatcher_init os root (SubList subs) out = (Ok m, out') ->
  (forall pat, pat ∈ subs <-> pat ∈ subs') ->
  exists m' out'',
    PathMatcher_init os root (SubList subs') out = (Ok m', out'')
    /\ forall path, matches m' path = matches m path.
Proof.
  intros Hm Hsame.
  destruct (PathMatcher_init os root (SubList subs') out) as [[m'|e] out'']
    eqn:Hm'.
  - exists m', out''. split; [done|]. intros path. apply eq_true_iff_eq.
    rewrite (matches_patterns _ _ _ _ _ path Hm),
      (matches_patterns _ _ _ _ _ path Hm'). simpl.
    by repeat setoid_rewrite Hsame.
  - exfalso. unfold PathMatcher_init in Hm'. fold (resolved_root os root) in Hm'.
    destruct (subpaths_loop _ _ _ _ _ _) as [[[pfx fs]|e'] o] eqn:Hloop; [done|].
    apply subpaths_loop_Raise in Hloop as (pat & p & Hin & Hg & Hp & He).
    apply Hsame in Hin.
    apply PathMatcher_init_Ok in Hm as [Hloop _].
    destruct (subpaths_loop_fails _ _ [] ∅ out pat p e' Hin Hg Hp He)
      as (e2 & o2 & Hfail).
    simpl in Hloop. congruence.
Qed.

(** X7. The constructor raises only what [os.stat] raises for a match of a
    glob pattern; it raises when one match cannot be examined, and it
    returns when all of them can (so always without a glob pattern). *)
Theorem PathMatcher_init_raises root subpaths out :
  (forall e out',
      PathMatcher_init os root subpaths out = (Raise e, out') ->
      exists pat p,
        pat ∈ subpaths_list subpaths /\ is_glob_pattern pat = true
        /\ p ∈ glob os (abs_subpath_of (resolved_root os root) pat)
        /\ lstat os p = Raise e)
  /\ (forall pat p e,
        pat ∈ subpaths_list subpaths -> is_glob_pattern pat = true ->
        p ∈ glob os (abs_subpath_of (resolved_root os root) pat) ->
        lstat os p = Raise e ->
        exists e' out', PathMatcher_init os root subpaths out = (Raise e', out'))
  /\ ((forall pat p,
         pat ∈ subpaths_list subpaths -> is_glob_pattern pat = true ->
         p ∈ glob os (abs_subpath_of (resolved_root os root) pat) ->
         exists m, lstat os p = Ok m) ->
      exists m out', PathMatcher_init os root subpaths out = (Ok m, out')).
Proof.
  unfold PathMatcher_init. fold (resolved_root os root).
  fold (subpaths_list subpaths). split_and!.
  - intros e out'.
    destruct (subpaths_loop _ _ _ _ _ _) as [[[pfx fs]|e'] o] eqn:Hloop; [done|].
    intros [= -> ->]. by eapply subpaths_loop_Raise.
  - intros pat p e Hin Hg Hp He.
    destruct (subpaths_loop_fails (resolved_root os root) _ [] ∅ out
                pat p e Hin Hg Hp He) as (e' & out' & ->).
    by eexists _, _.
  - intros Hok.
    destruct (subpaths_loop_total (resolved_root os root) _ Hok [] ∅ out)
      as ([pfx fs] & out' & ->).
    by eexists _, _.
Qed.
End more_PathMatcher.

(** ** find_unique_paths with a string of excluded names *)

Section any_exclude.
Context (os : OS).

Lemma prefix_prefixes_of sub s :
  String.prefix sub s = true <-> sub ∈ prefixes_of s.
Proof.
  revert sub. induction s as [|c s IH]; intros sub; simpl.
  - destruct sub; simpl; [|by rewrite list_elem_of_singleton].
    split; [by intros _; left|done].
  - destruct sub as [|d sub]; simpl.
    + split; [by intros _; left|done].
    + rewrite elem_of_cons, list_elem_of_fmap.
      destruct (ascii_dec d c) as [->|Hne].
      * rewrite IH. split.
        -- intros H. right. by exists sub.
        -- intros [[=]|(y & [= ->] & Hy)]. done.
      * split; [done|]. intros [[=]|(y & [= -> _] & _)]. done.
Qed.

Lemma str_contains_substrings sub s :
  str_contains sub s = in_list sub (substrings s).
Proof.
  apply eq_true_iff_eq. unfold in_list. rewrite bool_decide_eq_true.
  induction s as [|c s IH].
  - cbn [str_contains]. apply (prefix_prefixes_of sub "").
  - cbn [str_contains substrings].
    rewrite orb_true_iff, elem_of_app, IH, prefix_prefixes_of. done.
Qed.

Lemma make_infos_any_list real_dir E dir_path names :
  AnyExclude.make_infos os real_dir (ExcludeList E) dir_path names
  = make_infos os real_dir E dir_path names.
Proof.
  induction names as [|f names IH]; [done|]. simpl. by rewrite IH.
Qed.

Lemma make_infos_any_str real_dir s dir_path names :
  AnyExclude.make_infos os real_dir (ExcludeStr s) dir_path names
  = make_infos os real_dir (substrings s) dir_path names.
Proof.
  induction names as [|f names IH]; [done|]. simpl.
  unfold is_excluded. by rewrite IH, str_contains_substrings.
Qed.

(** X8. A string as [exclude_file_names] excludes every name that occurs in
    it: the call is the call with the list of all its substrings.  For
    ['.git/'] these are, besides [.git], the names [git], [g], [i],
    [t], [.g], [.gi], [gi] and [it] (a name is never empty, ["."], or
    with a separator).  A list is taken as it is. *)
Theorem find_unique_paths_str_exclude fuel root_dir :
  (forall s,
      AnyExclude.find_unique_paths os fuel root_dir (ExcludeStr s)
      = find_unique_paths os fuel root_dir (substrings s))
  /\ (forall l,
        AnyExclude.find_unique_paths os fuel root_dir (ExcludeList l)
        = find_unique_paths os fuel root_dir l)
  /\ (forall name,
        TreeFS.valid_name name = true ->
        AnyExclude.is_excluded convert_all_exclude name = true
        <-> name ∈ [".git"; "git"; "g"; "i"; "t"; ".g"; ".gi"; "gi"; "it"]).
Proof.
  split_and!.
  - intros s. unfold AnyExclude.find_unique_paths, find_unique_paths.
    generalize (realpath os root_dir) as real_dir. intros real_dir.
    generalize (@nil string) as paths. generalize "." as dir_path.
    induction fuel as [|fuel' IH]; intros dir_path paths; [done|]. simpl.
    destruct (listdir os _) as [names|e]; [|done].
    rewrite make_infos_any_str.
    destruct (make_infos os _ _ _ _) as [infos|e]; [|done].
    by rewrite (scan_dirs_ext _ _ infos IH).
  - intros l. unfold AnyExclude.find_unique_paths, find_unique_paths.
    generalize (realpath os root_dir) as real_dir. intros real_dir.
    generalize (@nil string) as paths. generalize "." as dir_path.
    induction fuel as [|fuel' IH]; intros dir_path paths; [done|]. simpl.
    destruct (listdir os _) as [names|e]; [|done].
    rewrite make_infos_any_list.
    destruct (make_infos os _ _ _ _) as [infos|e]; [|done].
    by rewrite (scan_dirs_ext _ _ infos IH).
  - intros name Hv. unfold AnyExclude.is_excluded, convert_all_exclude.
    rewrite str_contains_substrings. unfold in_list.
    rewrite bool_decide_eq_true. cbn [substrings prefixes_of map app].
    apply valid_name_spec in Hv as (H0 & H1 & _ & Hs).
    rewrite !elem_of_cons, !elem_of_nil. split.
    + intros H. repeat (destruct H as [H|H]); subst; try done; tauto.
    + intros H. repeat (destruct H as [H|H]); subst; tauto.
Qed.
End any_exclude.

(** ** no-first-comment-difftool.py *)

Section difftool_facts.
Import difftool.

Lemma is_blank_spec line : is_blank line = true <-> strip line = "".
Proof.
  unfold is_blank. rewrite Nat.eqb_eq. destruct (strip line); simpl; split; done.
Qed.

(** *** detect_oneline_comment_n *)

Lemma blank_runs_snoc b pre x :
  blank_runs b (pre ++ [x])
  = (blank_runs b pre
     + if is_blank x then if ends_blank b pre then 0 else 1 else 0)%nat.
Proof.
  revert b. induction pre as [|y pre IH]; intros b.
  - unfold ends_blank. cbn [app blank_runs last].
    destruct (is_blank x), b; simpl; lia.
  - cbn [app blank_runs]. rewrite !IH.
    assert (ends_blank b (y :: pre) = ends_blank (is_blank y) pre) as ->.
    { unfold ends_blank. destruct pre as [|z pre]; [done|]. cbn [last].
      destruct (last (z :: pre)) eqn:Hl; [done|]. by apply last_None in Hl. }
    destruct (is_blank y) eqn:Hy; lia.
Qed.

Lemma ends_blank_snoc b pre x : ends_blank b (pre ++ [x]) = is_blank x.
Proof. unfold ends_blank. by rewrite last_snoc. Qed.

Lemma blank_runs_take b k lines :
  (blank_runs b (take k lines) <= blank_runs b lines)%nat.
Proof.
  revert b k. induction lines as [|x lines IH]; intros b [|k]; simpl; try lia.
  destruct (is_blank x); [|apply IH].
  specialize (IH true k). lia.
Qed.

Section oneline.
Context (prefix : string) (max_line_breaks : nat).

Lemma oneline_loop_inv rest : forall pre n lb lbn,
  oneline_inv prefix max_line_breaks pre n lb lbn ->
  exists pre' lb' lbn',
    oneline_inv prefix max_line_breaks pre'
      (oneline_loop prefix max_line_breaks rest n lb lbn) lb' lbn'
    /\ pre' `prefix_of` (pre ++ rest)%list.
Proof.
  induction rest as [|x rest IH]; intros pre n lb lbn Hinv.
  { exists pre, lb, lbn. rewrite app_nil_r. done. }
  assert (forall n' lb' lbn',
            oneline_inv prefix max_line_breaks (pre ++ [x]) n' lb' lbn' ->
            exists pre' lb'' lbn'',
              oneline_inv prefix max_line_breaks pre'
                (oneline_loop prefix max_line_breaks rest n' lb' lbn')
                lb'' lbn''
              /\ pre' `prefix_of` (pre ++ x :: rest)%list) as Hstep.
  { intros n' lb' lbn' H. destruct (IH _ _ _ _ H) as (pre' & lb'' & lbn'' & ? & Hp).
    exists pre', lb'', lbn''. split; [done|]. by rewrite <- app_assoc in Hp. }
  assert (exists pre' lb' lbn',
            oneline_inv prefix max_line_breaks pre' n lb' lbn'
            /\ pre' `prefix_of` (pre ++ x :: rest)%list)
    as Hstop.
  { exists pre, lb, lbn. split; [done|]. by apply prefix_app_r. }
  destruct Hinv as (Hlen & Hall & Hlast & Hruns & Hle & Hend).
  cbn [oneline_loop]. fold (is_blank x).
  destruct (is_blank x) eqn:Hx.
  - destruct (lbn =? 0)%nat eqn:Hlbn.
    + destruct (lb =? max_line_breaks)%nat eqn:Hlb; [done|].
      apply Nat.eqb_eq in Hlbn. apply Nat.eqb_neq in Hlb. subst lbn.
      apply Hstep. split_and!.
      * rewrite length_app. simpl. lia.
      * apply Forall_app. split; [done|]. constructor; [by left|done].
      * destruct Hlast as [?|(line & Hl & Hc)]; [by left|right].
        exists line. split; [|done]. by apply lookup_app_l_Some.
      * rewrite blank_runs_snoc, Hx, Hend, Hruns. simpl. done.
      * lia.
      * by rewrite ends_blank_snoc.
    + apply Nat.eqb_neq in Hlbn. apply Hstep. split_and!.
      * rewrite length_app. simpl. lia.
      * apply Forall_app. split; [done|]. constructor; [by left|done].
      * destruct Hlast as [?|(line & Hl & Hc)]; [by left|right].
        exists line. split; [|done]. by apply lookup_app_l_Some.
      * rewrite blank_runs_snoc, Hx, Hend, Hruns.
        simpl. lia.
      * done.
      * rewrite ends_blank_snoc, Hx. by destruct lbn.
  - destruct (startswith (strip x) prefix) eqn:Hp; simpl; [|done].
    assert (is_comment prefix x = true) as Hc.
    { unfold is_comment. by rewrite Hx, Hp. }
    apply Hstep. split_and!.
    * rewrite length_app. simpl. lia.
    * apply Forall_app. split; [done|]. constructor; [by right|done].
    * right. exists x. split; [|done].
      replace (n + lbn + 1 - 1)%nat with (length pre) by lia.
      by apply list_lookup_middle.
    * rewrite blank_runs_snoc, Hx, Hruns. lia.
    * done.
    * by rewrite ends_blank_snoc.
Qed.

Lemma oneline_inv_start : oneline_inv prefix max_line_breaks [] 0 0 0.
Proof. split_and!; try done; [by left|simpl; lia]. Qed.

Lemma oneline_loop_ge rest : forall n lb lbn,
  (n <= oneline_loop prefix max_line_breaks rest n lb lbn)%nat.
Proof.
  induction rest as [|x rest IH]; intros n lb lbn; simpl; [done|].
  repeat case_match; try done; etrans; [|apply IH]; lia.
Qed.

(** Comment lines are counted, with the blank lines kept in [lbn]. *)
Lemma oneline_loop_comments cs rest : forall n lb lbn,
  Forall (fun line => is_comment prefix line = true) cs ->
  cs <> [] ->
  oneline_loop prefix max_line_breaks (cs ++ rest) n lb lbn
  = oneline_loop prefix max_line_breaks rest (n + lbn + length cs) lb 0.
Proof.
  induction cs as [|c cs IH]; intros n lb lbn Hcs Hne; [done|].
  apply Forall_cons in Hcs as [[Hb Hp]%andb_true_iff Hcs].
  apply negb_true_iff in Hb. unfold is_blank in Hb.
  cbn [app oneline_loop]. rewrite Hb, Hp. cbn [negb].
  destruct cs as [|c' cs].
  - simpl. f_equal.
  - rewrite IH by done. f_equal. simpl. lia.
Qed.

(** Blank lines after the first of a run only raise [lbn]. *)
Lemma oneline_loop_blanks bs rest : forall n lb lbn,
  Forall (fun line => is_blank line = true) bs ->
  lbn <> O ->
  oneline_loop prefix max_line_breaks (bs ++ rest) n lb lbn
  = oneline_loop prefix max_line_breaks rest n lb (lbn + length bs).
Proof.
  induction bs as [|b bs IH]; intros n lb lbn Hbs Hne.
  - simpl. by rewrite Nat.add_0_r.
  - apply Forall_cons in Hbs as [Hb Hbs]. unfold is_blank in Hb.
    cbn [app oneline_loop]. rewrite Hb.
    apply Nat.eqb_neq in Hne. rewrite Hne.
    rewrite IH by (done || lia). f_equal. simpl. lia.
Qed.

Lemma oneline_loop_stops rest n lb lbn :
  stops prefix rest -> oneline_loop prefix max_line_breaks rest n lb lbn = n.
Proof.
  destruct rest as [|x rest]; [done|]. intros [Hb Hc]. simpl.
  unfold is_comment in Hc. rewrite Hb in Hc. unfold is_blank in Hb.
  rewrite Hb. simpl in Hc. by rewrite Hc.
Qed.

Lemma oneline_loop_trailing_blanks bs rest n lb :
  Forall (fun line => is_blank line = true) bs ->
  stops prefix rest ->
  oneline_loop prefix max_line_breaks (bs ++ rest) n lb 0 = n.
Proof.
  intros Hbs Hstop. destruct bs as [|b bs].
  - by apply oneline_loop_stops.
  - apply Forall_cons in Hbs as [Hb Hbs]. unfold is_blank in Hb.
    cbn [app oneline_loop]. rewrite Hb. simpl.
    destruct (lb =? max_line_breaks)%nat; [done|].
    rewrite oneline_loop_blanks by (done || lia).
    by apply oneline_loop_stops.
Qed.
End oneline.

(** X9. The lines [detect_oneline_comment_n] counts are lines of the file,
    each of them blank or a comment; the last of them is a comment, so
    no blank line after the comment is counted; and they hold at most
    [max_line_breaks] runs of blank lines. *)
Theorem detect_oneline_comment_n_block input_file prefix max_line_breaks :
  let n := detect_oneline_comment_n input_file prefix max_line_breaks in
  (n <= length input_file)%nat
  /\ (forall i line,
        (i < n)%nat -> input_file !! i = Some line ->
        strip line = "" \/ startswith (strip line) prefix = true)
  /\ (n = O \/ exists line, input_file !! (n - 1)%nat = Some line
                            /\ strip line <> ""
                            /\ startswith (strip line) prefix = true)
  /\ (blank_runs false (take n input_file) <= max_line_breaks)%nat.
Proof.
  intros n.
  destruct (oneline_loop_inv prefix max_line_breaks input_file [] 0 0 0
              (oneline_inv_start _ _))
    as (pre & lb & lbn & (Hlen & Hall & Hlast & Hruns & Hle & _) & [rest Hrest]).
  fold (detect_oneline_comment_n input_file prefix max_line_breaks) in *.
  fold n in Hlen, Hlast. simpl in Hrest. subst input_file.
  split_and!.
  - rewrite length_app. lia.
  - intros i line Hi Hl. rewrite lookup_app_l in Hl by lia.
    rewrite Forall_forall in Hall.
    destruct (Hall line) as [Hb|[_ Hc]%andb_true_iff].
    + by eapply list_elem_of_lookup_2.
    + left. by apply is_blank_spec.
    + by right.
  - destruct Hlast as [?|(line & Hl & [Hb Hp]%andb_true_iff)]; [by left|right].
    exists line. split_and!; [by apply lookup_app_l_Some| |done].
    apply negb_true_iff in Hb. intros Hs%is_blank_spec. congruence.
  - rewrite take_app_le by lia.
    etrans; [apply blank_runs_take|]. lia.
Qed.

(** X10. A run of comment lines at the start of the file, followed, after
    any number of blank lines, by the end of the file or by a line that
    is no comment: exactly the comment lines are counted. *)
Theorem detect_oneline_comment_n_header prefix max_line_breaks cs bs rest :
  Forall (fun line => is_comment prefix line = true) cs ->
  Forall (fun line => is_blank line = true) bs ->
  stops prefix rest ->
  detect_oneline_comment_n (cs ++ bs ++ rest) prefix max_line_breaks = length cs.
Proof.
  intros Hcs Hbs Hstop. unfold detect_oneline_comment_n.
  destruct cs as [|c cs].
  - simpl. by apply oneline_loop_trailing_blanks.
  - rewrite oneline_loop_comments by done.
    by rewrite oneline_loop_trailing_blanks.
Qed.

(** *** detect_comment_mode and detect_comment_n *)

Lemma detect_comment_mode_range input_file :
  detect_comment_mode input_file ∈ [0; 1; 2; 3].
Proof.
  induction input_file as [|x rest IH]; simpl; [by left|].
  repeat case_match; try done; by repeat constructor.
Qed.

Lemma detect_comment_mode_blanks bs rest :
  Forall (fun line => is_blank line = true) bs ->
  detect_comment_mode (bs ++ rest) = detect_comment_mode rest.
Proof.
  induction 1 as [|b bs Hb _ IH]; [done|]. unfold is_blank in Hb.
  cbn [app detect_comment_mode]. by rewrite Hb.
Qed.

(** *** detect_multiline_c_comment_n *)

Lemma str_index_0 s sub :
  str_index s sub = Some O <-> String.prefix sub s = true.
Proof.
  destruct s as [|c s]; cbn [str_index]; destruct (String.prefix sub _); try done.
  destruct (str_index s sub); done.
Qed.

Lemma find_begin_true line :
  find_begin line = Some true <-> startswith line "/*" = true.
Proof.
  unfold find_begin, startswith. rewrite <- str_index_0.
  destruct (str_index line "/*") as [[|pos]|]; simpl; split; done.
Qed.

(** The loop after the begin of the comment was found. *)
Lemma multiline_loop_begun rest : forall n n' hb he,
  multiline_loop rest n true = Some (n', hb, he) ->
  hb = true
  /\ if he
     then exists k last,
            n' = (n + k + 1)%nat /\ rest !! k = Some last
            /\ find_end (strip last) = Some true
            /\ forall j line, (j < k)%nat -> rest !! j = Some line ->
                              find_end (strip line) = Some false
     else n' = (n + length rest)%nat
          /\ Forall (fun line => find_end (strip line) = Some false) rest.
Proof.
  induction rest as [|x rest IH]; intros n n' hb he; simpl.
  - intros [= <- <- <-]. split; [done|]. split; [lia|done].
  - destruct (find_end (strip x)) as [[|]|] eqn:Hx; [| |done].
    + intros [= <- <- <-]. split; [done|]. exists O, x.
      split_and!; [lia|done..|]. intros j line Hj. lia.
    + intros [-> H]%IH. split; [done|]. destruct he.
      * destruct H as (k & last & -> & Hk & Hlast & Hbefore).
        exists (S k), last. split_and!; [lia|done..|].
        intros [|j] line Hj; simpl; [by intros [= <-]|].
        apply Hbefore. lia.
      * destruct H as [-> Hall]. split; [simpl; lia|by constructor].
Qed.

(** The loop from the start of the file. *)
Lemma multiline_loop_start rest : forall n n' he,
  multiline_loop rest n false = Some (n', true, he) ->
  exists b first,
    rest !! b = Some first
    /\ (forall i line, (i < b)%nat -> rest !! i = Some line -> is_blank line = true)
    /\ is_blank first = false
    /\ startswith (strip first) "/*" = true
    /\ match find_end (slice_from 2 (strip first)) with
       | Some true => he = true /\ n' = (n + b + 1)%nat
       | Some false =>
           exists n'' hb,
             multiline_loop (drop (S b) rest) (n + b + 1) true = Some (n'', hb, he)
             /\ n' = n''
       | None => False
       end.
Proof.
  induction rest as [|x rest IH]; intros n n' he; cbn [multiline_loop]; [done|].
  destruct (String.length (strip x) =? 0)%nat eqn:Hx.
  - intros (b & first & Hb & Hblank & Hfb & Hst & Hrest)%IH.
    exists (S b), first. split_and!; [done| |done|done|].
    + intros [|i] line Hi; simpl; [intros [= <-]; by unfold is_blank|].
      apply Hblank. lia.
    + replace (n + S b + 1)%nat with (n + 1 + b + 1)%nat by lia. done.
  - destruct (find_begin (strip x)) as [[|]|] eqn:Hbegin; [|done..].
    apply find_begin_true in Hbegin.
    destruct (find_end (slice_from 2 (strip x))) as [[|]|] eqn:Hend; [| |done].
    + intros [= <- <-]. exists O, x. rewrite Hend.
      split_and!; [done| |done|done|done|lia].
      intros i line Hi; lia.
    + intros Hloop. exists O, x. rewrite Hend.
      split_and!; [done| |done|done|].
      { intros i line Hi; lia. }
      exists n', true. rewrite Nat.add_0_r. simpl. rewrite drop_0.
      by split.
Qed.

Lemma multiline_loop_le rest : forall n hb n' hb' he,
  multiline_loop rest n hb = Some (n', hb', he) ->
  (n' <= n + length rest)%nat.
Proof.
  induction rest as [|x rest IH]; intros n hb n' hb' he; cbn [multiline_loop].
  - intros [= <- _ _]. simpl. lia.
  - repeat case_match; try done;
      try (intros [= <- _ _]; simpl; lia);
      intros Hle%IH; simpl; lia.
Qed.

(** X11. What [detect_multiline_c_comment_n] counts when it counts
    anything: blank lines, then a line that starts the comment with
    its first two characters, and the lines up to and including the
    first one that ends the comment, which ends it with its last two
    characters. *)
Theorem detect_multiline_c_comment_n_block input_file :
  let n := detect_multiline_c_comment_n input_file in
  (0 < n)%nat ->
  (n <= length input_file)%nat
  /\ exists b first,
       (b < n)%nat /\ input_file !! b = Some first
       /\ (forall i line, (i < b)%nat -> input_file !! i = Some line ->
                          strip line = "")
       /\ startswith (strip first) "/*" = true
       /\ if (n - 1 =? b)%nat
          then find_end (slice_from 2 (strip first)) = Some true
          else find_end (slice_from 2 (strip first)) = Some false
               /\ (forall i line, (b < i < n - 1)%nat -> input_file !! i = Some line ->
                                  find_end (strip line) = Some false)
               /\ exists last, input_file !! (n - 1)%nat = Some last
                               /\ find_end (strip last) = Some true.
Proof.
  intros n. subst n. unfold detect_multiline_c_comment_n.
  destruct (multiline_loop input_file 0 false) as [[[n hb] he]|] eqn:Hloop;
    [|simpl; lia].
  destruct hb; [|simpl; lia]. destruct he; [|simpl; lia]. simpl. intros Hn.
  split. { by apply multiline_loop_le in Hloop. }
  apply multiline_loop_start in Hloop
    as (b & first & Hb & Hblank & Hfirst & Hstart & Hend).
  exists b, first.
  assert (forall i line, (i < b)%nat -> input_file !! i = Some line ->
                         strip line = "") as Hblank'.
  { intros i line Hi Hl. by apply is_blank_spec, (Hblank i). }
  destruct (find_end (slice_from 2 (strip first))) as [[|]|] eqn:Hfe; [| |done].
  - destruct Hend as [_ ->]. simpl.
    replace (b + 1 - 1 =? b)%nat with true by (symmetry; apply Nat.eqb_eq; lia).
    split_and!; [lia|done..].
  - destruct Hend as (n'' & hb & Hloop & ->).
    apply multiline_loop_begun in Hloop as [_ (k & last & -> & Hk & Hlast & Hbefore)].
    rewrite lookup_drop in Hk. simpl.
    replace (b + 1 + k + 1 - 1 =? b)%nat with false
      by (symmetry; apply Nat.eqb_neq; lia).
    split_and!; [lia|done..| |].
    + intros i line [Hi1 Hi2] Hl. apply (Hbefore (i - S b)%nat); [lia|].
      rewrite lookup_drop. by replace (S b + (i - S b))%nat with i by lia.
    + exists last. split; [|done].
      by replace (b + 1 + k + 1 - 1)%nat with (S b + k)%nat by lia.
Qed.

Lemma str_index_String_None c s sub :
  str_index (String c s) sub = None -> str_index s sub = None.
Proof.
  cbn [str_index]. destruct (String.prefix sub (String c s)); [done|].
  by destruct (str_index s sub).
Qed.

Lemma str_index_slice_from k : forall s sub,
  str_index s sub = None -> str_index (slice_from k s) sub = None.
Proof.
  induction k as [|k IH]; intros [|c s] sub; simpl slice_from; try done.
  intros H%str_index_String_None. by apply IH.
Qed.

Lemma find_end_None_false line :
  str_index line "*/" = None -> find_end line = Some false.
Proof. unfold find_end. by intros ->. Qed.

Lemma multiline_loop_unterminated rest : forall n hb,
  Forall (fun line => str_index (strip line) "*/" = None) rest ->
  multiline_loop rest n hb = None
  \/ exists n' hb', multiline_loop rest n hb = Some (n', hb', false).
Proof.
  induction rest as [|x rest IH]; intros n hb Hall; cbn [multiline_loop].
  { right. by eexists _, _. }
  apply Forall_cons in Hall as [Hx Hall].
  destruct hb.
  - rewrite (find_end_None_false _ Hx). by apply IH.
  - destruct (String.length (strip x) =? 0)%nat; [by apply IH|].
    rewrite (find_end_None_false _ (str_index_slice_from 2 _ _ Hx)).
    destruct (find_begin (strip x)) as [[|]|]; [by apply IH| |by left].
    right. by eexists _, _.
Qed.

Lemma multiline_loop_blanks bs rest : forall n,
  Forall (fun line => is_blank line = true) bs ->
  multiline_loop (bs ++ rest) n false
  = multiline_loop rest (n + length bs) false.
Proof.
  induction bs as [|b bs IH]; intros n Hbs.
  - simpl. by rewrite Nat.add_0_r.
  - apply Forall_cons in Hbs as [Hb Hbs]. unfold is_blank in Hb.
    cbn [app multiline_loop]. rewrite Hb, IH by done. f_equal. simpl. lia.
Qed.

(** X12. Nothing is counted, so nothing will be removed, when the comment
    is not ended in the file, and when the line that starts the comment
    ends it before its end (code follows the comment on its line). *)
Theorem detect_multiline_c_comment_n_zero :
  (forall input_file,
      Forall (fun line => str_index (strip line) "*/" = None) input_file ->
      detect_multiline_c_comment_n input_file = O)
  /\ (forall bs first rest pos,
        Forall (fun line => strip line = "") bs ->
        strip first <> "" ->
        startswith (strip first) "/*" = true ->
        str_index (slice_from 2 (strip first)) "*/" = Some pos ->
        pos <> (String.length (slice_from 2 (strip first)) - 2)%nat ->
        detect_multiline_c_comment_n (bs ++ first :: rest) = O).
Proof.
  split.
  - intros input_file Hall. unfold detect_multiline_c_comment_n.
    destruct (multiline_loop_unterminated input_file 0 false Hall)
      as [->|(n' & hb' & ->)]; [done|].
    by rewrite orb_true_r.
  - intros bs first rest pos Hbs Hne Hstart Hpos Hnot.
    unfold detect_multiline_c_comment_n.
    rewrite multiline_loop_blanks.
    2:{ eapply Forall_impl; [exact Hbs|]. intros line. apply is_blank_spec. }
    cbn [multiline_loop].
    assert ((String.length (strip first) =? 0)%nat = false) as ->.
    { apply Nat.eqb_neq. by destruct (strip first). }
    rewrite (proj2 (find_begin_true _) Hstart).
    unfold find_end. rewrite Hpos.
    apply Nat.eqb_neq in Hnot. by rewrite Hnot.
Qed.

(** *** detect_comment_n *)

Lemma detect_comment_mode_first input_file :
  detect_comment_mode input_file <> 0 ->
  exists b first,
    input_file !! b = Some first
    /\ (forall i line, (i < b)%nat -> input_file !! i = Some line ->
                       strip line = "")
    /\ strip first <> ""
    /\ (startswith (strip first) "#" = true
        \/ startswith (strip first) "//" = true
        \/ startswith (strip first) "/*" = true).
Proof.
  induction input_file as [|x rest IH]; cbn [detect_comment_mode]; [done|].
  destruct (String.length (strip x) =? 0)%nat eqn:Hx.
  - intros (b & first & Hb & Hblank & Hrest)%IH.
    exists (S b), first. split_and!; [done| |apply Hrest..].
    intros [|i] line Hi; simpl.
    + intros [= <-]. apply Nat.eqb_eq in Hx. by destruct (strip x).
    + apply Hblank. lia.
  - intros Hmode. exists O, x. split_and!; [done| | |].
    + intros i line Hi. lia.
    + intros Hs. by rewrite Hs in Hx.
    + repeat case_match; tauto.
Qed.

Lemma detect_comment_n_bound input_file n :
  detect_comment_n input_file = Some n -> (n <= length input_file)%nat.
Proof.
  unfold detect_comment_n. repeat case_match; intros [= <-]; try lia.
  - destruct (oneline_loop_inv "#" 1 input_file [] 0 0 0 (oneline_inv_start _ _))
      as (pre & lb & lbn & (Hlen & _) & [rest Hrest]).
    unfold detect_shell_comment_n, detect_oneline_comment_n.
    simpl in Hrest. rewrite Hrest at 2. rewrite length_app. lia.
  - destruct (oneline_loop_inv "//" 1 input_file [] 0 0 0 (oneline_inv_start _ _))
      as (pre & lb & lbn & (Hlen & _) & [rest Hrest]).
    unfold detect_oneline_c_comment_n, detect_oneline_comment_n.
    simpl in Hrest. rewrite Hrest at 2. rewrite length_app. lia.
  - unfold detect_multiline_c_comment_n.
    destruct (multiline_loop input_file 0 false) as [[[n hb] he]|] eqn:Hloop;
      [|lia].
    apply multiline_loop_le in Hloop. destruct (negb hb || negb he); simpl in *; lia.
Qed.

Lemma detect_comment_n_Some input_file :
  exists n, detect_comment_n input_file = Some n.
Proof.
  unfold detect_comment_n.
  pose proof (detect_comment_mode_range input_file) as Hmode.
  repeat (apply elem_of_cons in Hmode as [->|Hmode]); try (by eexists).
  by apply elem_of_nil in Hmode.
Qed.

(** X13. [detect_comment_n] always returns a number ([max(a_n, b_n)] in
    [convert_difftool] cannot fail), at most the number of lines of
    the file; when it is not [0], the first line of the file that is
    not blank starts with [#], [//] or [/*]. *)
Theorem detect_comment_n_number input_file :
  exists n,
    detect_comment_n input_file = Some n
    /\ (n <= length input_file)%nat
    /\ (n <> O ->
        exists b first,
          input_file !! b = Some first
          /\ (forall i line, (i < b)%nat -> input_file !! i = Some line ->
                             strip line = "")
          /\ strip first <> ""
          /\ (startswith (strip first) "#" = true
              \/ startswith (strip first) "//" = true
              \/ startswith (strip first) "/*" = true)).
Proof.
  destruct (detect_comment_n_Some input_file) as [n Hn]. exists n.
  split_and!; [done|by apply detect_comment_n_bound|].
  intros Hne. apply detect_comment_mode_first. intros Hmode.
  unfold detect_comment_n in Hn. rewrite Hmode in Hn. simpl in Hn. congruence.
Qed.

Lemma oneline_loop_leading prefix bs c rest :
  Forall (fun line => is_blank line = true) bs ->
  is_comment prefix c = true ->
  (length bs + 1 <= oneline_loop prefix 1 (bs ++ c :: rest) 0 0 0)%nat.
Proof.
  intros Hbs Hc.
  assert (forall n lb lbn,
            oneline_loop prefix 1 (c :: rest) n lb lbn
            = oneline_loop prefix 1 rest (n + lbn + 1) lb 0) as Hcomment.
  { intros n lb lbn.
    apply (oneline_loop_comments prefix 1 [c] rest n lb lbn); [|done].
    by constructor. }
  destruct bs as [|b bs].
  - simpl app. rewrite Hcomment. etrans; [|apply oneline_loop_ge]. simpl. lia.
  - apply Forall_cons in Hbs as [Hb Hbs]. unfold is_blank in Hb.
    cbn [app oneline_loop]. rewrite Hb. simpl Nat.eqb. cbv iota.
    rewrite oneline_loop_blanks by (done || lia). rewrite Hcomment.
    etrans; [|apply oneline_loop_ge]. simpl. lia.
Qed.

(** X14. A file whose first line that is not blank starts with [#] (a
    shebang line too) or [//] loses that line and the blank lines
    before it. *)
Theorem detect_comment_n_leading bs c rest :
  Forall (fun line => strip line = "") bs ->
  strip c <> "" ->
  startswith (strip c) "#" = true \/ startswith (strip c) "//" = true ->
  exists n,
    detect_comment_n (bs ++ c :: rest) = Some n /\ (length bs + 1 <= n)%nat.
Proof.
  intros Hbs Hne Hc.
  assert (Forall (fun line => is_blank line = true) bs) as Hbs'.
  { eapply Forall_impl; [exact Hbs|]. intros line. apply is_blank_spec. }
  assert (is_blank c = false) as Hnb.
  { apply not_true_is_false. by intros ?%is_blank_spec. }
  unfold detect_comment_n. rewrite (detect_comment_mode_blanks _ _ Hbs').
  cbn [detect_comment_mode]. unfold is_blank in Hnb. rewrite Hnb.
  destruct (startswith (strip c) "#") eqn:Hsharp.
  - simpl. eexists. split; [done|].
    apply oneline_loop_leading; [done|].
    unfold is_comment, is_blank. by rewrite Hnb, Hsharp.
  - destruct Hc as [?|Hc]; [done|]. rewrite Hc. simpl. eexists. split; [done|].
    apply oneline_loop_leading; [done|].
    unfold is_comment, is_blank. by rewrite Hnb, Hc.
Qed.

(** *** remove_file_prefix, convert_all and convert_difftool *)

Lemma skip_lines_drop input_file : forall i remove_n,
  (i < remove_n)%nat ->
  skip_lines input_file i remove_n = drop (remove_n - i) input_file.
Proof.
  induction input_file as [|x rest IH]; intros i remove_n Hi; simpl.
  - by rewrite drop_nil.
  - destruct (i + 1 =? remove_n)%nat eqn:Heq.
    + apply Nat.eqb_eq in Heq. by replace (remove_n - i)%nat with 1%nat by lia.
    + apply Nat.eqb_neq in Heq. rewrite IH by lia.
      by replace (remove_n - i)%nat with (S (remove_n - (i + 1))) by lia.
Qed.

Lemma remove_file_prefix_drop input_file output_file remove_n add_n :
  remove_file_prefix input_file output_file remove_n add_n
  = (output_file ++ replicate add_n LF ++ drop remove_n input_file)%list.
Proof.
  unfold remove_file_prefix. rewrite <- app_assoc. do 2 f_equal.
  destruct remove_n as [|k]; [done|]. simpl negb. cbv iota.
  rewrite skip_lines_drop by lia. by rewrite Nat.sub_0_r.
Qed.

(** X15. [remove_file_prefix] leaves what was written before, writes
    [add_n] empty lines and then the lines of the input but the first
    [remove_n] (nothing when the input is shorter). *)
Theorem remove_file_prefix_spec input_file output_file remove_n add_n :
  remove_file_prefix input_file output_file remove_n add_n
  = (output_file ++ replicate add_n LF ++ drop remove_n input_file)%list
  /\ ((length input_file <= remove_n)%nat ->
      remove_file_prefix input_file output_file remove_n add_n
      = (output_file ++ replicate add_n LF)%list).
Proof.
  split; [apply remove_file_prefix_drop|].
  intros Hle. rewrite remove_file_prefix_drop, drop_ge by done.
  by rewrite app_nil_r.
Qed.


End difftool_facts.

(** *** Files that do not decode *)

Section decoding_facts.
Import difftool Decoding.








End decoding_facts.

(** ** cleanup-sources.py *)

Section cleanup_sources_PathMatcher.
Context (os : OS).

Lemma paths_loop_eq project_root paths : forall prefixes0 files0,
  cleanup_sources.paths_loop os project_root paths prefixes0 files0
  = ((prefixes0
      ++ List.filter (fun path => endswith path "/") paths)%list,
     (files0
      ++ (List.filter (fun path => negb (endswith path "/")) paths
          ≫= fun path =>
               if contains_char "*" path
               then map (fun i => relpath os i project_root)
                        (glob os (project_root +:+ "/" +:+ path))
               else [path]))%list).
Proof.
  induction paths as [|path paths IH]; intros prefixes0 files0; simpl.
  - by rewrite !app_nil_r.
  - destruct (endswith path "/"); simpl.
    + by rewrite IH, <- app_assoc.
    + destruct (contains_char "*" path); rewrite IH, <- app_assoc; done.
Qed.

(** X18. The matcher of [cleanup-sources.py] takes a pattern that ends in
    ["/"] as a prefix, whatever the file system holds: [matches] is
    true exactly when the path, made relative to the project root,
    starts with such a pattern, is a pattern without [*], or is a
    match of a glob pattern (any match: no file type is tested), made
    relative to the root.  So, with the project root ["/r"] as
    directory, the pattern ["a/b/"] matches ["a/b/c"] and not
    ["a/bx/c"], on every tree. *)
Theorem cleanup_sources_matches_spec abs_path project_root paths path :
  let self :=
    cleanup_sources.PathMatcher_init os abs_path project_root (SubList paths) in
  let project_path := relpath os (abs_path +:+ "/" +:+ path) project_root in
  (cleanup_sources.matches os self path = true
   <-> (exists pat, pat ∈ paths /\ endswith pat "/" = true
                    /\ startswith project_path pat = true)
       \/ (project_path ∈ paths
           /\ endswith project_path "/" = false
           /\ contains_char "*" project_path = false)
       \/ exists pat wild_file,
            pat ∈ paths /\ endswith pat "/" = false
            /\ contains_char "*" pat = true
            /\ wild_file ∈ glob os (project_root +:+ "/" +:+ pat)
            /\ project_path = relpath os wild_file project_root)
  /\ (forall fs,
        let tree := TreeFS.tree_os fs in
        let m := cleanup_sources.PathMatcher_init tree "/r" "/r" (SubList ["a/b/"]) in
        cleanup_sources.matches tree m "a/b/c" = true
        /\ cleanup_sources.matches tree m "a/bx/c" = false).
Proof.
  intros self project_path. split_and!.
  - subst self. unfold cleanup_sources.matches, cleanup_sources.PathMatcher_init.
    rewrite paths_loop_eq. simpl. fold project_path.
    destruct (matches_prefixes _ project_path) eqn:Hm.
    + split; [intros _|done]. left.
      apply matches_prefixes_spec in Hm as (prefix & Hin & Hs).
      apply list_elem_of_In, filter_In in Hin as [Hin Hend].
      exists prefix. by rewrite list_elem_of_In.
    + unfold in_list. rewrite bool_decide_eq_true, list_elem_of_bind. split.
      * intros (pat & Hx & Hin).
        apply list_elem_of_In, filter_In in Hin as [Hin Hend%negb_true_iff].
        apply list_elem_of_In in Hin.
        destruct (contains_char "*" pat) eqn:Hstar.
        -- apply list_elem_of_fmap in Hx as (w & Hx & Hw).
           right; right. by exists pat, w.
        -- apply list_elem_of_singleton in Hx as ->. right; left. done.
      * intros [(pat & Hin & Hend & Hs)|[(Hin & Hend & Hstar)
                                        |(pat & w & Hin & Hend & Hstar & Hw & Hx)]].
        -- exfalso. apply not_true_iff_false in Hm. apply Hm.
           apply matches_prefixes_spec. exists pat. split; [|done].
           apply list_elem_of_In, filter_In. by rewrite <- list_elem_of_In.
        -- exists project_path. rewrite Hstar. split; [left|].
           apply list_elem_of_In, filter_In. rewrite <- list_elem_of_In, Hend. done.
        -- exists pat. rewrite Hstar. split.
           ++ apply list_elem_of_fmap. by exists w.
           ++ apply list_elem_of_In, filter_In.
              rewrite <- list_elem_of_In, Hend. done.
  - intros fs. by vm_compute.
Qed.
End cleanup_sources_PathMatcher.

Section fix_eol_facts.
Import cleanup_sources.

Lemma list_ascii_of_string_app (s t : string) :
  list_ascii_of_string (s +:+ t)
  = (list_ascii_of_string s ++ list_ascii_of_string t)%list.
Proof. induction s as [|c s IH]; [done|]. simpl. by rewrite IH. Qed.

Lemma string_of_list_ascii_app (l k : list ascii) :
  string_of_list_ascii (l ++ k)
  = string_of_list_ascii l +:+ string_of_list_ascii k.
Proof. induction l as [|c l IH]; [done|]. simpl. by rewrite IH. Qed.

Local Abbreviation is_eol_space := (fun c => contains_char c eol_spaces = true).

Lemma drop_eol_spaces_spec l :
  exists ws,
    l = (ws ++ drop_eol_spaces l)%list
    /\ Forall is_eol_space ws
    /\ forall c, head (drop_eol_spaces l) = Some c ->
                 contains_char c eol_spaces = false.
Proof.
  induction l as [|c l (ws & Hl & Hws & Hhead)]; cbn [drop_eol_spaces].
  - exists []. split_and!; [done|constructor|done].
  - destruct (contains_char c eol_spaces) eqn:Hc; cbn [negb].
    + exists (c :: ws). split_and!; [|by constructor|done].
      cbn [app]. by f_equal.
    + exists []. split_and!; [done|constructor|]. by intros ? [= <-].
Qed.

Lemma drop_eol_spaces_idemp l :
  drop_eol_spaces (drop_eol_spaces l) = drop_eol_spaces l.
Proof.
  destruct (drop_eol_spaces_spec l) as (_ & _ & _ & Hhead).
  destruct (drop_eol_spaces l) as [|c k]; [done|]. cbn [drop_eol_spaces].
  by rewrite (Hhead c eq_refl).
Qed.

Lemma last_rev_head {A} (l : list A) : last (rev l) = head l.
Proof. destruct l as [|x l]; [done|]. simpl. by rewrite last_snoc. Qed.

Lemma fix_line_chars line :
  list_ascii_of_string (fix_line line)
  = (rev (drop_eol_spaces (rev (list_ascii_of_string line))) ++ ["010"%char])%list.
Proof.
  unfold fix_line.
  by rewrite list_ascii_of_string_app, list_ascii_of_string_of_list_ascii.
Qed.

Lemma fix_line_idemp line : fix_line (fix_line line) = fix_line line.
Proof.
  unfold fix_line at 1. rewrite fix_line_chars, rev_app_distr, rev_involutive.
  simpl. by rewrite drop_eol_spaces_idemp.
Qed.

Lemma endswith_fix_line line : endswith (fix_line line) LF = true.
Proof.
  unfold endswith. apply bool_decide_eq_true. rewrite fix_line_chars.
  by apply suffix_app_r.
Qed.

(** X19. [fix_line] cuts the trailing run of blanks, tabs, line feeds,
    carriage returns and vertical tabs from the line and ends it with
    one line feed; what stands before that run is kept as it is (a
    form feed at the end too); a fixed line stays as it is. *)
Theorem fix_line_spec line :
  (exists body ws,
      line = body +:+ ws
      /\ fix_line line = body +:+ LF
      /\ Forall is_eol_space (list_ascii_of_string ws)
      /\ forall c, last (list_ascii_of_string body) = Some c ->
                   contains_char c eol_spaces = false)
  /\ fix_line (fix_line line) = fix_line line
  /\ contains_char "012"%char eol_spaces = false.
Proof.
  split_and!; [|apply fix_line_idemp|done].
  destruct (drop_eol_spaces_spec (rev (list_ascii_of_string line)))
    as (ws & Hl & Hws & Hhead).
  set (kept := drop_eol_spaces (rev (list_ascii_of_string line))) in *.
  exists (string_of_list_ascii (rev kept)), (string_of_list_ascii (rev ws)).
  split_and!.
  - rewrite <- string_of_list_ascii_app, <- rev_app_distr, <- Hl, rev_involutive.
    by rewrite string_of_list_ascii_of_string.
  - done.
  - rewrite list_ascii_of_string_of_list_ascii. by apply Forall_rev.
  - intros c. rewrite list_ascii_of_string_of_list_ascii, last_rev_head. apply Hhead.
Qed.

Lemma fix_eol_loop_spec f : forall lines line_fixed,
  fix_eol_loop f lines line_fixed
  = ((lines ++ map (fun line => if endswith line LF then fix_line line else line) f)%list,
     match last f with
     | Some line => Some (endswith line LF)
     | None => line_fixed
     end).
Proof.
  induction f as [|line f IH]; intros lines line_fixed.
  - simpl. by rewrite app_nil_r.
  - assert (last (line :: f)
            = match last f with Some l => Some l | None => Some line end) as Hlast.
    { destruct f as [|line' f']; [done|]. cbn [last].
      destruct (last (line' :: f')) eqn:Hl; [done|]. by apply last_None in Hl. }
    cbn [fix_eol_loop map]. rewrite Hlast.
    destruct (endswith line LF) eqn:Hend; rewrite IH, <- app_assoc; cbn [app];
      f_equal; destruct (last f); by rewrite ?Hend.
Qed.

(** What [fix_eol_lines] does to each line. *)
Lemma fix_eol_lines_snoc f line :
  fix_eol_lines (f ++ [line])
  = (map (fun line => if endswith line LF then fix_line line else line) f
     ++ [fix_line line])%list.
Proof.
  unfold fix_eol_lines. rewrite fix_eol_loop_spec, last_snoc. simpl.
  rewrite map_app. simpl.
  destruct (endswith line LF) eqn:Hend; [done|].
  by rewrite List.last_last, removelast_last.
Qed.

Lemma read_lines_line b t :
  clean b -> read_lines (b +:+ LF +:+ t) = (b +:+ LF) :: read_lines t.
Proof.
  unfold clean. induction b as [|c b IH]; intros Hb; [done|].
  apply Forall_cons in Hb as [[Hlf Hcr] Hb].
  change (String c b +:+ LF +:+ t) with (String c (b +:+ LF +:+ t)).
  cbn [read_lines]. rewrite (IH Hb).
  apply Ascii.eqb_neq in Hlf, Hcr. by rewrite Hlf, Hcr.
Qed.

Lemma concat_empty_cons x xs :
  String.concat "" (x :: xs) = x +:+ String.concat "" xs.
Proof.
  destruct xs as [|y xs]; [|done]. cbn [String.concat].
  induction x as [|c x IH]; [done|]. rewrite app_String. by f_equal.
Qed.

Lemma read_lines_concat bodies :
  Forall clean bodies ->
  read_lines (String.concat "" (map (fun b => b +:+ LF) bodies))
  = map (fun b => b +:+ LF) bodies.
Proof.
  induction bodies as [|b bodies IH]; intros Hb; [done|].
  apply Forall_cons in Hb as [Hb Hbs]. cbn [map].
  rewrite concat_empty_cons, append_assoc, (read_lines_line _ _ Hb).
  by rewrite (IH Hbs).
Qed.

(** The lines of a text without carriage return. *)
Lemma read_lines_no_cr text :
  Forall (fun c : ascii => c <> "013"%char) (list_ascii_of_string text) ->
  exists bodies tl,
    read_lines text = (map (fun b => b +:+ LF) bodies ++ tl)%list
    /\ Forall clean bodies
    /\ (tl = [] \/ exists t, tl = [t] /\ clean t).
Proof.
  induction text as [|c text IH]; intros Htext.
  - exists [], []. split_and!; [done|constructor|by left].
  - apply Forall_cons in Htext as [Hcr Htext].
    destruct (IH Htext) as (bodies & tl & Hread & Hbodies & Htl).
    cbn [read_lines]. destruct (Ascii.eqb c "010") eqn:Hlf.
    + exists ("" :: bodies), tl. rewrite Hread. apply Ascii.eqb_eq in Hlf as ->.
      split_and!; [done| |done]. constructor; [constructor|done].
    + apply Ascii.eqb_neq in Hlf. pose proof Hcr as Hcr'.
      apply Ascii.eqb_neq in Hcr'. rewrite Hcr', Hread.
      destruct bodies as [|b bodies].
      * destruct Htl as [->|(t & -> & Ht)].
        -- exists [], [String c EmptyString].
           split_and!; [done|constructor|]. right. eexists. split; [done|].
           by repeat constructor.
        -- exists [], [String c t]. split_and!; [done|constructor|].
           right. eexists. split; [done|]. by constructor.
      * apply Forall_cons in Hbodies as [Hb Hbodies].
        exists (String c b :: bodies), tl.
        split_and!; [done| |done]. constructor; [by constructor|done].
Qed.

Lemma fix_eol_lines_all f :
  (forall i line, f !! i = Some line -> S i <> length f ->
                  endswith line LF = true) ->
  fix_eol_lines f = map fix_line f.
Proof.
  destruct f as [|x f _] using rev_ind; [done|].
  intros Hends. rewrite fix_eol_lines_snoc, map_app. f_equal.
  apply map_ext_in. intros line [i Hi]%list_elem_of_In%list_elem_of_lookup.
  rewrite (Hends i line); [done|by apply lookup_app_l_Some|].
  apply lookup_lt_Some in Hi. rewrite length_app. simpl. lia.
Qed.

Lemma endswith_LF b : endswith (b +:+ LF) LF = true.
Proof.
  unfold endswith. apply bool_decide_eq_true.
  rewrite list_ascii_of_string_app. by apply suffix_app_r.
Qed.

(** A fixed line: what stands before its line feed. *)
Lemma fix_line_clean line b :
  clean b -> line = b \/ line = b +:+ LF ->
  exists b', clean b' /\ fix_line line = b' +:+ LF.
Proof.
  unfold clean. intros Hb Hline.
  destruct (drop_eol_spaces_spec (rev (list_ascii_of_string line)))
    as (ws & Hl & Hws & Hhead).
  set (kept := drop_eol_spaces (rev (list_ascii_of_string line))) in *.
  exists (string_of_list_ascii (rev kept)). split; [|done].
  rewrite list_ascii_of_string_of_list_ascii.
  apply (f_equal (@rev ascii)) in Hl. rewrite rev_involutive, rev_app_distr in Hl.
  destruct Hline as [->| ->].
  - rewrite Hl in Hb. by apply Forall_app in Hb as [Hb _].
  - rewrite list_ascii_of_string_app in Hl. simpl in Hl.
    destruct ws as [|w ws]; simpl in Hl.
    + rewrite app_nil_r in Hl.
      assert (head kept = Some "010"%char) as Hk.
      { rewrite <- last_rev_head, <- Hl. by rewrite last_snoc. }
      by specialize (Hhead _ Hk).
    + rewrite app_assoc in Hl. apply app_inj_tail in Hl as [Hl _].
      rewrite Hl in Hb. by apply Forall_app in Hb as [Hb _].
Qed.

Lemma fix_lines_clean lines :
  Forall (fun line => exists b, clean b /\ (line = b \/ line = b +:+ LF)) lines ->
  exists bodies,
    Forall clean bodies /\ map fix_line lines = map (fun b => b +:+ LF) bodies.
Proof.
  induction 1 as [|line lines (b & Hb & Hline) _ (bodies & Hbodies & Hmap)].
  - by exists [].
  - destruct (fix_line_clean line b Hb Hline) as (b' & Hb' & Hfix).
    exists (b' :: bodies). split; [by constructor|]. simpl. by rewrite Hfix, Hmap.
Qed.

(** For a text without carriage return, what [fix_eol] writes. *)
Lemma fix_eol_text_no_cr text :
  Forall (fun c : ascii => c <> "013"%char) (list_ascii_of_string text) ->
  exists bodies,
    Forall clean bodies
    /\ fix_eol_lines (read_lines text) = map (fun b => b +:+ LF) bodies
    /\ fix_eol_lines (read_lines text) = map fix_line (read_lines text).
Proof.
  intros (bodies & tl & Hread & Hbodies & Htl)%read_lines_no_cr.
  assert (fix_eol_lines (read_lines text) = map fix_line (read_lines text))
    as Hall.
  { rewrite Hread. apply fix_eol_lines_all. intros i line Hi Hne.
    apply lookup_app_Some in Hi as [Hi|[Hge Hi]].
    + apply list_lookup_fmap_Some in Hi as (b & -> & _). apply endswith_LF.
    + destruct Htl as [->|(t & -> & Ht)]; [done|].
      apply list_lookup_singleton_Some in Hi as [Hi _].
      rewrite length_app in Hne. simpl in Hne. lia. }
  rewrite Hall.
  destruct (fix_lines_clean (read_lines text)) as (bodies' & Hb' & Hmap).
  { rewrite Hread. apply Forall_app. split.
    + apply Forall_fmap. eapply Forall_impl; [exact Hbodies|].
      intros b Hb. exists b. split; [done|by right].
    + destruct Htl as [->|(t & -> & Ht)]; [constructor|].
      constructor; [|constructor]. exists t. split; [done|by left]. }
  by exists bodies'.
Qed.

(** X20. [fix_eol] keeps the number of lines; it fixes every line that
    ends with a line feed and the last line in any case, and keeps the
    others (lines ended by a lone carriage return); so the text it
    writes ends with a line feed.  For a text without carriage return
    the lines of the text written are the lines computed, and running
    [fix_eol] on its own result changes nothing.  With a carriage
    return this fails: the two lines ['a\r'] and [' \n'] are written
    as ['a\r\n'], which the next run reads as one line and writes
    as ['a\n']. *)
Theorem fix_eol_lines_spec f :
  length (fix_eol_lines f) = length f
  /\ (forall i line,
        f !! i = Some line ->
        fix_eol_lines f !! i
        = Some (if endswith line LF || bool_decide (S i = length f)
                then fix_line line else line))
  /\ (forall line, last (fix_eol_lines f) = Some line -> endswith line LF = true)
  /\ (forall text,
        Forall (fun c : ascii => c <> "013"%char) (list_ascii_of_string text) ->
        read_lines (fix_eol_text text) = fix_eol_lines (read_lines text)
        /\ fix_eol_text (fix_eol_text text) = fix_eol_text text)
  /\ (read_lines text_cr = [String "a" (String "013" ""); String " " LF]
      /\ fix_eol_text text_cr = String "a" (String "013" LF)
      /\ fix_eol_text (fix_eol_text text_cr) = String "a" LF
      /\ fix_eol_text (fix_eol_text text_cr) <> fix_eol_text text_cr).
Proof.
  split_and!.
  - destruct f as [|x f _] using rev_ind; [done|].
    rewrite !fix_eol_lines_snoc, !length_app, length_map. done.
  - destruct f as [|x f _] using rev_ind; [done|].
    rewrite !fix_eol_lines_snoc.
    intros i line Hi. rewrite length_app. simpl.
    apply lookup_app_Some in Hi as [Hi|[Hge Hi]].
    + rewrite lookup_app_l by (rewrite length_map; by eapply lookup_lt_Some).
      rewrite list_lookup_fmap, Hi. simpl.
      apply lookup_lt_Some in Hi.
      rewrite bool_decide_eq_false_2 by lia. by rewrite orb_false_r.
    + apply list_lookup_singleton_Some in Hi as [Hi <-].
      rewrite lookup_app_r by (rewrite length_map; lia).
      rewrite length_map. replace (i - length f)%nat with O by lia. simpl.
      rewrite bool_decide_eq_true_2 by lia. by rewrite orb_true_r.
  - destruct f as [|x f _] using rev_ind; [done|].
    rewrite !fix_eol_lines_snoc.
    intros line. rewrite last_snoc. intros [= <-]. apply endswith_fix_line.
  - intros text (bodies & Hbodies & Hlines & Hall)%fix_eol_text_no_cr.
    assert (read_lines (fix_eol_text text) = fix_eol_lines (read_lines text))
      as Hread.
    { unfold fix_eol_text. rewrite Hlines. by apply read_lines_concat. }
    split; [done|].
    unfold fix_eol_text at 1. rewrite Hread. unfold fix_eol_text. f_equal.
    rewrite Hlines at 1. rewrite fix_eol_lines_all.
    + rewrite <- Hlines, Hall, map_map. apply map_ext. intros line.
      apply fix_line_idemp.
    + intros i line (b & -> & _)%list_lookup_fmap_Some _. apply endswith_LF.
  - by vm_compute.
  - by vm_compute.
  - by vm_compute.
  - by vm_compute.
Qed.
End fix_eol_facts.

Section cleanup_exe_facts.
Import cleanup_sources.

(** X21. [fix_exe] clears the three execute bits and nothing else: the new
    mode has no execute bit, every other bit and with them the file
    type are those of the old mode, and a mode without execute bit is
    not changed. *)
Theorem new_perms_spec st_mode :
  has_exe (new_perms st_mode) = false
  /\ (forall i, 0 <= i ->
        Z.testbit (new_perms st_mode) i
        = if (i =? 0) || (i =? 3) || (i =? 6) then false
          else Z.testbit st_mode i)
  /\ S_IFMT (new_perms st_mode) = S_IFMT st_mode
  /\ (has_exe st_mode = false -> new_perms st_mode = st_mode)
  /\ new_perms (new_perms st_mode) = new_perms st_mode.
Proof.
  unfold has_exe, new_perms, S_IFMT. split_and!.
  - rewrite Z.land_comm, <- Z.land_assoc, (Z.land_comm (Z.lnot _)).
    by rewrite Z.land_lnot_diag, Z.land_0_r.
  - intros i Hi. rewrite Z.land_spec, Z.lnot_spec by done.
    assert (Z.testbit exe_perms i = (i =? 0) || (i =? 3) || (i =? 6)) as ->.
    { destruct (Z_lt_le_dec i 7) as [Hlt|Hge].
      - assert (i = 0 \/ i = 1 \/ i = 2 \/ i = 3 \/ i = 4 \/ i = 5 \/ i = 6)
          as Hcases by lia.
        repeat (destruct Hcases as [-> |Hcases]; [done|]). by subst.
      - rewrite Z.bits_above_log2;
          [|done|change (Z.log2 exe_perms) with 6; lia].
        symmetry. rewrite !orb_false_iff, !Z.eqb_neq. lia. }
    destruct ((i =? 0) || (i =? 3) || (i =? 6)); simpl;
      [apply andb_false_r|apply andb_true_r].
  - rewrite <- Z.land_assoc. done.
  - intros Hno%negb_false_iff%Z.eqb_eq.
    rewrite <- (Z.land_m1_r st_mode) at 2.
    rewrite <- (Z.lor_lnot_diag exe_perms), Z.land_lor_distr_r.
    by rewrite (Z.land_comm st_mode exe_perms), Hno, Z.lor_0_l.
  - by rewrite <- Z.land_assoc, Z.land_diag.
Qed.
End cleanup_exe_facts.

(** ** parse-compiler-arguments.py *)

Section parse_compiler_arguments_facts.
Import parse_compiler_arguments.

Lemma get_nexts_suffix k : forall extra values rest,
  get_nexts k extra = Done (values, rest) ->
  exists taken, extra = (taken ++ rest)%list /\ length taken = k.
Proof.
  induction k as [|k IH]; intros extra values rest; simpl.
  - intros [= <- <-]. by exists [].
  - destruct extra as [|v extra]; [done|]. simpl.
    destruct (get_nexts k extra) as [[vs r]|] eqn:Hk; [|done].
    intros [= <- <-]. destruct (IH _ _ _ Hk) as (taken & -> & <-).
    by exists (v :: taken).
Qed.

Lemma get_nexts_app k : forall extra values rest more,
  get_nexts k extra = Done (values, rest) ->
  get_nexts k (extra ++ more) = Done (values, (rest ++ more)%list).
Proof.
  induction k as [|k IH]; intros extra values rest more; simpl.
  - by intros [= <- <-].
  - destruct extra as [|v extra]; [done|]. simpl.
    destruct (get_nexts k extra) as [[vs r]|] eqn:Hk; [|done].
    intros [= <- <-]. by rewrite (IH _ _ _ more Hk).
Qed.

(** One turn takes the argument and at most one value. *)
Lemma step_suffix curdir e rest st rest' st' :
  step curdir e rest st = Done (rest', st') ->
  rest' = rest \/ exists value, rest = value :: rest'.
Proof.
  unfold step.
  destruct (startswith e "-I").
  { destruct (String.length e =? 2)%nat.
    - destruct rest as [|v rest0]; [done|]. simpl. intros [= <- _].
      right. by exists v.
    - intros [= <- _]. by left. }
  destruct (String.eqb e "-isystem").
  { destruct rest as [|v rest0]; [done|]. simpl. intros [= <- _].
    right. by exists v. }
  destruct (startswith e "-D").
  { destruct (String.length e =? 2)%nat.
    - destruct rest as [|v rest0]; [done|]. simpl.
      destruct (split_eq v). intros [= <- _]. right. by exists v.
    - destruct (split_eq _). intros [= <- _]. by left. }
  unfold opt_infos.
  destruct (String.eqb e "-o"); [|destruct (String.eqb e "-MF")].
  - destruct rest as [|v rest0]; [done|]. simpl. intros [= <- _]. right. by exists v.
  - destruct rest as [|v rest0]; [done|]. simpl. intros [= <- _]. right. by exists v.
  - intros [= <- _]. by left.
Qed.

(** More arguments behind do not change a turn that succeeds. *)
Lemma step_app curdir e rest st rest' st' more :
  step curdir e rest st = Done (rest', st') ->
  step curdir e (rest ++ more) st = Done ((rest' ++ more)%list, st').
Proof.
  unfold step.
  destruct (startswith e "-I").
  { destruct (String.length e =? 2)%nat.
    - destruct rest as [|v rest0]; [done|]. simpl. by intros [= <- <-].
    - by intros [= <- <-]. }
  destruct (String.eqb e "-isystem").
  { destruct rest as [|v rest0]; [done|]. simpl. by intros [= <- <-]. }
  destruct (startswith e "-D").
  { destruct (String.length e =? 2)%nat.
    - destruct rest as [|v rest0]; [done|]. simpl.
      destruct (split_eq v). by intros [= <- <-].
    - destruct (split_eq _). by intros [= <- <-]. }
  destruct (opt_infos e) as [k|]; [|by intros [= <- <-]].
  destruct (get_nexts k rest) as [[vs r]|] eqn:Hk; [|done].
  intros [= <- <-]. by rewrite (get_nexts_app _ _ _ _ more Hk).
Qed.

(** A turn fails only for an argument that needs a value and is the
    last one. *)
Lemma step_AttributeError curdir e rest st m :
  step curdir e rest st = AttributeError m ->
  m = "Not enough arguments" /\ rest = [] /\ needs_value e = true.
Proof.
  unfold step.
  destruct (startswith e "-I") eqn:HI.
  { destruct (String.length e =? 2)%nat eqn:Hlen; [|done].
    destruct rest as [|v rest0]; [|done]. simpl. intros [= <-].
    split_and!; [done..|].
    destruct e as [|a [|b [|c e]]]; try done.
    apply startswith_spec in HI as [r Hr]. by injection Hr as -> -> _. }
  destruct (String.eqb e "-isystem") eqn:Hsys.
  { apply String.eqb_eq in Hsys as ->.
    destruct rest as [|v rest0]; [|done]. simpl. by intros [= <-]. }
  destruct (startswith e "-D") eqn:HD.
  { destruct (String.length e =? 2)%nat eqn:Hlen.
    - destruct rest as [|v rest0]; [|simpl; by destruct (split_eq v)].
      simpl. intros [= <-]. split_and!; [done..|].
      destruct e as [|a [|b [|c e]]]; try done.
      apply startswith_spec in HD as [r Hr]. by injection Hr as -> -> _.
    - by destruct (split_eq _). }
  unfold opt_infos.
  destruct (String.eqb e "-o") eqn:Ho; [|destruct (String.eqb e "-MF") eqn:HMF].
  - apply String.eqb_eq in Ho as ->.
    destruct rest as [|v rest0]; [|done]. simpl. by intros [= <-].
  - apply String.eqb_eq in HMF as ->.
    destruct rest as [|v rest0]; [|done]. simpl. by intros [= <-].
  - done.
Qed.

Lemma step_length curdir e rest st rest' st' :
  step curdir e rest st = Done (rest', st') -> (length rest' <= length rest)%nat.
Proof.
  intros [->|[v ->]]%step_suffix; simpl; lia.
Qed.

(** With more turns allowed than arguments the loop ends. *)
Lemma loop_enough fuel : forall curdir extra st,
  (length extra < fuel)%nat -> exists r, loop fuel curdir extra st = Some r.
Proof.
  induction fuel as [|fuel IH]; intros curdir extra st Hlen; [lia|]. simpl.
  destruct extra as [|e rest]; [by eexists|].
  destruct (step curdir e rest st) as [[rest' st']|m] eqn:Hstep; [|by eexists].
  apply IH. apply step_length in Hstep. simpl in Hlen. lia.
Qed.

Lemma loop_fuel fuel : forall curdir extra st r fuel',
  loop fuel curdir extra st = Some r -> (fuel <= fuel')%nat ->
  loop fuel' curdir extra st = Some r.
Proof.
  induction fuel as [|fuel IH]; intros curdir extra st r fuel' Hr Hle; [done|].
  destruct fuel' as [|fuel']; [lia|]. simpl in *.
  destruct extra as [|e rest]; [done|].
  destruct (step curdir e rest st) as [[rest' st']|m]; [|done].
  apply (IH _ _ _ _ _ Hr). lia.
Qed.

Lemma loop_fuel_eq fuel1 fuel2 curdir extra st :
  (length extra < fuel1)%nat -> (length extra < fuel2)%nat ->
  loop fuel1 curdir extra st = loop fuel2 curdir extra st.
Proof.
  intros H1 H2. destruct (loop_enough fuel1 curdir extra st H1) as [r Hr].
  rewrite Hr. symmetry.
  destruct (Nat.le_ge_cases fuel1 fuel2) as [Hle|Hge].
  - by apply (loop_fuel fuel1).
  - destruct (loop_enough fuel2 curdir extra st H2) as [r' Hr'].
    rewrite Hr'. pose proof (loop_fuel _ _ _ _ _ _ Hr' Hge). congruence.
Qed.

(** After arguments that were read completely the loop goes on with
    the arguments behind them. *)
Lemma loop_app fuel : forall curdir pre st st' more fuel',
  loop fuel curdir pre st = Some (Done st') ->
  (length (pre ++ more) < fuel')%nat ->
  loop fuel' curdir (pre ++ more) st
  = loop (S (length more)) curdir more st'.
Proof.
  induction fuel as [|fuel IH]; intros curdir pre st st' more fuel' Hpre Hlen;
    [done|].
  simpl in Hpre. destruct pre as [|e pre].
  - injection Hpre as <-. simpl app. apply loop_fuel_eq; simpl in *; lia.
  - destruct (step curdir e pre st) as [[rest' st1]|m] eqn:Hstep; [|done].
    destruct fuel' as [|fuel']; [simpl in Hlen; lia|].
    cbn [app loop]. rewrite (step_app _ _ _ _ _ _ more Hstep).
    apply (IH _ _ _ _ _ _ Hpre).
    apply step_length in Hstep. rewrite length_app in *. simpl in Hlen. lia.
Qed.

Lemma parse_app args_curdir pre st more :
  parse args_curdir pre = Some (Done st) ->
  parse args_curdir (pre ++ more)
  = loop (S (length more)) (curdir_of args_curdir) more st.
Proof.
  intros Hpre. unfold parse in *. apply (loop_app _ _ _ _ _ _ _ Hpre). lia.
Qed.

Lemma loop_AttributeError fuel : forall curdir extra st m,
  loop fuel curdir extra st = Some (AttributeError m) ->
  m = "Not enough arguments"
  /\ exists e, last extra = Some e /\ needs_value e = true.
Proof.
  induction fuel as [|fuel IH]; intros curdir extra st m; [done|]. simpl.
  destruct extra as [|e rest]; [done|].
  destruct (step curdir e rest st) as [[rest' st']|m'] eqn:Hstep.
  - intros [-> (e' & Hlast & Hneeds)]%IH. split; [done|]. exists e'.
    split; [|done]. rewrite last_cons.
    apply step_suffix in Hstep as [->|[v ->]].
    + by rewrite Hlast.
    + rewrite last_cons, Hlast. done.
  - intros [= ->]. apply step_AttributeError in Hstep as (-> & -> & Hneeds).
    split; [done|]. by exists e.
Qed.

(** X22. The loop over the arguments ends.  It raises only ['Not enough
    arguments'], and only when the last argument is one of [-I],
    [-isystem], [-D], [-o] and [-MF]; behind arguments that were read
    without an exception, such an argument as the last one does raise
    it, and any other last argument does not. *)
Theorem parse_not_enough_arguments args_curdir extra :
  (exists r, parse args_curdir extra = Some r)
  /\ (forall m,
        parse args_curdir extra = Some (AttributeError m) ->
        m = "Not enough arguments"
        /\ exists e, last extra = Some e /\ needs_value e = true)
  /\ (forall st e,
        parse args_curdir extra = Some (Done st) ->
        if needs_value e
        then parse args_curdir (extra ++ [e])
             = Some (AttributeError "Not enough arguments")
        else exists st', parse args_curdir (extra ++ [e]) = Some (Done st')).
Proof.
  split_and!.
  - apply loop_enough. lia.
  - intros m. apply loop_AttributeError.
  - intros st e Hpre. rewrite (parse_app _ _ _ [e] Hpre). simpl.
    destruct (step (curdir_of args_curdir) e [] st) as [[rest' st']|m] eqn:Hstep.
    + assert (rest' = []) as ->.
      { by apply step_suffix in Hstep as [->|[v [=]]]. }
      assert (needs_value e = false) as ->; [|by exists st'].
      apply not_true_is_false. intros Hneeds.
      unfold needs_value, in_list in Hneeds.
      apply bool_decide_eq_true in Hneeds.
      repeat (apply elem_of_cons in Hneeds as [->|Hneeds]); try done.
      by apply elem_of_nil in Hneeds.
    + by apply step_AttributeError in Hstep as (-> & _ & ->).
Qed.

Lemma split_eq_no_eq define :
  contains_char "=" define = false -> split_eq define = (define, None).
Proof.
  induction define as [|c s IH]; [done|]. simpl.
  rewrite Ascii.eqb_sym. destruct (Ascii.eqb "=" c); [done|].
  intros H. by rewrite (IH H).
Qed.

Lemma split_eq_first key value :
  contains_char "=" key = false ->
  split_eq (key +:+ "=" +:+ value) = (key, Some value).
Proof.
  induction key as [|c s IH]; [done|]. rewrite app_String. simpl.
  rewrite Ascii.eqb_sym. destruct (Ascii.eqb "=" c); [done|].
  intros H. by rewrite (IH H).
Qed.

Lemma loop_step fuel curdir e rest st rest' st' :
  step curdir e rest st = Done (rest', st') ->
  loop (S fuel) curdir (e :: rest) st = loop fuel curdir rest' st'.
Proof. intros Hstep. simpl. by rewrite Hstep. Qed.

(** The turn for [-Ivalue] and for [-I] followed by [value]. *)
Lemma step_I curdir value rest st :
  value <> "" ->
  let st' := {| includes := {[rel_include curdir value]} ∪ includes st;
                system_includes := system_includes st;
                defines := defines st; others := others st |} in
  step curdir ("-I" +:+ value) rest st = Done (rest, st')
  /\ step curdir "-I" (value :: rest) st = Done (rest, st').
Proof.
  intros Hne st'. split; [|done].
  change ("-I" +:+ value) with (String "-" (String "I" value)).
  unfold step, startswith. cbn [String.prefix String.length Nat.eqb slice_from].
  destruct value as [|c value]; [done|]. by simpl.
Qed.

(** The turn for [-Ddefine] and for [-D] followed by [define]. *)
Lemma step_D curdir define rest st :
  define <> "" ->
  let st' := {| includes := includes st;
                system_includes := system_includes st;
                defines := <[(split_eq define).1 := (split_eq define).2]>
                             (defines st);
                others := others st |} in
  step curdir ("-D" +:+ define) rest st = Done (rest, st')
  /\ step curdir "-D" (define :: rest) st = Done (rest, st').
Proof.
  intros Hne st'. split.
  - change ("-D" +:+ define) with (String "-" (String "D" define)).
    unfold step, startswith.
    cbn [String.prefix String.length Nat.eqb slice_from].
    destruct define as [|c define]; [done|]. subst st'. simpl.
    by destruct (Ascii.eqb c "="), (split_eq define).
  - subst st'. unfold step. simpl. by destruct (split_eq define).
Qed.

(** X23. An include path or a definition may be joined to its option or be
    the next argument: [-Ipath] is read as [-I path] and [-Ddef] as
    [-D def]. *)
Theorem parse_joined_option args_curdir pre st value rest :
  parse args_curdir pre = Some (Done st) ->
  value <> "" ->
  parse args_curdir (pre ++ ("-I" +:+ value) :: rest)
  = parse args_curdir (pre ++ "-I" :: value :: rest)
  /\ parse args_curdir (pre ++ ("-D" +:+ value) :: rest)
     = parse args_curdir (pre ++ "-D" :: value :: rest).
Proof.
  intros Hpre Hne. rewrite !(parse_app _ _ _ _ Hpre). cbn [length].
  destruct (step_I (curdir_of args_curdir) value rest st Hne) as [HI1 HI2].
  destruct (step_D (curdir_of args_curdir) value rest st Hne) as [HD1 HD2].
  rewrite (loop_step _ _ _ _ _ _ _ HI1), (loop_step _ _ _ _ _ _ _ HI2).
  rewrite (loop_step _ _ _ _ _ _ _ HD1), (loop_step _ _ _ _ _ _ _ HD2).
  split; apply loop_fuel_eq; lia.
Qed.

(** X24. A definition is split at its first [=]: [-DKEY=VALUE] sets the key
    to the value, which may hold further [=], and [-DKEY] sets it to
    [None]; as the definitions are kept in a dictionary, a later
    definition of a key replaces an earlier one. *)
Theorem parse_define args_curdir pre st key :
  parse args_curdir pre = Some (Done st) ->
  key <> "" ->
  contains_char "=" key = false ->
  (exists st',
      parse args_curdir (pre ++ ["-D" +:+ key]) = Some (Done st')
      /\ defines st' = <[key := None]> (defines st)
      /\ includes st' = includes st /\ others st' = others st)
  /\ (forall value,
        exists st',
          parse args_curdir (pre ++ ["-D" +:+ key +:+ "=" +:+ value])
          = Some (Done st')
          /\ defines st' = <[key := Some value]> (defines st))
  /\ (forall value1 value2,
        exists st',
          parse args_curdir
            (pre ++ ["-D" +:+ key +:+ "=" +:+ value1;
                     "-D" +:+ key +:+ "=" +:+ value2])
          = Some (Done st')
          /\ defines st' !! key = Some (Some value2)).
Proof.
  intros Hpre Hne Hkey.
  assert (forall value, key +:+ "=" +:+ value <> "") as Hne'.
  { intros value. by destruct key. }
  split_and!.
  - rewrite (parse_app _ _ _ _ Hpre). cbn [length].
    rewrite (loop_step _ _ _ _ _ _ _ (proj1 (step_D _ key [] st Hne))).
    rewrite (split_eq_no_eq _ Hkey). by eexists.
  - intros value. rewrite (parse_app _ _ _ _ Hpre). cbn [length].
    rewrite (loop_step _ _ _ _ _ _ _ (proj1 (step_D _ _ [] st (Hne' value)))).
    rewrite (split_eq_first _ _ Hkey). by eexists.
  - intros value1 value2. rewrite (parse_app _ _ _ _ Hpre). cbn [length].
    rewrite (loop_step _ _ _ _ _ _ _ (proj1 (step_D _ _ _ st (Hne' value1)))).
    rewrite (loop_step _ _ _ _ _ _ _ (proj1 (step_D _ _ [] _ (Hne' value2)))).
    rewrite !(split_eq_first _ _ Hkey).
    eexists. split; [done|]. simpl. by rewrite lookup_insert_eq.
Qed.

Lemma slice_from_length (s t : string) :
  slice_from (String.length s) (s +:+ t) = t.
Proof. induction s as [|c s IH]; [by destruct t|]. by simpl. Qed.

(** X25. [curdir] is [args.curdir] itself when that ends with a
    separator and [args.curdir] with a separator appended otherwise, so
    it always ends with one and only paths inside the current directory
    are shortened: such a path loses the directory, any other path (as
    [/a/bc/x] for the directory [/a/b]) is kept. *)
Theorem rel_include_spec args_curdir :
  curdir_of None = None
  /\ curdir_of (Some args_curdir)
     = Some (if endswith args_curdir "/" then args_curdir
             else args_curdir +:+ "/")
  /\ curdir_of (Some "/a/b/") = Some "/a/b/"
  /\ curdir_of (Some "/a/b") = Some "/a/b/"
  /\ exists curdir,
       curdir_of (Some args_curdir) = Some curdir
       /\ (curdir = args_curdir \/ curdir = args_curdir +:+ "/")
       /\ endswith curdir "/" = true
       /\ (forall path, rel_include (Some curdir) (curdir +:+ path) = path)
       /\ (forall include,
             startswith include curdir = false ->
             rel_include (Some curdir) include = include)
       /\ (forall include, rel_include (curdir_of None) include = include)
       /\ rel_include (curdir_of (Some "/a/b")) "/a/bc/x" = "/a/bc/x".
Proof.
  assert (forall c path, rel_include (Some c) (c +:+ path) = path) as Hin.
  { intros c path. unfold rel_include.
    rewrite (proj2 (startswith_spec _ _)) by by exists path.
    apply slice_from_length. }
  assert (forall c include, startswith include c = false ->
                            rel_include (Some c) include = include) as Hout.
  { intros c include Hs. unfold rel_include. by rewrite Hs. }
  split; [done|]. split.
  { unfold curdir_of. by destruct (endswith args_curdir "/"). }
  split; [by vm_compute|]. split; [by vm_compute|].
  unfold curdir_of. destruct (endswith args_curdir "/") eqn:Hend; simpl.
  - exists args_curdir. split_and!; [done|by left|done|apply Hin|apply Hout|done|].
    by vm_compute.
  - exists (args_curdir +:+ "/").
    split_and!; [done|by right| |apply Hin|apply Hout|done|by vm_compute].
    unfold endswith. apply bool_decide_eq_true.
    rewrite list_ascii_of_string_app. by apply suffix_app_r.
Qed.
End parse_compiler_arguments_facts.

(** ** Instances on the examples *)

Section more_scenarios.
Import TreeFS Fixtures Examples difftool.

Lemma find_unique_paths_no_excluded_component_witness :
  "d" ∉ [".git"; "locked"].
Proof.
  refine (find_unique_paths_no_excluded_component fs_mixed "/top"
            [".git"; "locked"] 4 dir_top ["d/g"; "f"] _ _ _ _ "d/g" "d" _ _).
  - reflexivity.
  - reflexivity.
  - vm_compute. lia.
  - reflexivity.
  - set_solver.
  - vm_compute. set_solver.
Defined.

Lemma find_unique_paths_through_directories_witness :
  exists st_mode,
    lstat (tree_os fs_mixed) (tree_abspath "/top" +:+ "/" +:+ String.concat "/" ["d"])
    = Ok st_mode
    /\ S_ISDIR st_mode = true /\ S_ISLNK st_mode = false.
Proof.
  refine (find_unique_paths_through_directories fs_mixed "/top"
            [".git"; "locked"] 4 dir_top ["d/g"; "f"] _ _ _ _
            "d/g" ["d"] ["g"] _ _ _ _).
  - reflexivity.
  - reflexivity.
  - vm_compute. lia.
  - reflexivity.
  - set_solver.
  - reflexivity.
  - discriminate.
  - discriminate.
Defined.

Lemma find_unique_paths_listing_order_witness :
  find_unique_paths (os_flat ["b"; "a"]) 1 "/d" DefaultExcludeFileNames
  = find_unique_paths (os_flat ["a"; "b"]) 1 "/d" DefaultExcludeFileNames.
Proof.
  refine (find_unique_paths_listing_order DefaultExcludeFileNames
            (os_flat ["b"; "a"]) (os_flat ["a"; "b"]) _ _ _ 1%nat "/d").
  - reflexivity.
  - reflexivity.
  - intros p. simpl.
    destruct (String.eqb p "/d/."); [apply perm_swap|reflexivity].
Defined.

Lemma PathMatcher_init_single_path_witness :
  exists m,
    PathMatcher_init (tree_os fs_ab) (Some "/r") (SubStr "a/b") [] = (Ok m, [])
    /\ matches m "a/b/c" = true /\ matches m "a/b" = false.
Proof.
  destruct (PathMatcher_init_single_path (tree_os fs_ab) (Some "/r") "a/b" []
              eq_refl) as (m & Hm & _ & Hdir & _).
  assert (isdir (tree_os fs_ab)
            (abs_subpath_of (resolved_root (tree_os fs_ab) (Some "/r")) "a/b")
          = true) as His by (vm_compute; reflexivity).
  destruct (Hdir His) as (_ & Hself & Hpaths).
  exists m. split; [exact Hm|]. split; [|exact Hself].
  apply Hpaths. by exists "c".
Defined.

Lemma matches_more_patterns_witness :
  exists m',
    PathMatcher_init (tree_os fs_ab) (Some "/r") (SubList ["a/b"; "x/y.txt"]) []
    = (Ok m', [])
    /\ matches m' "x/y.txt" = true.
Proof.
  eexists. split; [vm_compute; reflexivity|].
  eapply (matches_more_patterns (tree_os fs_ab) (Some "/r")
            ["x/y.txt"] ["a/b"; "x/y.txt"] [] []).
  - vm_compute; reflexivity.
  - vm_compute; reflexivity.
  - set_solver.
  - vm_compute; reflexivity.
Defined.

Lemma matches_pattern_order_witness :
  exists m out' m' out'',
    PathMatcher_init (tree_os fs_ab) (Some "/r") (SubList ["a/b"; "x/y.txt"]) []
    = (Ok m, out')
    /\ PathMatcher_init (tree_os fs_ab) (Some "/r")
         (SubList ["x/y.txt"; "a/b"; "a/b"]) []
       = (Ok m', out'')
    /\ forall path, matches m' path = matches m path.
Proof.
  destruct (PathMatcher_init (tree_os fs_ab) (Some "/r")
              (SubList ["a/b"; "x/y.txt"]) []) as [[m|e] out'] eqn:Hm.
  2:{ vm_compute in Hm. discriminate. }
  destruct (matches_pattern_order (tree_os fs_ab) (Some "/r")
              ["a/b"; "x/y.txt"] ["x/y.txt"; "a/b"; "a/b"] [] m out' Hm)
    as (m' & out'' & Hm' & Heq).
  { intros pat. set_solver. }
  by exists m, out', m', out''.
Defined.

Lemma detect_oneline_comment_n_header_witness :
  detect_oneline_comment_n script_sh "#" 1 = 2%nat.
Proof.
  refine (detect_oneline_comment_n_header "#" 1
            ["#!/bin/sh" +:+ LF; "# tool" +:+ LF] [LF] ["echo" +:+ LF] _ _ _).
  - repeat constructor.
  - repeat constructor.
  - split; reflexivity.
Defined.

Lemma detect_multiline_c_comment_n_block_witness :
  (detect_multiline_c_comment_n file_c <= length file_c)%nat.
Proof.
  refine (proj1 (detect_multiline_c_comment_n_block file_c _)).
  vm_compute. lia.
Defined.

Lemma detect_comment_n_leading_witness :
  exists n, detect_comment_n script_sh = Some n /\ (0 + 1 <= n)%nat.
Proof.
  refine (detect_comment_n_leading []
            ("#!/bin/sh" +:+ LF) ["# tool" +:+ LF; LF; "echo" +:+ LF] _ _ _).
  - constructor.
  - discriminate.
  - left. reflexivity.
Defined.
Lemma parse_joined_option_witness :
  parse_compiler_arguments.parse None ["-Wall"; "-Iinc"; "x.c"]
  = parse_compiler_arguments.parse None ["-Wall"; "-I"; "inc"; "x.c"].
Proof.
  refine (proj1 (parse_joined_option None ["-Wall"] _ "inc" ["x.c"] _ _)).
  - vm_compute. reflexivity.
  - discriminate.
Defined.

Lemma parse_define_witness :
  exists st',
    parse_compiler_arguments.parse None ["-Wall"; "-DN=1"; "-DN=2"]
    = Some (parse_compiler_arguments.Done st')
    /\ parse_compiler_arguments.defines st' !! "N" = Some (Some "2").
Proof.
  refine (proj2 (proj2 (parse_define None ["-Wall"] _ "N" _ _ _)) "1" "2").
  - vm_compute. reflexivity.
  - discriminate.
  - reflexivity.
Defined.
End more_scenarios.
